(** * Perpsdk: market-data cache, aggregation and price-feed client

    A shallow embedding of the TypeScript sources of the SDK
    ([src/types.ts], [src/feed/feed_client.ts], [src/rpc/pairs_cache.ts],
    [src/rpc/category_parameters.ts], [src/rpc/snapshot.ts],
    [src/rpc/trade.ts], and the signing path of [src/client.ts]) together
    with the properties of its specification and further properties of
    the code.

    Conventions of the embedding.
    - A JavaScript [number] is a binary64 value: Rocq's primitive [float],
      whose operations are the IEEE 754 ones the JavaScript engine uses.
    - A [bigint] is a [Z].
    - A rejected promise or a thrown exception is the [Err] branch of
      [Result]; an [await] is a bind in that monad.
    - [Map<K,V>] is a [gmap] where only lookups are observed, and an
      association list where the insertion order is observed
      ([Map.keys()]).
    - An object that a method mutates in place (the transaction request
      of [signAndGetReceipt]) is threaded through the method as a state.
    - A callback is code of the caller.  Calling it is an effect; while
      it runs, the calls it makes on the client are events like the
      caller's own calls, and so is its return.
    - Console output is not modelled. *)

From Stdlib Require Import ZArith Floats Reals Lra Psatz Ascii.
From stdpp Require Import gmap strings list pretty sorting.

Open Scope string_scope.
Open Scope nat_scope.
Open Scope list_scope.

(** ** Binary64 arithmetic, as specified by [SpecFloat]

    The vocabulary used to reason about the rounding of the operations on
    [float]: real values of mantissa-exponent pairs, and the bookkeeping
    of the bits a right shift loses. *)

Module Binary64.

(** Whether bits were lost: the round or the sticky bit is set. *)
Definition inexact (mrs : shr_record) : bool := shr_r mrs || shr_s mrs.

Definition exact_loc (l : location) : bool :=
  match l with loc_Exact => true | _ => false end.

Definition bpow (e : Z) : R := powerRZ 2 e.

(** The value of mantissa [m] at exponent [e]. *)
Definition val (m e : Z) : R := (IZR m * bpow e)%R.

(** [v] lies in the cell of [m] at exponent [e]: on its lower end when
    nothing was lost, strictly inside otherwise. *)
Definition located (v : R) (m e : Z) (ix : bool) : Prop :=
  (val m e <= v)%R /\ (v < val (m + 1) e)%R /\
  (ix = false -> v = val m e) /\ (ix = true -> (val m e < v)%R).

(** The mantissa has the exponent the format prescribes for its size. *)
Definition canonical64 (m : positive) (e : Z) : Prop :=
  fexp prec emax (Zpos (digits2_pos m) + e)%Z = e.

(** The real number a finite binary64 value stands for. *)
Definition SF2R (x : spec_float) : R :=
  match x with
  | S754_finite s m e => val (cond_Zopp s (Zpos m)) e
  | _ => 0%R
  end.

Definition SF_finite (x : spec_float) : bool :=
  match x with
  | S754_zero _ | S754_finite _ _ _ => true
  | _ => false
  end.

(** A number that is not negative: a zero of either sign, a positive
    finite value or plus infinity; not [NaN]. *)
Definition nonneg_number (x : spec_float) : Prop :=
  match x with
  | S754_zero _ => True
  | S754_infinity s | S754_finite s _ _ => s = false
  | S754_nan => False
  end.

End Binary64.

(** ** The JavaScript primitives the sources rely on *)

Module Js.

(** The exceptions that occur in the modelled code. *)
Inductive Error :=
| TypeError
| RangeError
| SyntaxError
| ErrorMsg (msg : string)
| RemoteError (code : nat).

Inductive Result (A : Type) :=
| Ok (a : A)
| Err (e : Error).
Arguments Ok {A} a.
Arguments Err {A} e.

Definition bind {A B} (r : Result A) (k : A -> Result B) : Result B :=
  match r with
  | Ok a => k a
  | Err e => Err e
  end.

Definition is_Ok {A} (r : Result A) : bool :=
  match r with Ok _ => true | Err _ => false end.

(** [Number(z)] for a bigint [z]: the binary64 value nearest to [z]
    (ties to even), infinite beyond the binary64 range. *)
Definition Number_of_BigInt (z : Z) : float :=
  SF2Prim (binary_normalize prec emax z 0 false).

(** [BigInt(Math.floor(x))]: [Math.floor] of a finite binary64 value is
    the largest integer not above it, which [BigInt] converts exactly;
    [BigInt] throws a [RangeError] on [NaN] and on the infinities.  A
    finite value is [(-1)^s * m * 2^e]; shifting the signed mantissa by
    [e] rounds toward minus infinity when [e] is negative. *)
Definition BigInt_of_floor (x : float) : Result Z :=
  match Prim2SF x with
  | S754_zero _ => Ok 0%Z
  | S754_finite s m e => Ok (Z.shiftl (cond_Zopp s (Zpos m)) e)
  | S754_infinity _ | S754_nan => Err RangeError
  end.

(** Truthiness of a number: [0], [-0] and [NaN] are falsy. *)
Definition truthy (x : float) : bool :=
  negb (PrimFloat.is_zero x || PrimFloat.is_nan x).

(** [x || d] on numbers. *)
Definition or_default (x d : float) : float :=
  if truthy x then x else d.

(** Values produced by [JSON.parse]. *)
#[local] Unset Elimination Schemes.
Inductive json :=
| JNull
| JBool (b : bool)
| JNumber (x : float)
| JString (s : string)
| JArray (items : list json)
| JObject (fields : list (string * json)).
#[local] Set Elimination Schemes.

(** Own-property lookup in a parsed object; when a key is repeated in
    the text the last occurrence is the one [JSON.parse] keeps. *)
Fixpoint get_field (fields : list (string * json)) (k : string) : option json :=
  match fields with
  | [] => None
  | (k', v) :: rest =>
      match get_field rest k with
      | Some v' => Some v'
      | None => if String.eqb k' k then Some v else None
      end
  end.

(** [Number.isFinite(x)]. *)
Definition Number_isFinite (x : float) : bool := Binary64.SF_finite (Prim2SF x).

End Js.

(** [x ← r; k] is an [await] (or a call that may throw) followed by the
    rest of the function. *)
#[global] Instance Result_bind : MBind Js.Result := fun A B k r => Js.bind r k.
#[global] Instance Result_ret : MRet Js.Result := fun A a => Js.Ok a.

(** ** [src/types.ts] *)

Module Types.
Import Js.

Record Price := {
  price_price : string;
  price_conf : string;
  price_expo : float;
  price_publishTime : float }.

Record PriceFeedResponse := {
  feed_id : string;
  feed_price : Price;
  feed_emaPrice : Price }.

(** [z.string()] and [z.number()] applied to a possibly missing
    property. *)
Definition z_string (v : option json) : option string :=
  match v with
  | Some (JString s) => Some s
  | _ => None
  end.

Definition z_number (v : option json) : option float :=
  match v with
  | Some (JNumber x) => if PrimFloat.is_nan x then None else Some x
  | _ => None
  end.

(** [PriceSchema] and [EmaPriceSchema] have the same four fields. *)
Definition PriceSchema_parse (v : option json) : option Price :=
  match v with
  | Some (JObject fs) =>
      p ← z_string (get_field fs "price");
      c ← z_string (get_field fs "conf");
      e ← z_number (get_field fs "expo");
      t ← z_number (get_field fs "publishTime");
      Some {| price_price := p; price_conf := c;
              price_expo := e; price_publishTime := t |}
  | _ => None
  end.

Definition PriceFeedResponseSchema_parse (v : json) : option PriceFeedResponse :=
  match v with
  | JObject fs =>
      i ← z_string (get_field fs "id");
      p ← PriceSchema_parse (get_field fs "price");
      e ← PriceSchema_parse (get_field fs "emaPrice");
      Some {| feed_id := i; feed_price := p; feed_emaPrice := e |}
  | _ => None
  end.

(** The records of the schemas.  [groupIndex] and [feeIndex] are
    [Number(...)] of small on-chain integers and are used as [Map] keys:
    they are natural numbers here. *)
Record Spread := {
  spread_min : float;
  spread_max : float }.

Record PairInfo := {
  from : string;
  to : string;
  spread : Spread;
  groupIndex : nat;
  feeIndex : nat;
  maxLeverage : float;
  maxOpenInterestUsdc : float }.

Record OpenInterest := {
  long : float;
  short : float;
  max : float }.

Record Utilization := {
  utilizationLong : float;
  utilizationShort : float }.

Record Skew := { skew : float }.

Record Fee := { feeP : float }.

Record Depth := {
  onePercentDepthAboveUsdc : float;
  onePercentDepthBelowUsdc : float }.

Record PairData := {
  pd_pairInfo : PairInfo;
  pd_openInterest : option OpenInterest;
  pd_utilization : option Utilization;
  pd_skew : option Skew;
  pd_fee : option Fee;
  pd_depth : option Depth;
  pd_spread : option float }.

Record Group := {
  group_groupIndex : nat;
  group_pairs : gmap string PairData;
  group_openInterest : option OpenInterest;
  group_utilization : option Utilization;
  group_skew : option Skew }.

Record Snapshot := { groups : gmap string Group }.

Record TradeInput := {
  ti_pair : string;
  ti_isLong : bool;
  ti_collateralInTrade : float;
  ti_leverage : float;
  ti_openPrice : float;
  ti_tp : float;
  ti_sl : float;
  ti_referrer : string;
  ti_orderType : string;
  ti_maxSlippageP : float }.

(** Conversion helpers.  The argument is the value of [BigInt(value)]. *)
Definition fromBlockchain10 (value : Z) : float :=
  (Number_of_BigInt value / 1e10)%float.

Definition fromBlockchain6 (value : Z) : float :=
  (Number_of_BigInt value / 1e6)%float.

Definition toBlockchain10 (value : float) : Result Z :=
  BigInt_of_floor (value * 1e10)%float.

Definition toBlockchain6 (value : float) : Result Z :=
  BigInt_of_floor (value * 1e6)%float.

(** [fromBlockchain_n(toBlockchain_n(v))], and a conversion applied [m]
    times in a row. *)
Definition roundTrip6 (v : float) : Result float :=
  k ← toBlockchain6 v; Ok (fromBlockchain6 k).

Definition roundTrip10 (v : float) : Result float :=
  k ← toBlockchain10 v; Ok (fromBlockchain10 k).

Fixpoint repeatedly (f : float -> Result float) (m : nat) (v : float) : Result float :=
  match m with
  | 0 => Ok v
  | S m' => v' ← f v; repeatedly f m' v'
  end.

(** The encoding rule of the specification, [integer = floor(display *
    10^decimals)], for the binary64 product [x] the code computes: the
    outcome is the integer [k] with [k <= x < k + 1] when [x] is finite,
    and a [RangeError] when it is not. *)
Definition floors (x : float) (r : Result Z) : Prop :=
  match r with
  | Ok k =>
      Binary64.SF_finite (Prim2SF x) = true /\
      (IZR k <= Binary64.SF2R (Prim2SF x) < IZR k + 1)%R
  | Err e => e = RangeError /\ Binary64.SF_finite (Prim2SF x) = false
  end.

End Types.

(** ** [src/feed/feed_client.ts]: the streaming price-feed client *)

Module FeedClient.
Import Js Types.

(** [WebSocket.readyState]. *)
Inductive ReadyState := CONNECTING | OPEN | CLOSING | CLOSED.

(** A registered callback is known by its identity: [indexOf] compares
    function references.  A callback is code of the caller: while it
    runs it may call the public methods of the client, and it returns or
    throws; the client catches what it throws. *)
Definition Callback := nat.

Inductive WireMessage :=
| Subscribe (ids : list string)
| Unsubscribe (ids : list string).

(** What the client does to the outside, in the order it happens. *)
Inductive Effect :=
| Sent (socket : nat) (m : WireMessage)
| Invoked (cb : Callback) (p : PriceFeedResponse)
| OnErrorHook
| OnCloseHook
| Resolved (socket : nat)
| Rejected (socket : nat)
| SetTimeout (delay : N).

(** The fields of the class.  [ws] names a socket of the world below;
    [callbacks] is a [Map] whose key order ([Map.keys()]) is the order of
    first insertion; [onError] and [onClose] record whether the optional
    hooks were given to the constructor.  A hook is taken to return: the
    client does not catch what a hook throws. *)
Record t := {
  ws : option nat;
  callbacks : list (string * list Callback);
  onError : bool;
  onClose : bool;
  reconnectAttempts : nat;
  maxReconnectAttempts : nat;
  reconnectDelay : N }.

(** A run of [callbacks.forEach] that has called a callback and waits
    for it to return: the message being dispatched, the index the loop
    visits next, and the length of the array when the loop began. *)
Record Dispatch := {
  d_feed : PriceFeedResponse;
  d_next : nat;
  d_length : nat }.

(** The client together with what lives outside it: every socket it has
    created (the four handlers of [listenForPriceUpdates] stay attached to
    a socket for its whole life), the pending reconnection timers, the
    effects so far, and the dispatch in progress, if any. *)
Record World := {
  client : t;
  sockets : list ReadyState;
  timers : list N;
  effects : list Effect;
  dispatching : option Dispatch }.

Definition new (hasOnError hasOnClose : bool) : t :=
  {| ws := None; callbacks := []; onError := hasOnError; onClose := hasOnClose;
     reconnectAttempts := 0; maxReconnectAttempts := 5; reconnectDelay := 1000%N |}.

Definition init (hasOnError hasOnClose : bool) : World :=
  {| client := new hasOnError hasOnClose; sockets := []; timers := []; effects := [];
     dispatching := None |}.

Definition set_ws (o : option nat) (c : t) : t :=
  {| ws := o; callbacks := callbacks c; onError := onError c; onClose := onClose c;
     reconnectAttempts := reconnectAttempts c;
     maxReconnectAttempts := maxReconnectAttempts c;
     reconnectDelay := reconnectDelay c |}.

Definition set_callbacks (m : list (string * list Callback)) (c : t) : t :=
  {| ws := ws c; callbacks := m; onError := onError c; onClose := onClose c;
     reconnectAttempts := reconnectAttempts c;
     maxReconnectAttempts := maxReconnectAttempts c;
     reconnectDelay := reconnectDelay c |}.

Definition set_reconnectAttempts (n : nat) (c : t) : t :=
  {| ws := ws c; callbacks := callbacks c; onError := onError c; onClose := onClose c;
     reconnectAttempts := n;
     maxReconnectAttempts := maxReconnectAttempts c;
     reconnectDelay := reconnectDelay c |}.

Definition with_client (f : t -> t) (w : World) : World :=
  {| client := f (client w); sockets := sockets w; timers := timers w;
     effects := effects w; dispatching := dispatching w |}.

Definition set_socket (s : nat) (r : ReadyState) (w : World) : World :=
  {| client := client w; sockets := <[s := r]> (sockets w); timers := timers w;
     effects := effects w; dispatching := dispatching w |}.

Definition emit (e : Effect) (w : World) : World :=
  {| client := client w; sockets := sockets w; timers := timers w;
     effects := effects w ++ [e]; dispatching := dispatching w |}.

Definition set_dispatching (d : option Dispatch) (w : World) : World :=
  {| client := client w; sockets := sockets w; timers := timers w;
     effects := effects w; dispatching := d |}.

(** [Map.get], an in-place update of the array stored under a key, and
    [Map.keys()]. *)
Fixpoint Map_get {V} (m : list (string * V)) (k : string) : option V :=
  match m with
  | [] => None
  | (k', v) :: rest => if String.eqb k' k then Some v else Map_get rest k
  end.

Fixpoint Map_update {V} (f : V -> V) (k : string) (m : list (string * V)) : list (string * V) :=
  match m with
  | [] => []
  | (k', v) :: rest =>
      if String.eqb k' k then (k', f v) :: rest else (k', v) :: Map_update f k rest
  end.

Definition Map_keys {V} (m : list (string * V)) : list string := map fst m.

(** [arr.splice(arr.indexOf(cb), 1)] when [cb] occurs in [arr]. *)
Fixpoint splice_first (cb : Callback) (arr : list Callback) : list Callback :=
  match arr with
  | [] => []
  | x :: rest => if Nat.eqb x cb then rest else x :: splice_first cb rest
  end.

Definition registerPriceFeedCallback (feedId : string) (callback : Callback) (c : t) : t :=
  let m := match Map_get (callbacks c) feedId with
           | Some _ => callbacks c
           | None => callbacks c ++ [(feedId, [])]
           end in
  set_callbacks (Map_update (fun arr => arr ++ [callback]) feedId m) c.

Definition unregisterPriceFeedCallback (feedId : string) (callback : Callback) (c : t) : t :=
  match Map_get (callbacks c) feedId with
  | Some _ => set_callbacks (Map_update (splice_first callback) feedId (callbacks c)) c
  | None => c
  end.

(** [listenForPriceUpdates]: a new socket is created, in state
    [CONNECTING], and becomes [this.ws]. *)
Definition listenForPriceUpdates (w : World) : World :=
  {| client := set_ws (Some (length (sockets w))) (client w);
     sockets := sockets w ++ [CONNECTING];
     timers := timers w;
     effects := effects w;
     dispatching := dispatching w |}.

Definition subscribeToPriceFeeds (feedIds : list string) (w : World) : World :=
  match ws (client w) with
  | None => w
  | Some s =>
      match sockets w !! s with
      | Some OPEN => emit (Sent s (Subscribe feedIds)) w
      | _ => w
      end
  end.

(** The ['open'] handler of socket [s]. *)
Definition on_open (s : nat) (w : World) : World :=
  let w1 := with_client (set_reconnectAttempts 0) w in
  let feedIds := Map_keys (callbacks (client w1)) in
  let w2 := if 0 <? length feedIds then subscribeToPriceFeeds feedIds w1 else w1 in
  emit (Resolved s) w2.

(** Element [k] of the array the map holds under [feedId].  The array
    of a feed is created once and never replaced: [push] and [splice]
    change it in place, so the array a running [forEach] walks is the
    one the map holds. *)
Definition element (feedId : string) (k : nat) (w : World) : option Callback :=
  arr ← Map_get (callbacks (client w)) feedId; arr !! k.

(** [callbacks.forEach(...)] with [n] indices left, the next being [k].
    [forEach] reads the length of the array once, before the first
    visit, and visits an index only if it is still an index of the array
    when its turn comes.  A visit calls the callback: the loop then
    waits, in [dispatching], until the callback has returned or thrown;
    what the callback calls on the client meanwhile happens to the
    client meanwhile. *)
Fixpoint forEach (priceFeed : PriceFeedResponse) (n k : nat) (w : World) : World :=
  match n with
  | 0 => set_dispatching None w
  | S n' =>
      match element (feed_id priceFeed) k w with
      | Some callback =>
          set_dispatching
            (Some {| d_feed := priceFeed; d_next := S k; d_length := k + n |})
            (emit (Invoked callback priceFeed) w)
      | None => forEach priceFeed n' (S k) w
      end
  end.

Definition handlePriceUpdate (message : json) (w : World) : World :=
  match PriceFeedResponseSchema_parse message with
  | Some priceFeed =>
      match Map_get (callbacks (client w)) (feed_id priceFeed) with
      | Some cbs => forEach priceFeed (length cbs) 0 w
      | None => w
      end
  | None => w
  end.

(** The callback that was called returns, or throws and is caught: the
    loop goes on with the next index. *)
Definition callback_returns (w : World) : World :=
  match dispatching w with
  | Some d => forEach (d_feed d) (d_length d - d_next d) (d_next d) w
  | None => w
  end.

(** The ['message'] handler.  [parsed] is the outcome of
    [JSON.parse(data.toString())], [None] when it throws.  Reading
    [.type] of [null] throws as well; both exceptions are caught. *)
Definition on_message (parsed : option json) (w : World) : World :=
  match parsed with
  | Some (JObject fs) =>
      match get_field fs "type" with
      | Some (JString ty) =>
          if String.eqb ty "price_update" then handlePriceUpdate (JObject fs) w else w
      | _ => w
      end
  | _ => w
  end.

Definition on_error (s : nat) (w : World) : World :=
  let w1 := if onError (client w) then emit OnErrorHook w else w in
  emit (Rejected s) w1.

Definition attemptReconnect (w : World) : World :=
  let c := client w in
  if maxReconnectAttempts c <=? reconnectAttempts c then w
  else
    let attempts := S (reconnectAttempts c) in
    let delay := (reconnectDelay c * 2 ^ N.of_nat (attempts - 1))%N in
    {| client := set_reconnectAttempts attempts c;
       sockets := sockets w;
       timers := timers w ++ [delay];
       effects := effects w ++ [SetTimeout delay];
       dispatching := dispatching w |}.

Definition on_close (w : World) : World :=
  let w1 := if onClose (client w) then emit OnCloseHook w else w in
  attemptReconnect w1.

(** [ws.close()] of the library: a socket that is not yet closed starts
    closing. *)
Definition ws_close (r : ReadyState) : ReadyState :=
  match r with
  | CLOSED => CLOSED
  | _ => CLOSING
  end.

Definition close (w : World) : World :=
  match ws (client w) with
  | Some s =>
      let socks := match sockets w !! s with
                   | Some r => <[s := ws_close r]> (sockets w)
                   | None => sockets w
                   end in
      {| client := set_ws None (client w); sockets := socks;
         timers := timers w; effects := effects w; dispatching := dispatching w |}
  | None => w
  end.

(** What can happen to a client: calls of its public methods, by the
    caller or by a callback that is running; events of one of its
    sockets; the expiry of a reconnection timer; and the return of the
    callback that is running. *)
Inductive Event :=
| CallRegister (feedId : string) (cb : Callback)
| CallUnregister (feedId : string) (cb : Callback)
| CallListen
| CallClose
| WsOpen (s : nat)
| WsMessage (s : nat) (parsed : option json)
| WsError (s : nat)
| WsClose (s : nat)
| TimerFired (i : nat)
| CallbackReturn.

Definition step (ev : Event) (w : World) : World :=
  match ev with
  | CallRegister f cb => with_client (registerPriceFeedCallback f cb) w
  | CallUnregister f cb => with_client (unregisterPriceFeedCallback f cb) w
  | CallListen => listenForPriceUpdates w
  | CallClose => close w
  | WsOpen s => on_open s (set_socket s OPEN w)
  | WsMessage s parsed => on_message parsed w
  | WsError s => on_error s (set_socket s CLOSING w)
  | WsClose s => on_close (set_socket s CLOSED w)
  | TimerFired i =>
      match timers w !! i with
      | Some _ =>
          listenForPriceUpdates
            {| client := client w; sockets := sockets w;
               timers := delete i (timers w); effects := effects w;
               dispatching := dispatching w |}
      | None => w
      end
  | CallbackReturn => callback_returns w
  end.

Definition run (evs : list Event) (w : World) : World :=
  foldl (fun w' ev => step ev w') w evs.

(** No callback is running. *)
Definition idle (w : World) : bool :=
  match dispatching w with
  | None => true
  | Some _ => false
  end.

(** When the socket library and the timer queue can deliver an event.
    Handlers run one at a time: while a callback runs nothing is
    delivered, and all that can happen is that the callback calls the
    client or returns. *)
Definition enabled (ev : Event) (w : World) : bool :=
  match ev with
  | WsOpen s =>
      idle w && match sockets w !! s with Some CONNECTING => true | _ => false end
  | WsMessage s _ =>
      idle w && match sockets w !! s with Some OPEN => true | _ => false end
  | WsError s =>
      idle w &&
      match sockets w !! s with Some CONNECTING | Some OPEN => true | _ => false end
  | WsClose s =>
      idle w && match sockets w !! s with Some CLOSED | None => false | Some _ => true end
  | TimerFired i => idle w && bool_decide (i < length (timers w))
  | CallbackReturn => negb (idle w)
  | _ => true
  end.

Fixpoint admissible (evs : list Event) (w : World) : bool :=
  match evs with
  | [] => true
  | ev :: rest => enabled ev w && admissible rest (step ev w)
  end.

(** Observations used by the statements. *)
Definition scheduled (w : World) : list N :=
  omap (fun e => match e with SetTimeout d => Some d | _ => None end) (effects w).

Definition observers (w : World) (feedId : string) : list Callback :=
  default [] (Map_get (callbacks (client w)) feedId).

Definition is_open_event (ev : Event) : bool :=
  match ev with WsOpen _ => true | _ => false end.

Definition is_close_event (ev : Event) : bool :=
  match ev with WsClose _ => true | _ => false end.

(** The feed identifiers passed to [registerPriceFeedCallback] in a
    sequence of events, each once, in the order of first registration. *)
Fixpoint registered (evs : list Event) (acc : list string) : list string :=
  match evs with
  | [] => acc
  | CallRegister f _ :: rest =>
      registered rest (if bool_decide (f ∈ acc) then acc else acc ++ [f])
  | _ :: rest => registered rest acc
  end.

(** The part of the world the reconnection logic reads and writes. *)
Definition reconnect_view (w : World) : nat * nat * N * list N :=
  (reconnectAttempts (client w), maxReconnectAttempts (client w),
   reconnectDelay (client w), scheduled w).

(** Where the dispatch of [pf] to the callbacks [l], begun in [w],
    stands in [wj] when [j] callbacks have returned and none has called
    the client: the first [j + 1] callbacks have been called, and the
    loop waits for the last of them or is over. *)
Definition dispatched (pf : PriceFeedResponse) (l : list Callback) (w : World) (j : nat)
    (wj : World) : Prop :=
  client wj = client w /\ sockets wj = sockets w /\ timers wj = timers w /\
  effects wj = effects w ++ map (fun cb => Invoked cb pf) (take (S j) l) /\
  dispatching wj =
    if S j <=? length l
    then Some {| d_feed := pf; d_next := S j; d_length := length l |}
    else None.

(** A change that touches nothing but the dispatch in progress and the
    effects, to which it adds at most the call of one callback. *)
Definition calls_at_most_one (w w' : World) : Prop :=
  client w' = client w /\ sockets w' = sockets w /\ timers w' = timers w /\
  (effects w' = effects w \/ exists cb pf, effects w' = effects w ++ [Invoked cb pf]).

(** The number of close events in a sequence, and the delays
    [base * 2^a, ..., base * 2^(a+n-1)]. *)
Definition closes (evs : list Event) : nat :=
  length (filter (fun ev => is_close_event ev = true) evs).

Definition backoff (base : N) (a n : nat) : list N :=
  map (fun k => (base * 2 ^ N.of_nat k)%N) (seq a n).

(** The calls of [listenForPriceUpdates] in a sequence. *)
Definition is_listen_event (ev : Event) : bool :=
  match ev with CallListen => true | _ => false end.

Definition listens (evs : list Event) : nat :=
  length (filter (fun ev => is_listen_event ev = true) evs).

(** The message shape of the specification, in its own words: an object
    of type ["price_update"] with a string [id], a [price] object made of
    the strings [price] and [conf] and the numbers [expo] and
    [publishTime], and an [emaPrice] object of the same shape. *)
Inductive ValidPrice : json -> Price -> Prop :=
| valid_price fs p c e t :
    get_field fs "price" = Some (JString p) ->
    get_field fs "conf" = Some (JString c) ->
    get_field fs "expo" = Some (JNumber e) -> PrimFloat.is_nan e = false ->
    get_field fs "publishTime" = Some (JNumber t) -> PrimFloat.is_nan t = false ->
    ValidPrice (JObject fs)
      {| price_price := p; price_conf := c; price_expo := e; price_publishTime := t |}.

Inductive ValidPriceUpdate : option json -> PriceFeedResponse -> Prop :=
| valid_price_update fs i pj p ej e :
    get_field fs "type" = Some (JString "price_update") ->
    get_field fs "id" = Some (JString i) ->
    get_field fs "price" = Some pj -> ValidPrice pj p ->
    get_field fs "emaPrice" = Some ej -> ValidPrice ej e ->
    ValidPriceUpdate (Some (JObject fs))
      {| feed_id := i; feed_price := p; feed_emaPrice := e |}.

(** What the ['open'] handler sends: one subscribe message carrying
    [feedIds] on the socket [this.ws], provided there is at least one
    identifier and that socket is open. *)
Definition subscription (feedIds : list string) (w : World) : list Effect :=
  match feedIds, ws (client w) with
  | _ :: _, Some s' =>
      match sockets w !! s' with
      | Some OPEN => [Sent s' (Subscribe feedIds)]
      | _ => []
      end
  | _, _ => []
  end.

(** Two concrete sessions.  In the first the caller connects, the
    connection opens, the caller closes it, and the socket reports the
    close.  In the second a callback is registered and unregistered
    before the connection opens. *)
Definition session_connected : list Event := [CallListen; WsOpen 0].

Definition session_deliberate_close : list Event :=
  [CallListen; WsOpen 0; CallClose; WsClose 0].

Definition session_unregistered : list Event :=
  [CallRegister "feed" 1; CallUnregister "feed" 1; CallListen; WsOpen 0].

(** A session in which seven connections in a row fail before they
    open, each with an error event followed by a close event.  The first
    is made by the caller, the next five by the timers, and the seventh
    by the caller again, once no timer is left. *)
Definition session_seven_failures : list Event :=
  [CallListen; WsError 0; WsClose 0;
   TimerFired 0; WsError 1; WsClose 1;
   TimerFired 0; WsError 2; WsClose 2;
   TimerFired 0; WsError 3; WsClose 3;
   TimerFired 0; WsError 4; WsClose 4;
   TimerFired 0; WsError 5; WsClose 5;
   CallListen; WsError 6; WsClose 6].

(** A well-formed price update and a message without its [emaPrice]. *)
Definition sample_price : json :=
  JObject [("price", JString "6500000"); ("conf", JString "1200");
           ("expo", JNumber (-2)); ("publishTime", JNumber 1700000000)].

Definition sample_update : json :=
  JObject [("type", JString "price_update"); ("id", JString "feed");
           ("price", sample_price); ("emaPrice", sample_price)].

Definition sample_malformed : json :=
  JObject [("type", JString "price_update"); ("id", JString "feed");
           ("price", sample_price)].

Definition sample_feed : PriceFeedResponse :=
  let p := {| price_price := "6500000"; price_conf := "1200";
              price_expo := (-2)%float; price_publishTime := 1700000000%float |} in
  {| feed_id := "feed"; feed_price := p; feed_emaPrice := p |}.

Definition session_listening : list Event :=
  [CallRegister "feed" 1; CallRegister "feed" 2; CallRegister "other" 3;
   CallListen; WsOpen 0].

(** The same session goes on: a price update for ["feed"] arrives, and
    callback 1, called first, unregisters itself before it returns. *)
Definition session_one_shot : list Event :=
  session_listening ++
  [WsMessage 0 (Some sample_update); CallUnregister "feed" 1; CallbackReturn].

(** In this one both callbacks return without calling the client. *)
Definition session_delivered : list Event :=
  session_listening ++
  [WsMessage 0 (Some sample_update); CallbackReturn; CallbackReturn].

(** [unsubscribeFromPriceFeeds] is private and has no caller. *)
Definition unsubscribeFromPriceFeeds (feedIds : list string) (w : World) : World :=
  match ws (client w) with
  | None => w
  | Some s =>
      match sockets w !! s with
      | Some OPEN => emit (Sent s (Unsubscribe feedIds)) w
      | _ => w
      end
  end.

Definition isConnected (w : World) : bool :=
  match ws (client w) with
  | Some s =>
      match sockets w !! s with
      | Some OPEN => true
      | _ => false
      end
  | None => false
  end.

(** The messages written to the sockets so far. *)
Definition sent (w : World) : list (nat * WireMessage) :=
  omap (fun e => match e with Sent s m => Some (s, m) | _ => None end) (effects w).

Definition opens (evs : list Event) : nat :=
  length (filter (fun ev => is_open_event ev = true) evs).

(** A session in which the same callback is registered twice for a feed
    and unregistered once. *)
Definition session_registered_twice : list Event :=
  [CallRegister "feed" 1; CallRegister "feed" 2; CallRegister "feed" 1].

End FeedClient.

(** ** The read interface of the pair-storage contract

    One record stands for the answers the remote ledger gives during one
    call of the SDK; every read may fail. *)

Module PairStorage.
Import Js.

(** The struct returned by [pairs(i)].  The source reads
    [spreadP || spread?.min || 0] and [maxOpenInterestUsdc || 0], so these
    members may be missing; [maxLeverage] is converted without a
    fallback. *)
Record RawPair := {
  raw_from : string;
  raw_to : string;
  raw_spreadP : option Z;
  raw_spread : option (option Z * option Z);
  raw_groupIndex : nat;
  raw_feeIndex : nat;
  raw_maxLeverage : option Z;
  raw_maxOpenInterestUsdc : option Z }.

Record t := {
  pairsCount : Result nat;
  pairs : nat -> Result RawPair;
  groupOI : nat -> nat -> Result Z;
  groupCollateral : nat -> bool -> Result Z }.

End PairStorage.

(** ** [src/rpc/pairs_cache.ts] *)

Module PairsCache.
Import Js Types.

Record t := {
  pairsCache : option (gmap nat PairInfo);
  pairNameToIndexMap : option (gmap string nat) }.

Definition empty : t := {| pairsCache := None; pairNameToIndexMap := None |}.

(** The template string [`${from}/${to}`]. *)
Definition pairName (p : PairInfo) : string :=
  String.append (from p) (String.append "/" (to p)).

(** [a || b || 0] on values that are [undefined] or a bigint ([0n] is
    falsy). *)
Definition or_bigint (a b : option Z) : Z :=
  match a with
  | Some (Zpos _ as z) | Some (Zneg _ as z) => z
  | _ => match b with
         | Some z => z
         | None => 0%Z
         end
  end.

(** The object literal built from [pairData]; [BigInt(undefined)] throws a
    [TypeError]. *)
Definition toPairInfo (pairData : PairStorage.RawPair) : Result PairInfo :=
  let smin := fromBlockchain10
                (or_bigint (PairStorage.raw_spreadP pairData)
                           (PairStorage.raw_spread pairData ≫= fst)) in
  let smax := fromBlockchain10
                (or_bigint (PairStorage.raw_spreadP pairData)
                           (PairStorage.raw_spread pairData ≫= snd)) in
  match PairStorage.raw_maxLeverage pairData with
  | None => Err TypeError
  | Some lev =>
      Ok {| from := PairStorage.raw_from pairData;
            to := PairStorage.raw_to pairData;
            spread := {| spread_min := smin; spread_max := smax |};
            groupIndex := PairStorage.raw_groupIndex pairData;
            feeIndex := PairStorage.raw_feeIndex pairData;
            maxLeverage := fromBlockchain10 lev;
            maxOpenInterestUsdc :=
              fromBlockchain6 (or_bigint (PairStorage.raw_maxOpenInterestUsdc pairData) None) |}
  end.

(** The loop [for (let i = 0; i < count; i++)], with [n = count - i]
    iterations left, filling the two local maps. *)
Fixpoint fetchPairs (c : PairStorage.t) (n i : nat)
    (pairs : gmap nat PairInfo) (pairNameToIndex : gmap string nat)
    : Result (gmap nat PairInfo * gmap string nat) :=
  match n with
  | 0 => Ok (pairs, pairNameToIndex)
  | S n' =>
      pairData ← PairStorage.pairs c i;
      pairInfo ← toPairInfo pairData;
      fetchPairs c n' (S i) (<[i := pairInfo]> pairs)
                 (<[pairName pairInfo := i]> pairNameToIndex)
  end.

(** [getPairsInfo(forceRefresh)]: the result and the object afterwards. *)
Definition getPairsInfo (c : PairStorage.t) (forceRefresh : bool) (this : t)
    : Result (gmap nat PairInfo) * t :=
  match pairsCache this, forceRefresh with
  | Some cache, false => (Ok cache, this)
  | _, _ =>
      match (count ← PairStorage.pairsCount c; fetchPairs c count 0 ∅ ∅) with
      | Ok (pairs, pairNameToIndex) =>
          (Ok pairs, {| pairsCache := Some pairs;
                        pairNameToIndexMap := Some pairNameToIndex |})
      | Err e => (Err e, this)
      end
  end.

Definition getPairIndex (c : PairStorage.t) (name : string) (this : t)
    : Result (option nat) * t :=
  let '(r, this1) := match pairNameToIndexMap this with
                     | None => getPairsInfo c false this
                     | Some _ => (Ok ∅, this)
                     end in
  match r with
  | Err e => (Err e, this1)
  | Ok _ => (Ok (pairNameToIndexMap this1 ≫= (fun m => m !! name)), this1)
  end.

Definition getPairName (c : PairStorage.t) (pairIndex : nat) (this : t)
    : Result (option string) * t :=
  let '(r, this1) := match pairsCache this with
                     | None => getPairsInfo c false this
                     | Some _ => (Ok ∅, this)
                     end in
  match r with
  | Err e => (Err e, this1)
  | Ok _ => (Ok (pairName <$> (pairsCache this1 ≫= (fun m => m !! pairIndex))), this1)
  end.

(** [Array.from(set).sort((a, b) => a - b)]: the distinct group indexes in
    ascending order. *)
Definition groupIndexesOf (pairs : gmap nat PairInfo) : list nat :=
  merge_sort le (elements (map_to_set (fun _ p => groupIndex p) pairs : gset nat)).

Definition getGroupIndexes (c : PairStorage.t) (this : t) : Result (list nat) * t :=
  let '(r, this1) := getPairsInfo c false this in
  (pairs ← r; Ok (groupIndexesOf pairs), this1).

(** [pairs.forEach] visits the keys in insertion order, which for a cache
    filled by [getPairsInfo] is the ascending order of the indexes. *)
Definition pairsInGroupOf (pairs : gmap nat PairInfo) (g : nat) : list nat :=
  merge_sort le
    (elements (dom (filter (fun kv => groupIndex (snd kv) = g) pairs) : gset nat)).

Definition getPairsInGroup (c : PairStorage.t) (g : nat) (this : t)
    : Result (list nat) * t :=
  let '(r, this1) := getPairsInfo c false this in
  (pairs ← r; Ok (pairsInGroupOf pairs g), this1).

Definition getPairByIndex (c : PairStorage.t) (pairIndex : nat) (this : t)
    : Result (option PairInfo) * t :=
  let '(r, this1) := getPairsInfo c false this in
  (pairs ← r; Ok (pairs !! pairIndex), this1).

Definition clearCache (this : t) : t := empty.

(** *** The same method, one suspension at a time

    Between two [await]s other code of the process may run and read the
    object.  A frame is the method suspended at an [await], with its local
    variables; [resume] runs it to the next [await] or to its end. *)
Inductive Frame :=
| AtPairsCount
| AtPairs (count i : nat) (pairs : gmap nat PairInfo) (pairNameToIndex : gmap string nat)
| Returned (r : Result (gmap nat PairInfo)).

Definition enter_loop (count i : nat) (pairs : gmap nat PairInfo)
    (pairNameToIndex : gmap string nat) (this : t) : Frame * t :=
  if i <? count then (AtPairs count i pairs pairNameToIndex, this)
  else (Returned (Ok pairs),
        {| pairsCache := Some pairs; pairNameToIndexMap := Some pairNameToIndex |}).

Definition start (forceRefresh : bool) (this : t) : Frame * t :=
  match pairsCache this, forceRefresh with
  | Some cache, false => (Returned (Ok cache), this)
  | _, _ => (AtPairsCount, this)
  end.

Definition resume (c : PairStorage.t) (f : Frame) (this : t) : Frame * t :=
  match f with
  | AtPairsCount =>
      match PairStorage.pairsCount c with
      | Ok count => enter_loop count 0 ∅ ∅ this
      | Err e => (Returned (Err e), this)
      end
  | AtPairs count i pairs pairNameToIndex =>
      match (pairData ← PairStorage.pairs c i; toPairInfo pairData) with
      | Ok pairInfo =>
          enter_loop count (S i) (<[i := pairInfo]> pairs)
                     (<[pairName pairInfo := i]> pairNameToIndex) this
      | Err e => (Returned (Err e), this)
      end
  | Returned r => (f, this)
  end.

Definition is_Returned (f : Frame) : bool :=
  match f with Returned _ => true | _ => false end.

(** The object as it can be read at each suspension of a call, first to
    last, when nothing else writes it in between. *)
Fixpoint observable (c : PairStorage.t) (fuel : nat) (f : Frame) (this : t) : list t :=
  match f, fuel with
  | Returned _, _ | _, 0 => []
  | _, S fuel' =>
      this :: (let '(f', this') := resume c f this in observable c fuel' f' this')
  end.

Fixpoint execute (c : PairStorage.t) (fuel : nat) (f : Frame) (this : t) : Frame * t :=
  match f, fuel with
  | Returned _, _ | _, 0 => (f, this)
  | _, S fuel' => let '(f', this') := resume c f this in execute c fuel' f' this'
  end.

(** One round of the loop: the read of pair [i] and its conversion. *)
Definition readPair (c : PairStorage.t) (i : nat) : Result PairInfo :=
  pairData ← PairStorage.pairs c i; toPairInfo pairData.

(** Whether a call goes to the ledger: the first call, or a forced
    refresh. *)
Definition fetches (forceRefresh : bool) (this : t) : bool :=
  match pairsCache this, forceRefresh with
  | Some _, false => false
  | _, _ => true
  end.

(** The two maps describe the same catalog: every name of the index map
    leads to a cached pair of that name, and every cached pair has its
    name in the index map. *)
Definition agree (pairs : gmap nat PairInfo) (names : gmap string nat) : Prop :=
  (forall name idx, names !! name = Some idx ->
     exists p, pairs !! idx = Some p /\ pairName p = name) /\
  (forall i p, pairs !! i = Some p -> is_Some (names !! pairName p)).

(** The states the object can be in: both maps absent, or both present
    and in agreement. *)
Definition coherent (this : t) : Prop :=
  match pairsCache this, pairNameToIndexMap this with
  | None, None => True
  | Some pairs, Some names => agree pairs names
  | _, _ => False
  end.

(** Pair names are unique in a catalog. *)
Definition unique_names (pairs : gmap nat PairInfo) : Prop :=
  forall i j p q, pairs !! i = Some p -> pairs !! j = Some q ->
    pairName p = pairName q -> i = j.

(** A ledger with three pairs in two groups, the same ledger with the
    read of pair 1 failing, and a cache holding an older catalog. *)
Definition sample_raw (f t : string) (g : nat) : PairStorage.RawPair :=
  {| PairStorage.raw_from := f; PairStorage.raw_to := t;
     PairStorage.raw_spreadP := Some 4000000%Z; PairStorage.raw_spread := None;
     PairStorage.raw_groupIndex := g; PairStorage.raw_feeIndex := 0;
     PairStorage.raw_maxLeverage := Some 1000000000000%Z;
     PairStorage.raw_maxOpenInterestUsdc := Some 5000000000000%Z |}.

Definition sample_ledger : PairStorage.t :=
  {| PairStorage.pairsCount := Ok 3;
     PairStorage.pairs := fun i =>
       match i with
       | 0 => Ok (sample_raw "BTC" "USD" 0)
       | 1 => Ok (sample_raw "ETH" "USD" 0)
       | 2 => Ok (sample_raw "EUR" "USD" 1)
       | _ => Err (RemoteError 404)
       end;
     PairStorage.groupOI := fun g side =>
       match g, side with
       | 0, 0 => Ok 750000000%Z
       | 0, _ => Ok 250000000%Z
       | _, _ => Err (RemoteError 503)
       end;
     PairStorage.groupCollateral := fun g _ => Ok 2000000000%Z |}.

Definition failing_ledger : PairStorage.t :=
  {| PairStorage.pairsCount := Ok 3;
     PairStorage.pairs := fun i =>
       match i with
       | 0 => Ok (sample_raw "BTC" "USD" 0)
       | _ => Err (RemoteError 503)
       end;
     PairStorage.groupOI := fun _ _ => Err (RemoteError 503);
     PairStorage.groupCollateral := fun _ _ => Err (RemoteError 503) |}.

Definition sample_cache : t := snd (getPairsInfo sample_ledger false empty).

(** A ledger on which the pairs 0 and 2 carry the same name. *)
Definition duplicate_ledger : PairStorage.t :=
  {| PairStorage.pairsCount := Ok 3;
     PairStorage.pairs := fun i =>
       match i with
       | 0 => Ok (sample_raw "BTC" "USD" 0)
       | 1 => Ok (sample_raw "ETH" "USD" 0)
       | 2 => Ok (sample_raw "BTC" "USD" 1)
       | _ => Err (RemoteError 404)
       end;
     PairStorage.groupOI := fun _ _ => Err (RemoteError 503);
     PairStorage.groupCollateral := fun _ _ => Err (RemoteError 503) |}.

(** [sample_ledger] with the limit reads failing. *)
Definition unlimited_ledger : PairStorage.t :=
  {| PairStorage.pairsCount := PairStorage.pairsCount sample_ledger;
     PairStorage.pairs := PairStorage.pairs sample_ledger;
     PairStorage.groupOI := PairStorage.groupOI sample_ledger;
     PairStorage.groupCollateral := fun _ _ => Err (RemoteError 503) |}.

End PairsCache.

(** ** [src/rpc/category_parameters.ts] *)

Module CategoryParametersRPC.
Import Js Types.

Definition limitsEntry (maxOI : Z) : OpenInterest :=
  {| long := fromBlockchain6 maxOI;
     short := fromBlockchain6 maxOI;
     max := fromBlockchain6 maxOI |}.

(** [getOILimits]: a group whose read fails is left out of the map. *)
Definition getOILimits (c : PairStorage.t) (this : PairsCache.t)
    : Result (gmap nat OpenInterest) * PairsCache.t :=
  let '(r, this1) := PairsCache.getGroupIndexes c this in
  (groupIndexes ← r;
   Ok (foldl (fun limits g =>
                match PairStorage.groupCollateral c g true with
                | Ok maxOI => <[g := limitsEntry maxOI]> limits
                | Err _ => limits
                end) ∅ groupIndexes),
   this1).

(** [limits.get(groupIndex)?.max || 0]. *)
Definition maxOf (limits : gmap nat OpenInterest) (g : nat) : float :=
  match limits !! g with
  | Some l => or_default (max l) 0
  | None => 0%float
  end.

(** The body of the [try] block of [getOI] for one group: [None] when the
    [catch] clause runs. *)
Definition fetchGroupOI (c : PairStorage.t) (g : nat) (this : PairsCache.t)
    : option OpenInterest * PairsCache.t :=
  match PairStorage.groupOI c g 0 with
  | Err _ => (None, this)
  | Ok groupOILong =>
      match PairStorage.groupOI c g 1 with
      | Err _ => (None, this)
      | Ok groupOIShort =>
          let '(rl, this1) := getOILimits c this in
          match rl with
          | Err _ => (None, this1)
          | Ok limits =>
              (Some {| long := fromBlockchain6 groupOILong;
                       short := fromBlockchain6 groupOIShort;
                       max := maxOf limits g |}, this1)
          end
      end
  end.

(** One round of the loop of [getOI]: the entry is stored unless the
    [catch] clause ran. *)
Definition collectGroupOI (c : PairStorage.t)
    (acc : gmap nat OpenInterest * PairsCache.t) (g : nat)
    : gmap nat OpenInterest * PairsCache.t :=
  let '(oi, th) := acc in
  let '(entry, th') := fetchGroupOI c g th in
  match entry with
  | Some e => (<[g := e]> oi, th')
  | None => (oi, th')
  end.

Definition getOI (c : PairStorage.t) (this : PairsCache.t)
    : Result (gmap nat OpenInterest) * PairsCache.t :=
  let '(r, this1) := PairsCache.getGroupIndexes c this in
  match r with
  | Err e => (Err e, this1)
  | Ok groupIndexes =>
      let '(oi, this2) := foldl (collectGroupOI c) (∅, this1) groupIndexes in
      (Ok oi, this2)
  end.

(** The two derived metrics of one entry. *)
Definition utilizationOf (oiData : OpenInterest) : Utilization :=
  {| utilizationLong :=
       if (0 <? max oiData)%float then (long oiData / max oiData * 100)%float else 0%float;
     utilizationShort :=
       if (0 <? max oiData)%float then (short oiData / max oiData * 100)%float else 0%float |}.

Definition skewOf (oiData : OpenInterest) : Skew :=
  let total := (long oiData + short oiData)%float in
  {| skew := if (0 <? total)%float then (long oiData / total)%float else 0.5%float |}.

Definition getUtilization (c : PairStorage.t) (this : PairsCache.t)
    : Result (gmap nat Utilization) * PairsCache.t :=
  let '(r, this1) := getOI c this in
  (oi ← r; Ok (fmap (M := gmap nat) utilizationOf oi), this1).

Definition getCategorySkew (c : PairStorage.t) (this : PairsCache.t)
    : Result (gmap nat Skew) * PairsCache.t :=
  let '(r, this1) := getOI c this in
  (oi ← r; Ok (fmap (M := gmap nat) skewOf oi), this1).

(** The open interest of group 0 on [PairsCache.sample_ledger]: 750 long
    and 250 short against a maximum of 2000. *)
Definition sample_entry : OpenInterest := {| long := 750; short := 250; max := 2000 |}.

Definition sample_oi : gmap nat OpenInterest :=
  match fst (getOI PairsCache.sample_ledger PairsCache.sample_cache) with
  | Ok oi => oi
  | Err _ => ∅
  end.

(** The entry [getOI] stores for a group, from the three reads it makes
    for it: none when one of the open-interest reads fails, and a maximum
    of 0 when the limit read fails. *)
Definition entryOf (c : PairStorage.t) (g : nat) : option OpenInterest :=
  match PairStorage.groupOI c g 0, PairStorage.groupOI c g 1 with
  | Ok l, Ok s =>
      Some {| long := fromBlockchain6 l;
              short := fromBlockchain6 s;
              max := match PairStorage.groupCollateral c g true with
                     | Ok m => or_default (fromBlockchain6 m) 0
                     | Err _ => 0%float
                     end |}
  | _, _ => None
  end.

(** An entry whose long side is above the maximum. *)
Definition crowded_entry : OpenInterest := {| long := 3000; short := 0; max := 2000 |}.

End CategoryParametersRPC.

(** ** [src/rpc/snapshot.ts] *)

Module SnapshotRPC.
Import Js Types.

(** An entry of the map returned by [getOnePercentDepth]. *)
Record DepthEntry := {
  above : float;
  below : float }.

(** The outcomes of the twelve reads handed to [Promise.all], in the
    order of the array. *)
Record Reads := {
  r_pairs : Result (gmap nat PairInfo);
  r_groupIndexes : Result (list nat);
  r_assetOI : Result (gmap nat OpenInterest);
  r_categoryOI : Result (gmap nat OpenInterest);
  r_assetUtilization : Result (gmap nat Utilization);
  r_categoryUtilization : Result (gmap nat Utilization);
  r_assetSkew : Result (gmap nat Skew);
  r_categorySkew : Result (gmap nat Skew);
  r_blendedUtilization : Result (gmap nat Utilization);
  r_blendedSkew : Result (gmap nat Skew);
  r_fees : Result (gmap nat Fee);
  r_depth : Result (gmap nat DepthEntry) }.

(** The destructured array once every promise has been fulfilled. *)
Record Values := {
  pairs : gmap nat PairInfo;
  groupIndexes : list nat;
  assetOI : gmap nat OpenInterest;
  categoryOI : gmap nat OpenInterest;
  assetUtilization : gmap nat Utilization;
  categoryUtilization : gmap nat Utilization;
  assetSkew : gmap nat Skew;
  categorySkew : gmap nat Skew;
  blendedUtilization : gmap nat Utilization;
  blendedSkew : gmap nat Skew;
  fees : gmap nat Fee;
  depth : gmap nat DepthEntry }.

(** [Promise.all]: fulfilled with all the values, or rejected as soon as
    one of the promises is. *)
Definition Promise_all (reads : Reads) : Result Values :=
  v1 ← r_pairs reads;
  v2 ← r_groupIndexes reads;
  v3 ← r_assetOI reads;
  v4 ← r_categoryOI reads;
  v5 ← r_assetUtilization reads;
  v6 ← r_categoryUtilization reads;
  v7 ← r_assetSkew reads;
  v8 ← r_categorySkew reads;
  v9 ← r_blendedUtilization reads;
  v10 ← r_blendedSkew reads;
  v11 ← r_fees reads;
  v12 ← r_depth reads;
  Ok {| pairs := v1; groupIndexes := v2; assetOI := v3; categoryOI := v4;
        assetUtilization := v5; categoryUtilization := v6; assetSkew := v7;
        categorySkew := v8; blendedUtilization := v9; blendedSkew := v10;
        fees := v11; depth := v12 |}.

(** [depth.get(pairIndex)?.above || 0] and its twin. *)
Definition depthOf (v : Values) (pairIndex : nat) : Depth :=
  {| onePercentDepthAboveUsdc :=
       match depth v !! pairIndex with
       | Some d => or_default (above d) 0
       | None => 0%float
       end;
     onePercentDepthBelowUsdc :=
       match depth v !! pairIndex with
       | Some d => or_default (below d) 0
       | None => 0%float
       end |}.

Definition pairDataOf (v : Values) (pairIndex : nat) (pairInfo : PairInfo) : PairData :=
  {| pd_pairInfo := pairInfo;
     pd_openInterest := assetOI v !! pairIndex;
     pd_utilization := blendedUtilization v !! pairIndex;
     pd_skew := blendedSkew v !! pairIndex;
     pd_fee := fees v !! pairIndex;
     pd_depth := Some (depthOf v pairIndex);
     pd_spread := Some (spread_min (spread pairInfo)) |}.

(** The inner loop over [pairsInGroup]. *)
Definition groupPairs (v : Values) (pairsInGroup : list nat) : gmap string PairData :=
  foldl (fun acc pairIndex =>
           match pairs v !! pairIndex with
           | None => acc
           | Some pairInfo =>
               <[PairsCache.pairName pairInfo := pairDataOf v pairIndex pairInfo]> acc
           end) ∅ pairsInGroup.

Definition groupOf (v : Values) (g : nat) (pairsInGroup : list nat) : Group :=
  {| group_groupIndex := g;
     group_pairs := groupPairs v pairsInGroup;
     group_openInterest := categoryOI v !! g;
     group_utilization := categoryUtilization v !! g;
     group_skew := categorySkew v !! g |}.

(** The key [`group_${groupIndex}`]. *)
Definition groupKey (g : nat) : string := String.append "group_" (pretty g).

(** The outer loop; each round awaits [getPairsInGroup]. *)
Fixpoint buildGroups (c : PairStorage.t) (v : Values) (gs : list nat)
    (acc : gmap string Group) (cache : PairsCache.t)
    : Result (gmap string Group) * PairsCache.t :=
  match gs with
  | [] => (Ok acc, cache)
  | g :: rest =>
      let '(r, cache1) := PairsCache.getPairsInGroup c g cache in
      match r with
      | Err e => (Err e, cache1)
      | Ok pairsInGroup =>
          buildGroups c v rest (<[groupKey g := groupOf v g pairsInGroup]> acc) cache1
      end
  end.

(** [getSnapshot], from the outcomes of the twelve reads and the pair
    cache as it is when they have settled. *)
Definition getSnapshot (c : PairStorage.t) (reads : Reads) (cache : PairsCache.t)
    : Result Snapshot * PairsCache.t :=
  match Promise_all reads with
  | Err e => (Err e, cache)
  | Ok v =>
      let '(r, cache1) := buildGroups c v (groupIndexes v) ∅ cache in
      (gs ← r; Ok {| groups := gs |}, cache1)
  end.

(** Whether every one of the twelve reads was fulfilled. *)
Definition all_fulfilled (reads : Reads) : bool :=
  is_Ok (r_pairs reads) && is_Ok (r_groupIndexes reads) && is_Ok (r_assetOI reads) &&
  is_Ok (r_categoryOI reads) && is_Ok (r_assetUtilization reads) &&
  is_Ok (r_categoryUtilization reads) && is_Ok (r_assetSkew reads) &&
  is_Ok (r_categorySkew reads) && is_Ok (r_blendedUtilization reads) &&
  is_Ok (r_blendedSkew reads) && is_Ok (r_fees reads) && is_Ok (r_depth reads).

(** The depth field of a pair of a group in the outcome of a build. *)
Definition depth_in (r : Result Snapshot) (group pair : string) : option Depth :=
  match r with
  | Ok snap => g ← groups snap !! group; pd ← group_pairs g !! pair; pd_depth pd
  | Err _ => None
  end.

(** The open interest of a group in the outcome of a build; the outer
    option tells whether the group is in the snapshot. *)
Definition group_oi_in (r : Result Snapshot) (group : string) : option (option OpenInterest) :=
  match r with
  | Ok snap => group_openInterest <$> groups snap !! group
  | Err _ => None
  end.

(** The reads of a build against [PairsCache.sample_ledger], whose group 1
    cannot be read, with asset-level aggregators that have nothing to
    report; and the same reads with the depth read rejected. *)
Definition sample_reads : Reads :=
  let c := PairsCache.sample_ledger in
  let cache := PairsCache.sample_cache in
  {| r_pairs := fst (PairsCache.getPairsInfo c false cache);
     r_groupIndexes := fst (PairsCache.getGroupIndexes c cache);
     r_assetOI := Ok ∅;
     r_categoryOI := fst (CategoryParametersRPC.getOI c cache);
     r_assetUtilization := Ok ∅;
     r_categoryUtilization := fst (CategoryParametersRPC.getUtilization c cache);
     r_assetSkew := Ok ∅;
     r_categorySkew := fst (CategoryParametersRPC.getCategorySkew c cache);
     r_blendedUtilization := Ok ∅;
     r_blendedSkew := Ok ∅;
     r_fees := Ok ∅;
     r_depth := Ok ∅ |}.

Definition sample_reads_rejected : Reads :=
  {| r_pairs := r_pairs sample_reads;
     r_groupIndexes := r_groupIndexes sample_reads;
     r_assetOI := r_assetOI sample_reads;
     r_categoryOI := r_categoryOI sample_reads;
     r_assetUtilization := r_assetUtilization sample_reads;
     r_categoryUtilization := r_categoryUtilization sample_reads;
     r_assetSkew := r_assetSkew sample_reads;
     r_categorySkew := r_categorySkew sample_reads;
     r_blendedUtilization := r_blendedUtilization sample_reads;
     r_blendedSkew := r_blendedSkew sample_reads;
     r_fees := r_fees sample_reads;
     r_depth := Err (RemoteError 503) |}.

Definition sample_snapshot : Result Snapshot :=
  fst (getSnapshot PairsCache.sample_ledger sample_reads PairsCache.sample_cache).

(** [getGroupSnapshot]: a fresh snapshot is built and the property
    [`group_${groupIndex}`] is read from it.  No such key is the name of a
    member inherited from [Object.prototype]. *)
Definition getGroupSnapshot (c : PairStorage.t) (reads : Reads) (groupIndex : nat)
    (cache : PairsCache.t) : Result (option Group) * PairsCache.t :=
  let '(r, cache1) := getSnapshot c reads cache in
  (snapshot ← r; Ok (groups snapshot !! groupKey groupIndex), cache1).

End SnapshotRPC.

(** ** [src/rpc/trade.ts] *)

Module TradeRPC.
Import Js Types.

(** What a property read on the object literal [orderTypes] can yield: one
    of its own numbers, a member inherited from [Object.prototype], or
    [undefined]. *)
Inductive JsValue :=
| VNumber (n : nat)
| VInherited (name : string)
| VUndefined.

Definition orderTypes : list (string * nat) :=
  [("market", 0); ("limit", 1); ("stop_limit", 2); ("market_zero_fee", 3)].

(** The property names every object literal inherits. *)
Definition Object_prototype : list string :=
  ["constructor"; "hasOwnProperty"; "isPrototypeOf"; "propertyIsEnumerable";
   "toLocaleString"; "toString"; "valueOf"; "__proto__";
   "__defineGetter__"; "__defineSetter__"; "__lookupGetter__"; "__lookupSetter__"].

Fixpoint own_property (o : list (string * nat)) (k : string) : option nat :=
  match o with
  | [] => None
  | (k', n) :: rest => if String.eqb k' k then Some n else own_property rest k
  end.

(** [o[k]]: own properties first, then the prototype. *)
Definition get_property (o : list (string * nat)) (k : string) : JsValue :=
  match own_property o k with
  | Some n => VNumber n
  | None => if bool_decide (k ∈ Object_prototype) then VInherited k else VUndefined
  end.

Definition truthy (v : JsValue) : bool :=
  match v with
  | VNumber 0 => false
  | VNumber _ => true
  | VInherited _ => true
  | VUndefined => false
  end.

Definition getOrderTypeValue (orderType : string) : JsValue :=
  let v := get_property orderTypes orderType in
  if truthy v then v else VNumber 0.

Record Trade := {
  trader : string;
  pairIndex : nat;
  index : nat;
  initialPosToken : nat;
  positionSizeUsdc : Z;
  openPrice : Z;
  buy : bool;
  leverage : Z;
  tp : Z;
  sl : Z }.

(** The argument array of [encodeFunctionData('openTrade', ...)]. *)
Record OpenTradeArgs := {
  arg_trade : Trade;
  arg_orderType : JsValue;
  arg_slippageP : Z;
  arg_referrer : string }.

Record TransactionRequest := {
  tx_to : string;
  tx_data : string;
  tx_value : Z }.

(** The trading contract object: its address, the execution fee read and
    the ABI encoder of [openTrade]. *)
Record TradingContract := {
  getAddress : Result string;
  getExecutionFee : Result Z;
  encodeOpenTrade : OpenTradeArgs -> Result string }.

Definition zeroAddress : string := "0x0000000000000000000000000000000000000000".

Definition getTradeExecutionFee (tc : TradingContract) : Z :=
  match getExecutionFee tc with
  | Ok fee => fee
  | Err _ => 0%Z
  end.

(** The argument array built by [buildTradeOpenTx] once the pair is
    known. *)
Definition openTradeArgs (tradeInput : TradeInput) (pairIndex : nat) : Result OpenTradeArgs :=
  size ← toBlockchain6 (ti_collateralInTrade tradeInput * ti_leverage tradeInput)%float;
  price ← toBlockchain10 (ti_openPrice tradeInput);
  lev ← toBlockchain10 (ti_leverage tradeInput);
  tp' ← toBlockchain10 (ti_tp tradeInput);
  sl' ← toBlockchain10 (ti_sl tradeInput);
  let orderType := getOrderTypeValue (ti_orderType tradeInput) in
  slippageP ← toBlockchain10 (ti_maxSlippageP tradeInput);
  Ok {| arg_trade := {| trader := ""; pairIndex := pairIndex; index := 0;
                        initialPosToken := 0; positionSizeUsdc := size;
                        openPrice := price; buy := ti_isLong tradeInput;
                        leverage := lev; tp := tp'; sl := sl' |};
        arg_orderType := orderType;
        arg_slippageP := slippageP;
        arg_referrer := if String.eqb (ti_referrer tradeInput) "" then zeroAddress
                        else ti_referrer tradeInput |}.

Definition buildTradeOpenTx (c : PairStorage.t) (tc : TradingContract)
    (tradeInput : TradeInput) (cache : PairsCache.t)
    : Result TransactionRequest * PairsCache.t :=
  let '(r, cache1) := PairsCache.getPairIndex c (ti_pair tradeInput) cache in
  (found ← r;
   match found with
   | None =>
       Err (ErrorMsg (String.append "Pair " (String.append (ti_pair tradeInput) " not found")))
   | Some pairIndex =>
       args ← openTradeArgs tradeInput pairIndex;
       let executionFee := getTradeExecutionFee tc in
       addr ← getAddress tc;
       data ← encodeOpenTrade tc args;
       Ok {| tx_to := addr; tx_data := data; tx_value := executionFee |}
   end,
   cache1).

(** The four order types the SDK knows. *)
Definition recognized : list string :=
  ["market"; "limit"; "stop_limit"; "market_zero_fee"].

Definition with_orderType (orderType : string) (ti : TradeInput) : TradeInput :=
  {| ti_pair := ti_pair ti; ti_isLong := ti_isLong ti;
     ti_collateralInTrade := ti_collateralInTrade ti; ti_leverage := ti_leverage ti;
     ti_openPrice := ti_openPrice ti; ti_tp := ti_tp ti; ti_sl := ti_sl ti;
     ti_referrer := ti_referrer ti; ti_orderType := orderType;
     ti_maxSlippageP := ti_maxSlippageP ti |}.

(** The order type handed to the encoder, when the argument array could
    be built. *)
Definition orderType_sent (r : Result OpenTradeArgs) : option JsValue :=
  match r with
  | Ok args => Some (arg_orderType args)
  | Err _ => None
  end.

(** A long position on BTC/USD with a given order type string. *)
Definition sample_input (orderType : string) : TradeInput :=
  {| ti_pair := "BTC/USD"; ti_isLong := true;
     ti_collateralInTrade := 100; ti_leverage := 10;
     ti_openPrice := 65000; ti_tp := 70000; ti_sl := 60000;
     ti_referrer := ""; ti_orderType := orderType; ti_maxSlippageP := 1 |}.

(** The numbers of a trade input that [buildTradeOpenTx] converts. *)
Definition numeric_fields (ti : TradeInput) : list float :=
  [ti_collateralInTrade ti; ti_leverage ti; ti_openPrice ti; ti_tp ti; ti_sl ti;
   ti_maxSlippageP ti].

(** The same contract object with another outcome of the fee read. *)
Definition with_executionFee (fee : Result Z) (tc : TradingContract) : TradingContract :=
  {| getAddress := getAddress tc;
     getExecutionFee := fee;
     encodeOpenTrade := encodeOpenTrade tc |}.

(** A contract object whose reads all fail, and one that answers. *)
Definition unreachable_contract : TradingContract :=
  {| getAddress := Err (RemoteError 503);
     getExecutionFee := Err (RemoteError 503);
     encodeOpenTrade := fun _ => Err TypeError |}.

Definition sample_contract (fee : Result Z) : TradingContract :=
  {| getAddress := Ok "0x44914408af82bC9983bbb330e3578E1105e11d4e";
     getExecutionFee := fee;
     encodeOpenTrade := fun _ => Ok "0x" |}.

Definition with_leverage (x : float) (ti : TradeInput) : TradeInput :=
  {| ti_pair := ti_pair ti; ti_isLong := ti_isLong ti;
     ti_collateralInTrade := ti_collateralInTrade ti; ti_leverage := x;
     ti_openPrice := ti_openPrice ti; ti_tp := ti_tp ti; ti_sl := ti_sl ti;
     ti_referrer := ti_referrer ti; ti_orderType := ti_orderType ti;
     ti_maxSlippageP := ti_maxSlippageP ti |}.

Definition with_pair (name : string) (ti : TradeInput) : TradeInput :=
  {| ti_pair := name; ti_isLong := ti_isLong ti;
     ti_collateralInTrade := ti_collateralInTrade ti; ti_leverage := ti_leverage ti;
     ti_openPrice := ti_openPrice ti; ti_tp := ti_tp ti; ti_sl := ti_sl ti;
     ti_referrer := ti_referrer ti; ti_orderType := ti_orderType ti;
     ti_maxSlippageP := ti_maxSlippageP ti |}.

End TradeRPC.

(** ** [src/rpc/snapshot.ts]: the lookup of a pair in a snapshot *)

Module PairSnapshot.
Import Js Types SnapshotRPC.

(** What the property read [group.pairs[pairName]] can yield on the
    object literal [group.pairs]: the data stored under the name, a
    member inherited from [Object.prototype], or [undefined]. *)
Inductive PairLookup :=
| Found (pairData : PairData)
| Inherited (name : string)
| NotFound.

Definition pairs_property (o : gmap string PairData) (k : string) : PairLookup :=
  match o !! k with
  | Some pairData => Found pairData
  | None => if bool_decide (k ∈ TradeRPC.Object_prototype) then Inherited k else NotFound
  end.

(** The order in which [Object.values(snapshot.groups)] lists the groups:
    that of the first assignment of each key, the keys being assigned in
    the order of [groupIndexes]. *)
Fixpoint insertion_order (keys seen : list nat) : list nat :=
  match keys with
  | [] => []
  | k :: rest =>
      if bool_decide (k ∈ seen) then insertion_order rest seen
      else k :: insertion_order rest (k :: seen)
  end.

Definition Object_values (snapshot : Snapshot) (order : list nat) : list Group :=
  omap (fun g => groups snapshot !! groupKey g) order.

(** The loop of [getPairSnapshot]: the first group in which the property
    read is truthy. *)
Fixpoint findPair (gs : list Group) (pairName : string) : PairLookup :=
  match gs with
  | [] => NotFound
  | group :: rest =>
      match pairs_property (group_pairs group) pairName with
      | NotFound => findPair rest pairName
      | found => found
      end
  end.

Definition getPairSnapshot (c : PairStorage.t) (reads : Reads) (pairName : string)
    (cache : PairsCache.t) : Result PairLookup * PairsCache.t :=
  let order := match Promise_all reads with
               | Ok v => insertion_order (groupIndexes v) []
               | Err _ => []
               end in
  let '(r, cache1) := getSnapshot c reads cache in
  (snapshot ← r; Ok (findPair (Object_values snapshot order) pairName), cache1).

(** The values of the twelve reads of [sample_reads]. *)
Definition sample_values : Values :=
  match Promise_all sample_reads with
  | Ok v => v
  | Err _ => {| pairs := ∅; groupIndexes := []; assetOI := ∅; categoryOI := ∅;
                assetUtilization := ∅; categoryUtilization := ∅; assetSkew := ∅;
                categorySkew := ∅; blendedUtilization := ∅; blendedSkew := ∅;
                fees := ∅; depth := ∅ |}
  end.

(** Whether a string contains the character [/]. *)
Fixpoint has_slash (s : string) : bool :=
  match s with
  | EmptyString => false
  | String a rest => Ascii.eqb a "/"%char || has_slash rest
  end.

End PairSnapshot.

(** ** [src/client.ts]: signing and sending *)

Module TraderClient.
Import Js Types.

(** An optional field of a transaction request: absent, [null], or a
    number ([BigNumberish] fields are taken to hold integers). *)
Inductive Field :=
| Undefined
| Null
| Num (z : Z).

(** [!f]. *)
Definition falsy (f : Field) : bool :=
  match f with
  | Num z => (z =? 0)%Z
  | _ => true
  end.

(** [f === undefined]. *)
Definition is_undefined (f : Field) : bool :=
  match f with
  | Undefined => true
  | _ => false
  end.

Record TransactionRequest := {
  tr_to : string;
  tr_data : string;
  tr_from : option string;
  tr_chainId : Field;
  tr_nonce : Field;
  tr_gasLimit : Field;
  tr_maxFeePerGas : Field;
  tr_maxPriorityFeePerGas : Field;
  tr_gasPrice : Field }.

(** The fee data of the provider; each member is a bigint or [null]. *)
Record FeeData := {
  fd_gasPrice : option Z;
  fd_maxFeePerGas : option Z;
  fd_maxPriorityFeePerGas : option Z }.

(** Truthiness of a bigint or [null]: [null] and [0n] are falsy. *)
Definition truthy_bigint (o : option Z) : bool :=
  match o with
  | Some z => negb (z =? 0)%Z
  | None => false
  end.

Definition TransactionReceipt := string.

(** The provider and the signer.  [broadcastTransaction] yields a
    response whose [wait()] has the outcome given. *)
Record Provider := {
  getNetwork : Result Z;
  getTransactionCount : string -> Result Z;
  estimateGas : TransactionRequest -> Result Z;
  getFeeData : Result FeeData;
  broadcastTransaction : string -> Result (Result (option TransactionReceipt)) }.

Record BaseSigner := {
  getAddress : Result string;
  signTransaction : TransactionRequest -> Result string }.

Definition set_from (a : string) (tx : TransactionRequest) : TransactionRequest :=
  {| tr_to := tr_to tx; tr_data := tr_data tx; tr_from := Some a;
     tr_chainId := tr_chainId tx; tr_nonce := tr_nonce tx; tr_gasLimit := tr_gasLimit tx;
     tr_maxFeePerGas := tr_maxFeePerGas tx;
     tr_maxPriorityFeePerGas := tr_maxPriorityFeePerGas tx;
     tr_gasPrice := tr_gasPrice tx |}.

Definition set_chainId (f : Field) (tx : TransactionRequest) : TransactionRequest :=
  {| tr_to := tr_to tx; tr_data := tr_data tx; tr_from := tr_from tx;
     tr_chainId := f; tr_nonce := tr_nonce tx; tr_gasLimit := tr_gasLimit tx;
     tr_maxFeePerGas := tr_maxFeePerGas tx;
     tr_maxPriorityFeePerGas := tr_maxPriorityFeePerGas tx;
     tr_gasPrice := tr_gasPrice tx |}.

Definition set_nonce (f : Field) (tx : TransactionRequest) : TransactionRequest :=
  {| tr_to := tr_to tx; tr_data := tr_data tx; tr_from := tr_from tx;
     tr_chainId := tr_chainId tx; tr_nonce := f; tr_gasLimit := tr_gasLimit tx;
     tr_maxFeePerGas := tr_maxFeePerGas tx;
     tr_maxPriorityFeePerGas := tr_maxPriorityFeePerGas tx;
     tr_gasPrice := tr_gasPrice tx |}.

Definition set_gasLimit (f : Field) (tx : TransactionRequest) : TransactionRequest :=
  {| tr_to := tr_to tx; tr_data := tr_data tx; tr_from := tr_from tx;
     tr_chainId := tr_chainId tx; tr_nonce := tr_nonce tx; tr_gasLimit := f;
     tr_maxFeePerGas := tr_maxFeePerGas tx;
     tr_maxPriorityFeePerGas := tr_maxPriorityFeePerGas tx;
     tr_gasPrice := tr_gasPrice tx |}.

Definition set_maxFeePerGas (f : Field) (tx : TransactionRequest) : TransactionRequest :=
  {| tr_to := tr_to tx; tr_data := tr_data tx; tr_from := tr_from tx;
     tr_chainId := tr_chainId tx; tr_nonce := tr_nonce tx; tr_gasLimit := tr_gasLimit tx;
     tr_maxFeePerGas := f;
     tr_maxPriorityFeePerGas := tr_maxPriorityFeePerGas tx;
     tr_gasPrice := tr_gasPrice tx |}.

Definition set_maxPriorityFeePerGas (f : Field) (tx : TransactionRequest) : TransactionRequest :=
  {| tr_to := tr_to tx; tr_data := tr_data tx; tr_from := tr_from tx;
     tr_chainId := tr_chainId tx; tr_nonce := tr_nonce tx; tr_gasLimit := tr_gasLimit tx;
     tr_maxFeePerGas := tr_maxFeePerGas tx;
     tr_maxPriorityFeePerGas := f;
     tr_gasPrice := tr_gasPrice tx |}.

Definition set_gasPrice (f : Field) (tx : TransactionRequest) : TransactionRequest :=
  {| tr_to := tr_to tx; tr_data := tr_data tx; tr_from := tr_from tx;
     tr_chainId := tr_chainId tx; tr_nonce := tr_nonce tx; tr_gasLimit := tr_gasLimit tx;
     tr_maxFeePerGas := tr_maxFeePerGas tx;
     tr_maxPriorityFeePerGas := tr_maxPriorityFeePerGas tx;
     tr_gasPrice := f |}.

(** The method works on the object it is given: a computation takes the
    transaction object as it is and returns it as it has become, together
    with a value or the exception thrown. *)
Definition Step (A : Type) : Type := TransactionRequest -> Result A * TransactionRequest.

Definition Step_bind {A B} (m : Step A) (k : A -> Step B) : Step B :=
  fun tx =>
    match m tx with
    | (Ok a, tx') => k a tx'
    | (Err e, tx') => (Err e, tx')
    end.

(** An [await] of a remote call, a read of the object, an assignment to
    it, and [if (b) { ... }]. *)
Definition await {A} (r : Result A) : Step A := fun tx => (r, tx).

Definition read : Step TransactionRequest := fun tx => (Ok tx, tx).

Definition assign (f : TransactionRequest -> TransactionRequest) : Step unit :=
  fun tx => (Ok tt, f tx).

Definition when (b : bool) (m : Step unit) : Step unit :=
  if b then m else fun tx => (Ok tt, tx).

#[global] Instance Step_mbind : MBind Step := fun A B k m => Step_bind m k.

(** The block that fills the fee fields from the fee data:
    [feeData.maxPriorityFeePerGas || feeData.maxFeePerGas] and
    [feeData.gasPrice || undefined]. *)
Definition fillFees (feeData : FeeData) : Step unit :=
  if truthy_bigint (fd_maxFeePerGas feeData) then
    assign (set_maxFeePerGas (Num (default 0%Z (fd_maxFeePerGas feeData))));;
    assign (set_maxPriorityFeePerGas
              (Num (if truthy_bigint (fd_maxPriorityFeePerGas feeData)
                    then default 0%Z (fd_maxPriorityFeePerGas feeData)
                    else default 0%Z (fd_maxFeePerGas feeData))))
  else
    assign (set_gasPrice (if truthy_bigint (fd_gasPrice feeData)
                          then Num (default 0%Z (fd_gasPrice feeData))
                          else Undefined)).

(** The part of [signAndGetReceipt] between the address read and the
    signature: "fill in missing transaction fields". *)
Definition fillTransaction (provider : Provider) (address : string) : Step unit :=
  assign (set_from address);;
  tx ← read;
  when (falsy (tr_chainId tx))
    (chainId ← await (getNetwork provider); assign (set_chainId (Num chainId)));;
  tx ← read;
  when (is_undefined (tr_nonce tx))
    (n ← await (getTransactionCount provider address); assign (set_nonce (Num n)));;
  tx ← read;
  when (falsy (tr_gasLimit tx))
    (g ← await (estimateGas provider tx); assign (set_gasLimit (Num g)));;
  tx ← read;
  when (falsy (tr_maxFeePerGas tx) && falsy (tr_gasPrice tx))
    (feeData ← await (getFeeData provider); fillFees feeData).

Definition signAndGetReceipt (provider : Provider) (signer : option BaseSigner)
    : Step (option TransactionReceipt) :=
  match signer with
  | None => await (Err (ErrorMsg "Signer not set"))
  | Some sg =>
      address ← await (getAddress sg);
      fillTransaction provider address;;
      tx ← read;
      signedTx ← await (signTransaction sg tx);
      txResponse ← await (broadcastTransaction provider signedTx);
      await txResponse
  end.

(** Whether the caller supplied every field the method would otherwise
    look up. *)
Definition complete (tx : TransactionRequest) : bool :=
  negb (falsy (tr_chainId tx)) && negb (is_undefined (tr_nonce tx)) &&
  negb (falsy (tr_gasLimit tx)) &&
  negb (falsy (tr_maxFeePerGas tx) && falsy (tr_gasPrice tx)).

(** A request with nothing but its target and data, a node that answers
    every read, and a signer. *)
Definition bare_request : TransactionRequest :=
  {| tr_to := "0x833589fCD6eDb6E08f4c7C32D4f71b54bdA02913"; tr_data := "0x";
     tr_from := None; tr_chainId := Undefined; tr_nonce := Undefined;
     tr_gasLimit := Undefined; tr_maxFeePerGas := Undefined;
     tr_maxPriorityFeePerGas := Undefined; tr_gasPrice := Undefined |}.

Definition sample_provider (nonce : Z) : Provider :=
  {| getNetwork := Ok 8453%Z;
     getTransactionCount := fun _ => Ok nonce;
     estimateGas := fun _ => Ok 21000%Z;
     getFeeData := Ok {| fd_gasPrice := Some 1000000%Z;
                         fd_maxFeePerGas := Some 2000000%Z;
                         fd_maxPriorityFeePerGas := None |};
     broadcastTransaction := fun _ => Ok (Ok (Some "receipt")) |}.

Definition sample_signer : BaseSigner :=
  {| getAddress := Ok "0x1111111111111111111111111111111111111111";
     signTransaction := fun _ => Ok "signed" |}.

End TraderClient.


(** * Properties *)

(** ** The price-feed client *)

Section FeedClientFacts.
Import Js Types FeedClient.

Lemma scheduled_emit e w :
  scheduled (emit e w) =
  scheduled w ++ match e with SetTimeout d => [d] | _ => [] end.
Proof.
  unfold scheduled, emit; simpl. rewrite omap_app. f_equal. now destruct e.
Qed.

Lemma calls_at_most_one_refl w : calls_at_most_one w w.
Proof. repeat split; auto. Qed.

Lemma forEach_frame pf n : forall k w, calls_at_most_one w (forEach pf n k w).
Proof.
  induction n as [|n IH]; intros k w; simpl.
  - repeat split; auto.
  - destruct (element (feed_id pf) k w) as [cb|]; [|apply IH].
    repeat split; simpl; eauto.
Qed.

Lemma on_message_frame parsed w : calls_at_most_one w (on_message parsed w).
Proof.
  unfold on_message.
  destruct parsed as [[| | | | |fs]|]; try apply calls_at_most_one_refl.
  destruct (get_field fs "type") as [[| | |ty| |]|]; try apply calls_at_most_one_refl.
  destruct (String.eqb ty "price_update"); try apply calls_at_most_one_refl.
  unfold handlePriceUpdate.
  destruct (PriceFeedResponseSchema_parse (JObject fs)) as [pf|];
    try apply calls_at_most_one_refl.
  destruct (Map_get (callbacks (client w)) (feed_id pf)) as [cbs|];
    try apply calls_at_most_one_refl.
  apply forEach_frame.
Qed.

Lemma callback_returns_frame w : calls_at_most_one w (callback_returns w).
Proof.
  unfold callback_returns.
  destruct (dispatching w) as [d|]; [apply forEach_frame | apply calls_at_most_one_refl].
Qed.

Lemma scheduled_frame w w' : calls_at_most_one w w' -> scheduled w' = scheduled w.
Proof.
  intros (_ & _ & _ & [He|(cb & pf & He)]); unfold scheduled; rewrite He; auto.
  rewrite omap_app. simpl. apply app_nil_r.
Qed.

Lemma on_message_spec parsed w :
  let w' := on_message parsed w in
  client w' = client w /\ sockets w' = sockets w /\ timers w' = timers w /\
  scheduled w' = scheduled w.
Proof.
  pose proof (on_message_frame parsed w) as H.
  pose proof (scheduled_frame _ _ H) as Hs.
  destruct H as (Hc & Hk & Ht & _). cbv zeta. auto.
Qed.

Lemma callback_returns_spec w :
  let w' := callback_returns w in
  client w' = client w /\ sockets w' = sockets w /\ timers w' = timers w /\
  scheduled w' = scheduled w.
Proof.
  pose proof (callback_returns_frame w) as H.
  pose proof (scheduled_frame _ _ H) as Hs.
  destruct H as (Hc & Hk & Ht & _). cbv zeta. auto.
Qed.

Lemma step_other_view ev w :
  is_open_event ev = false -> is_close_event ev = false ->
  reconnect_view (step ev w) = reconnect_view w.
Proof.
  unfold reconnect_view.
  destruct ev; simpl; try discriminate; intros _ _; try reflexivity.
  - unfold with_client, unregisterPriceFeedCallback; simpl.
    destruct (Map_get (callbacks (client w)) feedId); reflexivity.
  - unfold close. destruct (ws (client w)); reflexivity.
  - destruct (on_message_spec parsed w) as (Hc & _ & _ & Hs).
    now rewrite Hc, Hs.
  - unfold on_error. destruct (onError _); simpl; rewrite ?scheduled_emit;
      simpl; rewrite ?app_nil_r; reflexivity.
  - destruct (timers w !! i); reflexivity.
  - destruct (callback_returns_spec w) as (Hc & _ & _ & Hs).
    now rewrite Hc, Hs.
Qed.

Lemma step_close_view s w :
  let a := reconnectAttempts (client w) in
  let m := maxReconnectAttempts (client w) in
  let b := reconnectDelay (client w) in
  reconnect_view (step (WsClose s) w) =
  if m <=? a then (a, m, b, scheduled w)
  else (S a, m, b, scheduled w ++ [(b * 2 ^ N.of_nat a)%N]).
Proof.
  unfold reconnect_view; simpl. unfold on_close, attemptReconnect.
  destruct (onClose (client w)) eqn:Hoc; simpl; rewrite ?Hoc; simpl;
    destruct (maxReconnectAttempts (client w) <=? reconnectAttempts (client w));
    simpl; rewrite ?Nat.sub_0_r; unfold scheduled; simpl;
    rewrite ?omap_app; simpl; rewrite ?app_nil_r; reflexivity.
Qed.

Lemma run_backoff evs : forall w,
  forallb (fun ev => negb (is_open_event ev)) evs = true ->
  reconnectAttempts (client w) <= maxReconnectAttempts (client w) ->
  let a := reconnectAttempts (client w) in
  let m := maxReconnectAttempts (client w) in
  let n := Nat.min (closes evs) (m - a) in
  reconnect_view (run evs w) =
  (a + n, m, reconnectDelay (client w),
   scheduled w ++ backoff (reconnectDelay (client w)) a n).
Proof.
  induction evs as [|ev evs IH]; intros w Hno Hle; cbv zeta.
  - unfold reconnect_view, backoff, closes. simpl.
    now rewrite Nat.add_0_r, app_nil_r.
  - simpl in Hno. apply andb_true_iff in Hno as [Hev Hno].
    apply negb_true_iff in Hev.
    change (run (ev :: evs) w) with (run evs (step ev w)).
    specialize (IH (step ev w) Hno). cbv zeta in IH.
    destruct (is_close_event ev) eqn:Hc.
    + destruct ev; try discriminate.
      pose proof (step_close_view s w) as Hv. cbv zeta in Hv.
      remember (step (WsClose s) w) as w' eqn:Hw'. clear Hw'.
      unfold closes. rewrite filter_cons_True by reflexivity. simpl length.
      fold (closes evs).
      unfold reconnect_view in Hv.
      destruct (maxReconnectAttempts (client w) <=? reconnectAttempts (client w)) eqn:Hcap;
        injection Hv as Ha Hm Hb Hs; rewrite Ha, Hm, Hb, Hs in IH.
      * apply Nat.leb_le in Hcap. rewrite IH by lia.
        replace (maxReconnectAttempts (client w) - reconnectAttempts (client w)) with 0 by lia.
        rewrite !Nat.min_0_r. reflexivity.
      * apply Nat.leb_gt in Hcap. rewrite IH by lia.
        set (a := reconnectAttempts (client w)) in *.
        set (m := maxReconnectAttempts (client w)) in *.
        replace (m - a) with (S (m - S a)) by lia.
        rewrite <- Nat.succ_min_distr.
        unfold backoff. simpl. rewrite <- app_assoc. simpl.
        now rewrite Nat.add_succ_r.
    + pose proof (step_other_view ev w Hev Hc) as Hv.
      remember (step ev w) as w' eqn:Hw'. clear Hw'.
      unfold reconnect_view in Hv. injection Hv as Ha Hm Hb Hs.
      rewrite Ha, Hm, Hb, Hs in IH. rewrite IH by lia.
      unfold closes. rewrite filter_cons_False by (rewrite Hc; discriminate).
      reflexivity.
Qed.

(** What one event does to the sockets and to the pending timers. *)
Lemma delete_absent {A} (l : list A) i : l !! i = None -> delete i l = l.
Proof.
  intros H. apply lookup_ge_None in H.
  rewrite delete_take_drop, take_ge, drop_ge by lia. apply app_nil_r.
Qed.

Lemma step_connections ev w :
  length (sockets (step ev w)) =
    length (sockets w) +
    match ev with
    | CallListen => 1
    | TimerFired i => match timers w !! i with Some _ => 1 | None => 0 end
    | _ => 0
    end /\
  timers (step ev w) =
    match ev with
    | WsClose _ =>
        if maxReconnectAttempts (client w) <=? reconnectAttempts (client w)
        then timers w
        else timers w ++
             [(reconnectDelay (client w) * 2 ^ N.of_nat (reconnectAttempts (client w)))%N]
    | TimerFired i => delete i (timers w)
    | _ => timers w
    end.
Proof.
  destruct ev as [f cb|f cb| | |s|s parsed|s|s|i|]; cbn [step].
  - split; simpl; lia || reflexivity.
  - split; simpl; lia || reflexivity.
  - split; simpl; [rewrite length_app; simpl; lia | reflexivity].
  - unfold close. destruct (ws (client w)) as [s|]; simpl; [|split; lia || reflexivity].
    destruct (sockets w !! s); simpl; rewrite ?length_insert; split; lia || reflexivity.
  - unfold on_open, subscribeToPriceFeeds; simpl.
    destruct (0 <? length _); simpl;
      [|rewrite length_insert; split; lia || reflexivity].
    destruct (ws (client w)) as [s'|]; simpl;
      [|rewrite length_insert; split; lia || reflexivity].
    destruct (<[s:=OPEN]> (sockets w) !! s') as [[]|]; simpl; rewrite length_insert;
      split; lia || reflexivity.
  - destruct (on_message_spec parsed w) as (_ & Hs & Ht & _). rewrite Hs, Ht. split; lia || reflexivity.
  - unfold on_error. simpl. destruct (onError (client w)); simpl; rewrite length_insert;
      split; lia || reflexivity.
  - unfold on_close, attemptReconnect. simpl.
    destruct (onClose (client w)); simpl;
      destruct (maxReconnectAttempts (client w) <=? reconnectAttempts (client w));
      simpl; rewrite length_insert, ?Nat.sub_0_r; split; lia || reflexivity.
  - destruct (timers w !! i) eqn:E; simpl.
    + rewrite length_app. simpl. split; lia || reflexivity.
    + rewrite delete_absent by auto. split; lia || reflexivity.
  - destruct (callback_returns_spec w) as (_ & Hs & Ht & _). rewrite Hs, Ht. split; lia || reflexivity.
Qed.

Lemma backoff_cons b a n : backoff b a (S n) = (b * 2 ^ N.of_nat a)%N :: backoff b (S a) n.
Proof. reflexivity. Qed.

Lemma closes_cons ev evs :
  closes (ev :: evs) = (if is_close_event ev then 1 else 0) + closes evs.
Proof.
  unfold closes. destruct (is_close_event ev) eqn:E;
    [rewrite filter_cons_True by auto | rewrite filter_cons_False by (rewrite E; discriminate)];
    reflexivity.
Qed.

Lemma listens_cons ev evs :
  listens (ev :: evs) = (if is_listen_event ev then 1 else 0) + listens evs.
Proof.
  unfold listens. destruct (is_listen_event ev) eqn:E;
    [rewrite filter_cons_True by auto | rewrite filter_cons_False by (rewrite E; discriminate)];
    reflexivity.
Qed.

(** Every reconnection that was scheduled is still pending or has become
    a connection. *)
Lemma run_connections evs : forall w,
  forallb (fun ev => negb (is_open_event ev)) evs = true ->
  reconnectAttempts (client w) <= maxReconnectAttempts (client w) ->
  let a := reconnectAttempts (client w) in
  let m := maxReconnectAttempts (client w) in
  let n := Nat.min (closes evs) (m - a) in
  length (sockets (run evs w)) + length (timers (run evs w)) =
    length (sockets w) + length (timers w) + listens evs + n /\
  timers (run evs w) `sublist_of` timers w ++ backoff (reconnectDelay (client w)) a n.
Proof.
  induction evs as [|ev evs IH]; intros w Hno Hle; cbv zeta.
  - unfold closes, listens, backoff. simpl. rewrite app_nil_r. split; [lia | reflexivity].
  - simpl in Hno. apply andb_true_iff in Hno as [Hev Hno].
    apply negb_true_iff in Hev.
    change (run (ev :: evs) w) with (run evs (step ev w)).
    specialize (IH (step ev w) Hno). cbv zeta in IH.
    destruct (step_connections ev w) as [Hsock Htim].
    rewrite closes_cons, listens_cons.
    destruct (is_close_event ev) eqn:Hc.
    + destruct ev; try discriminate.
      pose proof (step_close_view s w) as Hv. cbv zeta in Hv.
      unfold reconnect_view in Hv. cbn [is_listen_event].
      remember (step (WsClose s) w) as w' eqn:Hw'. clear Hw'.
      destruct (maxReconnectAttempts (client w) <=? reconnectAttempts (client w)) eqn:Hcap;
        injection Hv as Ha Hm Hb Hs; rewrite Ha, Hm, Hb, Hsock, Htim in IH.
      * apply Nat.leb_le in Hcap. destruct IH as [IH1 IH2]; [lia|].
        replace (maxReconnectAttempts (client w) - reconnectAttempts (client w)) with 0
          in * by lia.
        rewrite Nat.min_0_r in *. split; [lia | exact IH2].
      * apply Nat.leb_gt in Hcap. destruct IH as [IH1 IH2]; [lia|].
        set (a := reconnectAttempts (client w)) in *.
        set (m := maxReconnectAttempts (client w)) in *.
        replace (m - a) with (S (m - S a)) by lia.
        change (1 + closes evs) with (S (closes evs)).
        rewrite <- Nat.succ_min_distr, backoff_cons.
        rewrite length_app in IH1. simpl in IH1. split; [lia|].
        rewrite <- app_assoc in IH2. exact IH2.
    + pose proof (step_other_view ev w Hev Hc) as Hv.
      unfold reconnect_view in Hv. injection Hv as Ha Hm Hb Hs.
      rewrite Ha, Hm, Hb, Hsock, Htim in IH. destruct IH as [IH1 IH2]; [lia|].
      cbn [Nat.add].
      destruct ev; try discriminate; cbn [is_listen_event] in *;
        try (split; [lia | exact IH2]).
      destruct (timers w !! i) eqn:E.
      * assert (Hlen : length (delete i (timers w)) = length (timers w) - 1)
          by (apply length_delete; eauto).
        assert (Hpos : i < length (timers w)) by (apply lookup_lt_is_Some; eauto).
        split; [lia|].
        etrans; [exact IH2|]. apply sublist_app; [apply sublist_delete | reflexivity].
      * rewrite delete_absent in * by auto. split; [lia | exact IH2].
Qed.

(** *** Reconnection *)

(** C8. Starting with the attempt counter at zero, in any sequence of
    events in which no connection opens, the reconnections scheduled are
    exactly the first [min N max] terms of [base * 2^(k-1)], k = 1, 2, ...,
    where [N] is the number of close events, and the counter ends at
    [min N max].  Each of them is an attempt to connect: a reconnection
    that was scheduled is either still pending or has created one new
    connection, so the sockets created and the timers pending grow by
    the calls of [listenForPriceUpdates] plus [min N max]; the timers
    pending are among those that were scheduled; and a pending timer
    that fires leaves the queue and opens a new socket, which becomes the
    socket of the client, without touching the counter or the schedule.
    Once [N] has reached the maximum a further close event schedules
    nothing and leaves no timer behind. *)
Theorem reconnect_backoff_schedule evs w :
  reconnectAttempts (client w) = 0 ->
  forallb (fun ev => negb (is_open_event ev)) evs = true ->
  let base := reconnectDelay (client w) in
  let cap := maxReconnectAttempts (client w) in
  let n := Nat.min (closes evs) cap in
  let w' := run evs w in
  scheduled w' = scheduled w ++ backoff base 0 n /\
  reconnectAttempts (client w') = n /\
  (forall k, 1 <= k <= n ->
     backoff base 0 n !! (k - 1) = Some (base * 2 ^ N.of_nat (k - 1))%N) /\
  length (sockets w') + length (timers w') =
    length (sockets w) + length (timers w) + listens evs + n /\
  timers w' `sublist_of` timers w ++ backoff base 0 n /\
  (forall i d, timers w' !! i = Some d ->
     let w'' := step (TimerFired i) w' in
     ws (client w'') = Some (length (sockets w')) /\
     sockets w'' = sockets w' ++ [CONNECTING] /\
     timers w'' = delete i (timers w') /\
     reconnect_view w'' = reconnect_view w') /\
  (forall s, cap <= closes evs ->
     reconnect_view (step (WsClose s) w') = reconnect_view w' /\
     timers (step (WsClose s) w') = timers w').
Proof.
  intros Ha Hno base cap n w'.
  pose proof (run_backoff evs w Hno) as Hv. cbv zeta in Hv.
  pose proof (run_connections evs w Hno) as Hc. cbv zeta in Hc.
  rewrite Ha, Nat.sub_0_r in Hv, Hc.
  specialize (Hv (Nat.le_0_l _)). destruct (Hc (Nat.le_0_l _)) as [Hc1 Hc2].
  fold cap base n w' in Hv, Hc1, Hc2. simpl in Hv.
  unfold reconnect_view in Hv. injection Hv as Hv1 Hv2 Hv3 Hv4.
  split; [exact Hv4|]. split; [exact Hv1|]. split; [|split; [exact Hc1|split; [exact Hc2|split]]].
  - intros k Hk. unfold backoff.
    rewrite list_lookup_fmap, lookup_seq_lt by lia. reflexivity.
  - intros i d Hi. cbv zeta. cbn [step]. rewrite Hi.
    unfold reconnect_view. repeat split; reflexivity.
  - intros s Hcap.
    pose proof (step_close_view s w') as Hcv. cbv zeta in Hcv.
    destruct (step_connections (WsClose s) w') as [_ Ht].
    rewrite Hv1, Hv2 in Hcv, Ht.
    replace (cap <=? n) with true in Hcv, Ht by (symmetry; apply Nat.leb_le; lia).
    split; [|exact Ht].
    rewrite Hcv. unfold reconnect_view. now rewrite Hv1, Hv2.
Qed.

Lemma reconnect_backoff_schedule_witness :
  reconnectAttempts (client (init false false)) = 0 /\
  forallb (fun ev => negb (is_open_event ev)) session_seven_failures = true /\
  admissible session_seven_failures (init false false) = true /\
  closes session_seven_failures = 7 /\
  listens session_seven_failures = 2 /\
  scheduled (run session_seven_failures (init false false)) =
    [1000; 2000; 4000; 8000; 16000]%N /\
  reconnectAttempts (client (run session_seven_failures (init false false))) = 5 /\
  length (sockets (run session_seven_failures (init false false))) +
  length (timers (run session_seven_failures (init false false))) = 0 + 0 + 2 + 5 /\
  timers (run session_seven_failures (init false false)) = [].
Proof.
  split; [reflexivity|]. split; [reflexivity|]. split; [reflexivity|].
  split; [reflexivity|]. split; [reflexivity|].
  pose proof (reconnect_backoff_schedule session_seven_failures (init false false)
                eq_refl eq_refl) as H.
  cbv zeta in H. destruct H as (H1 & H2 & _ & H4 & _).
  split; [exact H1|]. split; [exact H2|]. split; [exact H4 | reflexivity].
Defined.

(** The deliberate close of [session_deliberate_close] is followed by a
    scheduled reconnection: the session is one the socket library can
    produce, nothing is scheduled while the connection is open, and after
    [close()] and the close event of the socket a timer of 1000 ms is
    pending; when it fires the client connects again. *)
Lemma deliberate_close_reconnects :
  admissible (session_deliberate_close ++ [TimerFired 0]) (init false false) = true /\
  scheduled (run session_connected (init false false)) = [] /\
  scheduled (run session_deliberate_close (init false false)) = [1000%N] /\
  ws (client (run (session_deliberate_close ++ [TimerFired 0]) (init false false))) = Some 1.
Proof. repeat split; reflexivity. Qed.

(** C3, as the code has it. [close()] itself schedules nothing and clears
    the socket handle; an error event schedules nothing; but the close
    event of a socket runs [attemptReconnect] whether or not [close()] was
    called before: it schedules a reconnection after
    [reconnectDelay * 2^reconnectAttempts] and increments the counter
    whenever the counter is below the maximum, and does nothing
    otherwise. *)
Theorem close_event_reconnects_regardless w s :
  reconnect_view (step CallClose w) = reconnect_view w /\
  ws (client (step CallClose w)) = None /\
  reconnect_view (step (WsError s) w) = reconnect_view w /\
  reconnect_view (step (WsClose s) (step CallClose w)) =
    reconnect_view (step (WsClose s) w) /\
  reconnect_view (step (WsClose s) w) =
    if maxReconnectAttempts (client w) <=? reconnectAttempts (client w)
    then reconnect_view w
    else (S (reconnectAttempts (client w)), maxReconnectAttempts (client w),
          reconnectDelay (client w),
          scheduled w ++
          [(reconnectDelay (client w) * 2 ^ N.of_nat (reconnectAttempts (client w)))%N]).
Proof.
  assert (Hclose : reconnect_view (step CallClose w) = reconnect_view w)
    by (now apply step_other_view).
  repeat split.
  - exact Hclose.
  - simpl. unfold close. destruct (ws (client w)) eqn:E; simpl; auto.
  - now apply step_other_view.
  - remember (step CallClose w) as w' eqn:Hw'. clear Hw'.
    pose proof (step_close_view s w') as H1.
    pose proof (step_close_view s w) as H2. cbv zeta in H1, H2.
    unfold reconnect_view in Hclose. injection Hclose as Ha Hm Hb Hs.
    rewrite Ha, Hm, Hb, Hs in H1. now rewrite H1, H2.
  - apply step_close_view.
Qed.

(** *** Subscription on open *)

Lemma Map_get_None {V} (m : list (string * V)) k :
  Map_get m k = None <-> k ∉ Map_keys m.
Proof.
  induction m as [|[k' v] m IH]; simpl.
  - split; [intros _; apply not_elem_of_nil | reflexivity].
  - destruct (String.eqb k' k) eqn:E.
    + apply String.eqb_eq in E. subst. split; [discriminate|].
      intros H. exfalso. apply H. constructor.
    + apply String.eqb_neq in E. rewrite IH, not_elem_of_cons. intuition congruence.
Qed.

Lemma Map_keys_update {V} (f : V -> V) k (m : list (string * V)) :
  Map_keys (Map_update f k m) = Map_keys m.
Proof.
  induction m as [|[k' v] m IH]; simpl; auto.
  destruct (String.eqb k' k); simpl; auto. now f_equal.
Qed.

Lemma on_close_callbacks w : callbacks (client (on_close w)) = callbacks (client w).
Proof.
  unfold on_close, attemptReconnect.
  destruct (onClose (client w)); simpl;
    destruct (maxReconnectAttempts (client w) <=? reconnectAttempts (client w));
    reflexivity.
Qed.

Lemma on_open_client s w :
  client (on_open s w) = set_reconnectAttempts 0 (client w).
Proof.
  unfold on_open; simpl.
  destruct (0 <? length _); simpl; auto.
  unfold subscribeToPriceFeeds; simpl.
  destruct (ws (client w)) as [s'|]; simpl; auto.
  destruct (sockets w !! s') as [[]|]; reflexivity.
Qed.

Lemma step_keys ev w :
  Map_keys (callbacks (client (step ev w))) =
  match ev with
  | CallRegister f _ =>
      let keys := Map_keys (callbacks (client w)) in
      if bool_decide (f ∈ keys) then keys else keys ++ [f]
  | _ => Map_keys (callbacks (client w))
  end.
Proof.
  destruct ev; cbn [step]; try reflexivity.
  - unfold registerPriceFeedCallback; simpl. rewrite Map_keys_update.
    destruct (Map_get (callbacks (client w)) feedId) eqn:E.
    + rewrite bool_decide_eq_true_2; auto.
      destruct (decide (feedId ∈ Map_keys (callbacks (client w)))) as [|Hn]; auto.
      apply Map_get_None in Hn. congruence.
    + apply Map_get_None in E. rewrite bool_decide_eq_false_2 by auto.
      unfold Map_keys. now rewrite map_app.
  - unfold with_client, unregisterPriceFeedCallback; simpl.
    destruct (Map_get (callbacks (client w)) feedId); simpl; auto.
    apply Map_keys_update.
  - unfold close. now destruct (ws (client w)).
  - now rewrite on_open_client.
  - destruct (on_message_spec parsed w) as (Hc & _). now rewrite Hc.
  - unfold on_error; simpl. now destruct (onError (client w)).
  - now rewrite on_close_callbacks.
  - now destruct (timers w !! i).
  - destruct (callback_returns_spec w) as (Hc & _). now rewrite Hc.
Qed.

Lemma run_keys evs : forall w,
  Map_keys (callbacks (client (run evs w))) =
  registered evs (Map_keys (callbacks (client w))).
Proof.
  induction evs as [|ev evs IH]; intros w; simpl; auto.
  change (foldl (fun w' ev => step ev w') (step ev w) evs) with (run evs (step ev w)).
  rewrite IH, step_keys. now destruct ev.
Qed.

(** In [session_unregistered] the only callback of ["feed"] is removed
    before the connection opens, and the open handler still subscribes to
    ["feed"]. *)
Lemma unregistered_feed_still_subscribed :
  admissible session_unregistered (init false false) = true /\
  observers (run session_unregistered (init false false)) "feed" = [] /\
  effects (run session_unregistered (init false false)) =
    [Sent 0 (Subscribe ["feed"]); Resolved 0].
Proof. repeat split; reflexivity. Qed.

(** C7, as the code has it. When a connection opens, the attempt counter
    is reset to zero and the handler sends, on the socket [this.ws] if it
    is open, one subscribe message carrying every feed identifier that was
    ever passed to [registerPriceFeedCallback], in the order of first
    registration, whether or not callbacks are still registered for it;
    nothing is sent when no identifier was ever registered. *)
Theorem open_subscribes_registered_feeds evs s hasOnError hasOnClose :
  let w := run evs (init hasOnError hasOnClose) in
  let w' := step (WsOpen s) w in
  reconnectAttempts (client w') = 0 /\
  Map_keys (callbacks (client w)) = registered evs [] /\
  effects w' =
    effects w ++ subscription (registered evs []) (set_socket s OPEN w) ++ [Resolved s].
Proof.
  intros w w'.
  assert (Hk : Map_keys (callbacks (client w)) = registered evs [])
    by (unfold w; now rewrite run_keys).
  split; [|split; [exact Hk|]].
  - unfold w'; cbn [step]. now rewrite on_open_client.
  - unfold w'; simpl. unfold on_open; simpl. rewrite Hk.
    unfold subscription, subscribeToPriceFeeds; simpl.
    destruct (registered evs []) as [|f fs]; simpl; auto.
    destruct (ws (client w)) as [s'|]; simpl; auto.
    destruct (<[s:=OPEN]> (sockets w) !! s') as [[]|]; simpl;
      rewrite <- ?app_assoc; reflexivity.
Qed.

(** *** Inbound messages *)

Lemma PriceSchema_parse_valid v p :
  PriceSchema_parse (Some v) = Some p <-> ValidPrice v p.
Proof.
  split.
  - destruct v as [| | | | |fs]; simpl; try discriminate.
    destruct (get_field fs "price") as [[| | |a| |]|] eqn:Ha; simpl; try discriminate.
    destruct (get_field fs "conf") as [[| | |b| |]|] eqn:Hc; simpl; try discriminate.
    destruct (get_field fs "expo") as [[| |e| | |]|] eqn:He; simpl; try discriminate.
    destruct (PrimFloat.is_nan e) eqn:Hne; simpl; try discriminate.
    destruct (get_field fs "publishTime") as [[| |t| | |]|] eqn:Ht; simpl; try discriminate.
    destruct (PrimFloat.is_nan t) eqn:Hnt; simpl; try discriminate.
    intros [= <-]. now constructor.
  - intros [fs a b e t Ha Hb He Hne Ht Hnt]. simpl.
    rewrite Ha, Hb, He, Ht. simpl. rewrite Hne. simpl. now rewrite Hnt.
Qed.

Lemma PriceSchema_parse_None p : PriceSchema_parse None = Some p -> False.
Proof. discriminate. Qed.

(** The code path that dispatches is taken exactly on the messages of the
    shape the specification describes. *)
Lemma dispatch_iff_valid fs pf :
  (get_field fs "type" = Some (JString "price_update") /\
   PriceFeedResponseSchema_parse (JObject fs) = Some pf)
  <-> ValidPriceUpdate (Some (JObject fs)) pf.
Proof.
  unfold PriceFeedResponseSchema_parse.
  split.
  - intros [Hty Hp].
    destruct (get_field fs "id") as [[| | |i| |]|] eqn:Hi; try discriminate.
    destruct (get_field fs "price") as [pj|] eqn:Hpj; try discriminate.
    destruct (PriceSchema_parse (Some pj)) as [p|] eqn:Hpp; try discriminate.
    destruct (get_field fs "emaPrice") as [ej|] eqn:Hej; try discriminate.
    destruct (PriceSchema_parse (Some ej)) as [e|] eqn:Hee; try discriminate.
    injection Hp as <-.
    apply PriceSchema_parse_valid in Hpp, Hee.
    eapply valid_price_update; eauto.
  - intros H. inversion H as [fs' i pj p ej e Hty Hi Hpj Hp Hej He]; subst.
    split; auto. rewrite Hi, Hpj, Hej.
    apply PriceSchema_parse_valid in Hp, He. now rewrite Hp, He.
Qed.

Lemma ValidPriceUpdate_functional parsed pf pf' :
  ValidPriceUpdate parsed pf -> ValidPriceUpdate parsed pf' -> pf = pf'.
Proof.
  intros H H'. destruct parsed as [[| | | | |fs]|]; try (inversion H; fail).
  apply dispatch_iff_valid in H, H'. destruct H as [_ H], H' as [_ H']. congruence.
Qed.

Lemma element_observers f k w : element f k w = observers w f !! k.
Proof.
  unfold element, observers. destruct (Map_get (callbacks (client w)) f); reflexivity.
Qed.

Lemma sample_update_valid : ValidPriceUpdate (Some sample_update) sample_feed.
Proof. eapply valid_price_update; try reflexivity; now constructor. Qed.

(** C9. In [session_one_shot] callbacks 1 and 2 are registered for
    ["feed"] when a well-formed price update for ["feed"] arrives.
    Callback 1 is called first and unregisters itself before it returns:
    [splice] moves callback 2 to index 0 of the array [forEach] is
    walking, the loop goes on at index 1, finds nothing there and ends.
    Callback 2, registered before, during and after the dispatch, is
    never called for this update.  In [session_delivered], where
    callback 1 just returns, both are called. *)
Lemma self_unregistering_observer_hides_the_next :
  admissible session_one_shot (init false false) = true /\
  ValidPriceUpdate (Some sample_update) sample_feed /\
  observers (run session_listening (init false false)) "feed" = [1; 2] /\
  effects (run session_one_shot (init false false)) =
    effects (run session_listening (init false false)) ++ [Invoked 1 sample_feed] /\
  observers (run session_one_shot (init false false)) "feed" = [2] /\
  dispatching (run session_one_shot (init false false)) = None /\
  effects (run session_delivered (init false false)) =
    effects (run session_listening (init false false)) ++
    [Invoked 1 sample_feed; Invoked 2 sample_feed].
Proof.
  split; [reflexivity|]. split; [exact sample_update_valid|].
  repeat split; reflexivity.
Qed.

(** The handler of a message that is not a price update returns at
    once. *)
Lemma on_message_invalid parsed w :
  (forall pf, ~ ValidPriceUpdate parsed pf) -> on_message parsed w = w.
Proof.
  intros Hn. unfold on_message.
  destruct parsed as [[| | | | |fs]|]; auto.
  destruct (get_field fs "type") as [[| | |ty| |]|] eqn:Hty; auto.
  destruct (String.eqb ty "price_update") eqn:E; auto.
  apply String.eqb_eq in E. subst ty.
  unfold handlePriceUpdate.
  destruct (PriceFeedResponseSchema_parse (JObject fs)) as [pf|] eqn:Hp; auto.
  exfalso. apply (Hn pf). apply dispatch_iff_valid. auto.
Qed.

Lemma on_message_valid parsed pf w :
  ValidPriceUpdate parsed pf ->
  on_message parsed w =
  match Map_get (callbacks (client w)) (feed_id pf) with
  | Some cbs => forEach pf (length cbs) 0 w
  | None => w
  end.
Proof.
  intros Hv.
  destruct parsed as [[| | | | |fs]|]; try (inversion Hv; fail).
  apply dispatch_iff_valid in Hv as [Hty Hp].
  unfold on_message. rewrite Hty. simpl. unfold handlePriceUpdate. now rewrite Hp.
Qed.

Lemma forEach_visit pf n k w cb :
  element (feed_id pf) k w = Some cb ->
  forEach pf (S n) k w =
  set_dispatching (Some {| d_feed := pf; d_next := S k; d_length := k + S n |})
    (emit (Invoked cb pf) w).
Proof. simpl. now intros ->. Qed.

Lemma dispatch_begins pf w :
  dispatching w = None ->
  dispatched pf (observers w (feed_id pf)) w 0
    match Map_get (callbacks (client w)) (feed_id pf) with
    | Some cbs => forEach pf (length cbs) 0 w
    | None => w
    end.
Proof.
  intros Hidle. unfold observers.
  destruct (Map_get (callbacks (client w)) (feed_id pf)) as [[|cb l]|] eqn:E; simpl default.
  - repeat split; simpl; auto. now rewrite app_nil_r.
  - change (length (cb :: l)) with (S (length l)).
    rewrite (forEach_visit pf (length l) 0 w cb) by (unfold element; now rewrite E).
    repeat split.
  - repeat split; simpl; auto. now rewrite app_nil_r.
Qed.

Lemma dispatch_continues pf w j wj :
  dispatched pf (observers w (feed_id pf)) w j wj ->
  dispatched pf (observers w (feed_id pf)) w (S j) (callback_returns wj).
Proof.
  set (l := observers w (feed_id pf)). intros (Hc & Hs & Ht & He & Hd).
  unfold callback_returns, dispatched. rewrite Hd.
  destruct (S j <=? length l) eqn:Hj; cbn [d_feed d_next d_length].
  - apply Nat.leb_le in Hj.
    destruct (decide (S j = length l)) as [Heq|Hne].
    + rewrite <- Heq, Nat.sub_diag. cbn [forEach].
      cbn [set_dispatching client sockets timers effects dispatching].
      rewrite (proj2 (Nat.leb_gt (S (S j)) (S j))) by lia.
      rewrite He, !take_ge by lia. auto.
    + destruct (lookup_lt_is_Some_2 l (S j)) as [cb Hcb]; [lia|].
      replace (length l - S j) with (S (length l - S (S j))) by lia.
      rewrite (forEach_visit pf _ (S j) wj cb).
      2:{ rewrite element_observers. unfold observers. rewrite Hc. exact Hcb. }
      cbn [set_dispatching emit client sockets timers effects dispatching].
      rewrite (proj2 (Nat.leb_le (S (S j)) (length l))) by lia.
      rewrite He, (take_S_r l (S j) cb Hcb), map_app, app_assoc.
      repeat split; auto. do 2 f_equal. lia.
  - apply Nat.leb_gt in Hj.
    rewrite (proj2 (Nat.leb_gt (S (S j)) (length l))) by lia.
    rewrite He, !take_ge by lia. auto.
Qed.

Lemma run_returns j w :
  run (replicate (S j) CallbackReturn) w = callback_returns (run (replicate j CallbackReturn) w).
Proof. rewrite replicate_S_end. unfold run. now rewrite foldl_app. Qed.

(** X26. The handler of an inbound message changes nothing of the
    client, its sockets or its timers.  A message that is not a price
    update of the shape the schema describes, text that is not JSON
    included, leaves everything as it was: no callback is called and no
    connection is closed.  A well-formed price update is passed to the
    callbacks registered for its feed identifier, one at a time and in
    the order of registration: provided the callbacks return without
    calling the client, once [j] of them have returned the first [j + 1]
    have been called, each once, and after the last has returned the
    dispatch is over and every one of them has been called. *)
Theorem price_update_dispatch w s parsed :
  let w' := step (WsMessage s parsed) w in
  client w' = client w /\ sockets w' = sockets w /\ timers w' = timers w /\
  ((forall pf, ~ ValidPriceUpdate parsed pf) -> w' = w) /\
  (forall pf j, ValidPriceUpdate parsed pf -> dispatching w = None ->
     let l := observers w (feed_id pf) in
     let wj := run (replicate j CallbackReturn) w' in
     client wj = client w /\
     effects wj = effects w ++ map (fun cb => Invoked cb pf) (take (S j) l) /\
     dispatching wj =
       (if S j <=? length l
        then Some {| d_feed := pf; d_next := S j; d_length := length l |}
        else None) /\
     (length l <= j ->
        effects wj = effects w ++ map (fun cb => Invoked cb pf) l /\
        dispatching wj = None)).
Proof.
  cbv zeta. cbn [step].
  destruct (on_message_spec parsed w) as (Hc & Hs & Ht & _).
  split; [exact Hc|]. split; [exact Hs|]. split; [exact Ht|]. split.
  - apply on_message_invalid.
  - intros pf j Hv Hidle. rewrite (on_message_valid parsed pf w Hv).
    assert (H : dispatched pf (observers w (feed_id pf)) w j
                  (run (replicate j CallbackReturn)
                     match Map_get (callbacks (client w)) (feed_id pf) with
                     | Some cbs => forEach pf (length cbs) 0 w
                     | None => w
                     end)).
    { induction j as [|j IH]; [apply dispatch_begins; auto|].
      rewrite run_returns. now apply dispatch_continues. }
    destruct H as (H1 & _ & _ & H4 & H5).
    split; [exact H1|]. split; [exact H4|]. split; [exact H5|].
    intros Hj. rewrite H4, H5. rewrite take_ge by lia.
    rewrite (proj2 (Nat.leb_gt _ _)) by lia. auto.
Qed.

Lemma price_update_dispatch_witness :
  ValidPriceUpdate (Some sample_update) sample_feed /\
  dispatching (run session_listening (init false false)) = None /\
  effects (run (replicate 2 CallbackReturn)
             (step (WsMessage 0 (Some sample_update))
                (run session_listening (init false false)))) =
    effects (run session_listening (init false false)) ++
    map (fun cb => Invoked cb sample_feed) [1; 2] /\
  (forall pf, ~ ValidPriceUpdate (Some sample_malformed) pf) /\
  step (WsMessage 0 (Some sample_malformed)) (run session_listening (init false false)) =
    run session_listening (init false false).
Proof.
  assert (Hn : forall pf, ~ ValidPriceUpdate (Some sample_malformed) pf).
  { intros pf H. apply dispatch_iff_valid in H as [_ H]. discriminate H. }
  assert (Hidle : dispatching (run session_listening (init false false)) = None)
    by reflexivity.
  pose proof (price_update_dispatch (run session_listening (init false false)) 0
                (Some sample_update)) as Hu.
  pose proof (price_update_dispatch (run session_listening (init false false)) 0
                (Some sample_malformed)) as Hm.
  cbv zeta in Hu, Hm.
  destruct Hu as (_ & _ & _ & _ & Hu). destruct Hm as (_ & _ & _ & Hm & _).
  destruct (Hu sample_feed 2 sample_update_valid Hidle) as (_ & _ & _ & Hall).
  split; [exact sample_update_valid|]. split; [exact Hidle|].
  split; [exact (proj1 (Hall (le_n 2)))|]. split; [exact Hn | exact (Hm Hn)].
Defined.

Lemma forEach_called pf n : forall k w,
  exists new,
    effects (forEach pf n k w) = effects w ++ new /\
    forall cb pf', Invoked cb pf' ∈ new -> pf' = pf /\ cb ∈ observers w (feed_id pf).
Proof.
  induction n as [|n IH]; intros k w; simpl.
  - exists []. rewrite app_nil_r. split; auto. intros cb pf' H. now apply elem_of_nil in H.
  - destruct (element (feed_id pf) k w) as [cb|] eqn:E; [|apply IH].
    exists [Invoked cb pf]. split; auto.
    intros cb' pf' H. apply elem_of_cons in H as [H|H]; [|now apply elem_of_nil in H].
    injection H as -> ->.
    split; auto. rewrite element_observers in E. eapply list_elem_of_lookup_2; eauto.
Qed.

Ltac no_call :=
  let H := fresh in
  intros ? ? H;
  repeat (apply elem_of_cons in H as [H|H]; [discriminate H|]);
  now apply elem_of_nil in H.

(** X27. Whatever happens to a client, a callback is called only while a
    price update is dispatched: when a message arrives that is a
    well-formed price update, or when a callback returns during a
    dispatch; it is called with the update being dispatched; and it is,
    at that moment, registered for the feed of that update. *)
Theorem only_registered_observers_are_called ev w :
  exists new,
    effects (step ev w) = effects w ++ new /\
    forall cb pf, Invoked cb pf ∈ new ->
      cb ∈ observers w (feed_id pf) /\
      match ev with
      | WsMessage _ parsed => ValidPriceUpdate parsed pf
      | CallbackReturn => exists d, dispatching w = Some d /\ d_feed d = pf
      | _ => False
      end.
Proof.
  destruct ev as [f cb|f cb| | |s|s parsed|s|s|i|]; cbn [step].
  - exists []. rewrite app_nil_r. split; [reflexivity | no_call].
  - exists []. rewrite app_nil_r. split; [reflexivity | no_call].
  - exists []. rewrite app_nil_r. split; [reflexivity | no_call].
  - exists []. rewrite app_nil_r. split; [|no_call].
    unfold close. destruct (ws (client w)); reflexivity.
  - unfold on_open, subscribeToPriceFeeds; simpl.
    destruct (0 <? length _); simpl; [|exists [Resolved s]; split; [reflexivity | no_call]].
    destruct (ws (client w)) as [s'|]; simpl;
      [|exists [Resolved s]; split; [reflexivity | no_call]].
    destruct (<[s:=OPEN]> (sockets w) !! s') as [[]|]; simpl;
      try (exists [Resolved s]; split; [reflexivity | no_call]).
    eexists [_; _]. rewrite <- app_assoc. split; [reflexivity | no_call].
  - unfold on_message.
    destruct parsed as [[| | | | |fs]|];
      try (exists []; rewrite app_nil_r; split; [reflexivity | no_call]).
    destruct (get_field fs "type") as [[| | |ty| |]|] eqn:Hty;
      try (exists []; rewrite app_nil_r; split; [reflexivity | no_call]).
    destruct (String.eqb ty "price_update") eqn:E;
      [|exists []; rewrite app_nil_r; split; [reflexivity | no_call]].
    apply String.eqb_eq in E. subst ty. unfold handlePriceUpdate.
    destruct (PriceFeedResponseSchema_parse (JObject fs)) as [pf|] eqn:Hp;
      [|exists []; rewrite app_nil_r; split; [reflexivity | no_call]].
    destruct (Map_get (callbacks (client w)) (feed_id pf)) as [cbs|];
      [|exists []; rewrite app_nil_r; split; [reflexivity | no_call]].
    destruct (forEach_called pf (length cbs) 0 w) as (new & He & Hnew).
    exists new. split; [exact He|].
    intros cb pf' H. destruct (Hnew cb pf' H) as [-> Hin]. split; auto.
    apply dispatch_iff_valid. auto.
  - unfold on_error. simpl. destruct (onError (client w)); simpl.
    + eexists [_; _]. rewrite <- app_assoc. split; [reflexivity | no_call].
    + exists [Rejected s]. split; [reflexivity | no_call].
  - unfold on_close, attemptReconnect. simpl.
    destruct (onClose (client w)); simpl;
      destruct (maxReconnectAttempts (client w) <=? reconnectAttempts (client w)); simpl.
    + exists [OnCloseHook]. split; [reflexivity | no_call].
    + eexists [_; _]. rewrite <- app_assoc. split; [reflexivity | no_call].
    + exists []. rewrite app_nil_r. split; [reflexivity | no_call].
    + eexists [_]. split; [reflexivity | no_call].
  - exists []. rewrite app_nil_r. split; [|no_call].
    destruct (timers w !! i); reflexivity.
  - unfold callback_returns. destruct (dispatching w) as [d|] eqn:Hd.
    + destruct (forEach_called (d_feed d) (d_length d - d_next d) (d_next d) w)
        as (new & He & Hnew).
      exists new. split; [exact He|].
      intros cb pf' H. destruct (Hnew cb pf' H) as [-> Hin]. split; eauto.
    + exists []. rewrite app_nil_r. split; [reflexivity | no_call].
Qed.

End FeedClientFacts.

(** ** The pair cache *)

Section PairsCacheFacts.
Import Js Types PairsCache.

Lemma readPair_eq c i :
  readPair c i = (pairData ← PairStorage.pairs c i; toPairInfo pairData).
Proof. reflexivity. Qed.

Lemma fetchPairs_step c n i pairs names :
  fetchPairs c (S n) i pairs names =
  match readPair c i with
  | Ok info => fetchPairs c n (S i) (<[i := info]> pairs) (<[pairName info := i]> names)
  | Err e => Err e
  end.
Proof.
  simpl. unfold readPair.
  destruct (PairStorage.pairs c i) as [pd|e]; reflexivity.
Qed.

(** A failing round ends the loop with its error, whatever the rounds
    before it have put into the local maps. *)
Lemma fetchPairs_first_failure c k : forall n i pairs names e,
  k < n -> readPair c (i + k) = Err e ->
  (forall j, j < k -> is_Ok (readPair c (i + j)) = true) ->
  fetchPairs c n i pairs names = Err e.
Proof.
  induction k as [|k IH]; intros n i pairs names e Hk He Hok;
    destruct n as [|n]; try lia; rewrite fetchPairs_step.
  - rewrite Nat.add_0_r in He. now rewrite He.
  - pose proof (Hok 0 ltac:(lia)) as H0. rewrite Nat.add_0_r in H0.
    destruct (readPair c i) as [info|e0]; [|discriminate].
    apply IH; [lia | now rewrite Nat.add_succ_comm |].
    intros j Hj. rewrite Nat.add_succ_comm. apply Hok. lia.
Qed.

(** What a completed loop has built. *)
Lemma fetchPairs_complete c n : forall i pairs names pairs' names',
  fetchPairs c n i pairs names = Ok (pairs', names') ->
  (forall j, is_Some (pairs !! j) -> j < i) ->
  agree pairs names ->
  (forall j, j < i \/ i + n <= j -> pairs' !! j = pairs !! j) /\
  (forall j, i <= j < i + n -> exists p, readPair c j = Ok p /\ pairs' !! j = Some p) /\
  agree pairs' names'.
Proof.
  induction n as [|n IH]; intros i pairs names pairs' names' H Hdom Hag.
  - simpl in H. injection H as <- <-. repeat split; auto; try apply Hag. lia.
  - rewrite fetchPairs_step in H.
    destruct (readPair c i) as [info|e] eqn:Hr; [|discriminate].
    apply IH in H as (Hout & Hin & Ha).
    + repeat split; try apply Ha.
      * intros j Hj. rewrite Hout by lia. apply lookup_insert_ne. lia.
      * intros j Hj. destruct (decide (j = i)) as [->|Hne].
        -- exists info. split; auto. rewrite Hout by lia. apply lookup_insert_eq.
        -- apply Hin. lia.
    + intros j Hj. destruct (decide (i = j)) as [->|Hne]; [lia|].
      rewrite lookup_insert_ne in Hj by auto. apply Hdom in Hj. lia.
    + destruct Hag as [Hn Hp]. split.
      * intros name idx Hl.
        destruct (decide (pairName info = name)) as [<-|Hne].
        -- rewrite lookup_insert_eq in Hl. injection Hl as <-.
           exists info. now rewrite lookup_insert_eq.
        -- rewrite lookup_insert_ne in Hl by auto.
           destruct (Hn _ _ Hl) as (p & Hp1 & Hp2). exists p. split; auto.
           rewrite lookup_insert_ne; auto.
           intros ->. specialize (Hdom idx ltac:(eauto)). lia.
      * intros j p Hl.
        destruct (decide (pairName info = pairName p)) as [E|Hne].
        -- rewrite E, lookup_insert_eq. eauto.
        -- rewrite lookup_insert_ne by auto.
           destruct (decide (i = j)) as [->|Hij].
           ++ rewrite lookup_insert_eq in Hl. congruence.
           ++ rewrite lookup_insert_ne in Hl by auto. eauto.
Qed.

(** *** The call, one suspension at a time *)

Lemma execute_Returned c fuel r this :
  execute c fuel (Returned r) this = (Returned r, this).
Proof. now destruct fuel. Qed.

Lemma resume_keeps_object c f this :
  is_Returned (fst (resume c f this)) = false -> snd (resume c f this) = this.
Proof.
  destruct f as [|count i pairs names|r]; simpl; auto.
  - destruct (PairStorage.pairsCount c) as [count|e]; simpl; auto.
    unfold enter_loop. destruct (0 <? count); simpl; auto. discriminate.
  - destruct (PairStorage.pairs c i) as [pd|e]; simpl; auto.
    destruct (toPairInfo pd) as [info|e]; simpl; auto.
    unfold enter_loop. destruct (S i <? count); simpl; auto. discriminate.
Qed.

Lemma observable_step c fuel f this :
  is_Returned f = false ->
  observable c (S fuel) f this =
  this :: observable c fuel (fst (resume c f this)) (snd (resume c f this)).
Proof.
  intros Hf. destruct f; try discriminate; cbn [observable];
    now destruct (resume c _ this).
Qed.

Lemma observable_Returned c fuel r this : observable c fuel (Returned r) this = [].
Proof. now destruct fuel. Qed.

Lemma observable_unchanged c fuel : forall f this,
  Forall (eq this) (observable c fuel f this).
Proof.
  induction fuel as [|fuel IH]; intros f this.
  - destruct f; constructor.
  - destruct (is_Returned f) eqn:Hf.
    + destruct f; try discriminate. constructor.
    + rewrite observable_step by auto. constructor; auto.
      pose proof (resume_keeps_object c f this) as Hk.
      destruct (resume c f this) as [f' this']. simpl in *.
      destruct (is_Returned f') eqn:Hr.
      * destruct f'; try discriminate. rewrite observable_Returned. constructor.
      * rewrite Hk by auto. apply IH.
Qed.

Lemma execute_loop c n : forall count i pairs names this fuel,
  count - i = n -> n <= fuel ->
  execute c fuel (fst (enter_loop count i pairs names this))
                 (snd (enter_loop count i pairs names this)) =
  match fetchPairs c n i pairs names with
  | Ok (pairs', names') =>
      (Returned (Ok pairs'),
       {| pairsCache := Some pairs'; pairNameToIndexMap := Some names' |})
  | Err e => (Returned (Err e), this)
  end.
Proof.
  induction n as [|n IH]; intros count i pairs names this fuel Hn Hfuel.
  - unfold enter_loop. replace (i <? count) with false
      by (symmetry; apply Nat.ltb_ge; lia).
    simpl. apply execute_Returned.
  - unfold enter_loop. replace (i <? count) with true
      by (symmetry; apply Nat.ltb_lt; lia).
    destruct fuel as [|fuel]; [lia|].
    rewrite fetchPairs_step. cbn [fst snd execute resume].
    fold (readPair c i).
    destruct (readPair c i) as [info|e].
    + specialize (IH count (S i) (<[i:=info]> pairs) (<[pairName info:=i]> names)
                     this fuel ltac:(lia) ltac:(lia)).
      destruct (enter_loop count (S i) _ _ this) as [f' this']. exact IH.
    + apply execute_Returned.
Qed.

(** The method and its suspension-by-suspension run agree. *)
Lemma execute_getPairsInfo c forceRefresh this :
  exists fuel,
    execute c fuel (fst (start forceRefresh this)) (snd (start forceRefresh this)) =
    (Returned (fst (getPairsInfo c forceRefresh this)),
     snd (getPairsInfo c forceRefresh this)).
Proof.
  assert (Hfetch : exists fuel, execute c fuel AtPairsCount this =
    match (count ← PairStorage.pairsCount c; fetchPairs c count 0 ∅ ∅) with
    | Ok (pairs, names) =>
        (Returned (Ok pairs),
         {| pairsCache := Some pairs; pairNameToIndexMap := Some names |})
    | Err e => (Returned (Err e), this)
    end).
  { destruct (PairStorage.pairsCount c) as [count|e] eqn:Hc.
    - exists (S count). cbn [execute resume]. rewrite Hc.
      pose proof (execute_loop c count count 0 ∅ ∅ this count ltac:(lia) ltac:(lia)) as H.
      destruct (enter_loop count 0 ∅ ∅ this) as [f' this']. exact H.
    - exists 1. cbn [execute resume]. now rewrite Hc. }
  unfold start, getPairsInfo.
  destruct (pairsCache this) as [cache|], forceRefresh; simpl;
    try (destruct Hfetch as [fuel Hf]; exists fuel; rewrite Hf;
         destruct (_ ≫= _) as [[pairs names]|e]; reflexivity).
  exists 0. reflexivity.
Qed.

(** C1. A call of [getPairsInfo] that goes to the ledger: (1) suspension
    by suspension it ends with the result and the object the method
    returns; (2) at every suspension before the end the object is what it
    was before the call; (3) if the count read fails, or if the read of
    some pair fails after the reads before it succeeded, the call is
    rejected with that very error and the object is unchanged; (4) when
    the call is fulfilled, the cache and the name-to-index map are both
    replaced, by maps that hold every index below the count and agree
    with each other. *)
Theorem getPairsInfo_replaces_atomically c forceRefresh this :
  fetches forceRefresh this = true ->
  let r := fst (getPairsInfo c forceRefresh this) in
  let this' := snd (getPairsInfo c forceRefresh this) in
  (exists fuel, execute c fuel AtPairsCount this = (Returned r, this')) /\
  (forall fuel, Forall (eq this) (observable c fuel AtPairsCount this)) /\
  (forall e, PairStorage.pairsCount c = Err e -> r = Err e /\ this' = this) /\
  (forall count i e,
     PairStorage.pairsCount c = Ok count -> i < count -> readPair c i = Err e ->
     (forall j, j < i -> is_Ok (readPair c j) = true) ->
     r = Err e /\ this' = this) /\
  (forall pairs, r = Ok pairs ->
     exists count names,
       PairStorage.pairsCount c = Ok count /\
       this' = {| pairsCache := Some pairs; pairNameToIndexMap := Some names |} /\
       (forall i, is_Some (pairs !! i) <-> i < count) /\
       (forall i p, pairs !! i = Some p -> readPair c i = Ok p) /\
       agree pairs names).
Proof.
  intros Hf r this'.
  assert (Hstart : start forceRefresh this = (AtPairsCount, this)).
  { unfold start. unfold fetches in Hf.
    destruct (pairsCache this), forceRefresh; try discriminate; reflexivity. }
  assert (Hget : getPairsInfo c forceRefresh this =
    match (count ← PairStorage.pairsCount c; fetchPairs c count 0 ∅ ∅) with
    | Ok (pairs, names) =>
        (Ok pairs, {| pairsCache := Some pairs; pairNameToIndexMap := Some names |})
    | Err e => (Err e, this)
    end).
  { unfold getPairsInfo. unfold fetches in Hf.
    destruct (pairsCache this), forceRefresh; try discriminate; reflexivity. }
  split; [|split; [|split; [|split]]].
  - destruct (execute_getPairsInfo c forceRefresh this) as [fuel H].
    rewrite Hstart in H. exists fuel. exact H.
  - intros fuel. apply observable_unchanged.
  - intros e He. unfold r, this'. rewrite Hget, He. now split.
  - intros count i e Hc Hi He Hok. unfold r, this'. rewrite Hget, Hc. simpl.
    rewrite (fetchPairs_first_failure c i count 0 ∅ ∅ e); auto.
  - intros pairs Hr. unfold r, this' in *. rewrite Hget in *.
    destruct (PairStorage.pairsCount c) as [count|e]; [|discriminate]. simpl in *.
    destruct (fetchPairs c count 0 ∅ ∅) as [[pairs' names]|e] eqn:Hfp; [|discriminate].
    simpl in Hr. injection Hr as ->.
    apply fetchPairs_complete in Hfp as (Hout & Hin & Hag).
    + exists count, names. repeat split; auto.
      * intros [p Hp]. destruct (decide (i < count)) as [|Hge]; auto.
        rewrite Hout in Hp by lia. rewrite lookup_empty in Hp. discriminate.
      * intros Hi. destruct (Hin i ltac:(lia)) as (p & _ & Hp). eauto.
      * intros i p Hp. destruct (decide (i < count)) as [Hi|Hge].
        -- destruct (Hin i ltac:(lia)) as (q & Hq & Hq'). congruence.
        -- rewrite Hout in Hp by lia. rewrite lookup_empty in Hp. discriminate.
      * apply Hag.
      * apply Hag.
    + intros j [p Hp]. rewrite lookup_empty in Hp. discriminate.
    + split; intros *; rewrite lookup_empty; discriminate.
Qed.

Lemma getPairsInfo_replaces_atomically_witness :
  fetches true sample_cache = true /\
  getPairsInfo failing_ledger true sample_cache = (Err (RemoteError 503), sample_cache).
Proof.
  split; [vm_compute; reflexivity|].
  destruct (getPairsInfo_replaces_atomically failing_ledger true sample_cache)
    as (_ & _ & _ & H & _); [vm_compute; reflexivity|].
  destruct (H 3 1 (RemoteError 503)) as [H1 H2];
    [reflexivity | lia | reflexivity | intros [|j] Hj; [reflexivity | lia] |].
  destruct (getPairsInfo failing_ledger true sample_cache) as [r this'].
  simpl in H1, H2. now rewrite H1, H2.
Defined.

(** *** Coherence of the two maps *)

Lemma getPairsInfo_Ok c forceRefresh this pairs this' :
  coherent this ->
  getPairsInfo c forceRefresh this = (Ok pairs, this') ->
  exists names,
    pairsCache this' = Some pairs /\ pairNameToIndexMap this' = Some names /\
    agree pairs names.
Proof.
  intros Hco H. unfold getPairsInfo in H.
  assert (Hfetch :
    match (count ← PairStorage.pairsCount c; fetchPairs c count 0 ∅ ∅) with
    | Ok (pairs, names) =>
        (Ok pairs, {| pairsCache := Some pairs; pairNameToIndexMap := Some names |})
    | Err e => (Err e, this)
    end = (Ok pairs, this') ->
    exists names, pairsCache this' = Some pairs /\
      pairNameToIndexMap this' = Some names /\ agree pairs names).
  { destruct (PairStorage.pairsCount c) as [count|e]; [|discriminate]. simpl.
    destruct (fetchPairs c count 0 ∅ ∅) as [[pairs' names]|e] eqn:Hfp; [|discriminate].
    intros [= -> <-]. exists names. repeat split; auto; simpl.
    - apply fetchPairs_complete in Hfp as (_ & _ & Hag); [apply Hag| |].
      + intros j [p Hp]. rewrite lookup_empty in Hp. discriminate.
      + split; intros *; rewrite lookup_empty; discriminate.
    - apply fetchPairs_complete in Hfp as (_ & _ & Hag); [apply Hag| |].
      + intros j [p Hp]. rewrite lookup_empty in Hp. discriminate.
      + split; intros *; rewrite lookup_empty; discriminate. }
  unfold coherent in Hco.
  destruct (pairsCache this) as [cache|] eqn:Hc, forceRefresh; auto.
  injection H as <- <-. rewrite Hc.
  destruct (pairNameToIndexMap this) as [names|]; [|contradiction]. eauto.
Qed.

(** Every method leaves the object coherent. *)
Lemma coherent_preserved c this :
  coherent this ->
  coherent (clearCache this) /\
  (forall forceRefresh, coherent (snd (getPairsInfo c forceRefresh this))) /\
  (forall name, coherent (snd (getPairIndex c name this))) /\
  (forall i, coherent (snd (getPairName c i this))) /\
  (forall i, coherent (snd (getPairByIndex c i this))) /\
  coherent (snd (getGroupIndexes c this)) /\
  (forall g, coherent (snd (getPairsInGroup c g this))).
Proof.
  intros Hco.
  assert (Hget : forall forceRefresh, coherent (snd (getPairsInfo c forceRefresh this))).
  { intros fr. destruct (getPairsInfo c fr this) as [[pairs|e] this'] eqn:E.
    - destruct (getPairsInfo_Ok _ _ _ _ _ Hco E) as (names & H1 & H2 & H3).
      simpl. unfold coherent. now rewrite H1, H2.
    - simpl. unfold getPairsInfo in E.
      destruct (pairsCache this), fr; try discriminate;
        destruct (_ ≫= _) as [[? ?]|?]; try discriminate; now injection E as _ <-. }
  repeat split; auto.
  - intros name. unfold getPairIndex.
    destruct (pairNameToIndexMap this); simpl; auto.
    specialize (Hget false). destruct (getPairsInfo c false this) as [[?|?] ?]; auto.
  - intros i. unfold getPairName.
    destruct (pairsCache this) eqn:E; simpl; auto.
    specialize (Hget false). destruct (getPairsInfo c false this) as [[?|?] ?]; auto.
  - intros i. unfold getPairByIndex. specialize (Hget false).
    now destruct (getPairsInfo c false this).
  - unfold getGroupIndexes. specialize (Hget false).
    now destruct (getPairsInfo c false this).
  - intros g. unfold getPairsInGroup. specialize (Hget false).
    now destruct (getPairsInfo c false this).
Qed.

(** C5. After a fulfilled [getPairsInfo] on a coherent object, if the pair
    names of the catalog are unique, then for every cached pair [p] with
    index [i], [getPairIndex] of the name of [p] yields [i] and
    [getPairByIndex i] yields [p], without going to the ledger; and
    whenever [getPairIndex] yields an index, [getPairByIndex] of that index
    yields a pair of that name. *)
Theorem name_index_inverse c forceRefresh this pairs this' :
  coherent this ->
  getPairsInfo c forceRefresh this = (Ok pairs, this') ->
  unique_names pairs ->
  forall c',
    (forall i p, pairs !! i = Some p ->
       getPairIndex c' (pairName p) this' = (Ok (Some i), this') /\
       getPairByIndex c' i this' = (Ok (Some p), this')) /\
    (forall name i, fst (getPairIndex c' name this') = Ok (Some i) ->
       exists p, getPairByIndex c' i this' = (Ok (Some p), this') /\ pairName p = name).
Proof.
  intros Hco Hget Huniq c'.
  destruct (getPairsInfo_Ok _ _ _ _ _ Hco Hget) as (names & Hp & Hn & Hag & Hag').
  assert (Hidx : forall name, getPairIndex c' name this' = (Ok (names !! name), this')).
  { intros name. unfold getPairIndex. rewrite Hn. simpl. now rewrite Hn. }
  assert (Hby : forall i, getPairByIndex c' i this' = (Ok (pairs !! i), this')).
  { intros i. unfold getPairByIndex, getPairsInfo. now rewrite Hp. }
  split.
  - intros i p Hi. rewrite Hidx, Hby, Hi. split; auto.
    destruct (Hag' i p Hi) as [idx Hidx'].
    destruct (Hag _ _ Hidx') as (q & Hq & Hname).
    rewrite Hidx'. now rewrite (Huniq idx i q p Hq Hi Hname).
  - intros name i Hi. rewrite Hidx in Hi. simpl in Hi. injection Hi as Hi.
    destruct (Hag _ _ Hi) as (p & Hp' & Hname).
    exists p. now rewrite Hby, Hp'.
Qed.

Lemma NoDup_fmap_inj {A B} (f : A -> B) (l : list A) x y :
  NoDup (f <$> l) -> x ∈ l -> y ∈ l -> f x = f y -> x = y.
Proof.
  induction l as [|a l IH]; intros Hnd Hx Hy E; [now apply elem_of_nil in Hx|].
  rewrite fmap_cons in Hnd. apply NoDup_cons in Hnd as [Hna Hnd].
  apply elem_of_cons in Hx as [->|Hx], Hy as [->|Hy]; auto.
  - exfalso. apply Hna. rewrite E. now apply list_elem_of_fmap_2.
  - exfalso. apply Hna. rewrite <- E. now apply list_elem_of_fmap_2.
Qed.

(** Uniqueness of the names can be checked on the list of entries. *)
Lemma unique_names_NoDup (pairs : gmap nat PairInfo) :
  NoDup ((fun kv => pairName (snd kv)) <$> map_to_list pairs) -> unique_names pairs.
Proof.
  intros Hnd i j p q Hi Hj E.
  apply elem_of_map_to_list in Hi, Hj.
  assert (H : (i, p) = (j, q)) by (eapply NoDup_fmap_inj; eauto).
  congruence.
Qed.

Lemma name_index_inverse_witness :
  coherent empty /\
  getPairsInfo sample_ledger false empty =
    (Ok (default ∅ (pairsCache sample_cache)), sample_cache) /\
  unique_names (default ∅ (pairsCache sample_cache)) /\
  getPairIndex failing_ledger "ETH/USD" sample_cache = (Ok (Some 1), sample_cache) /\
  from <$> (default ∅ (pairsCache sample_cache) !! 1) = Some "ETH".
Proof.
  assert (Hco : coherent empty) by exact I.
  assert (Hget : getPairsInfo sample_ledger false empty =
                 (Ok (default ∅ (pairsCache sample_cache)), sample_cache))
    by (vm_compute; reflexivity).
  assert (Hu : unique_names (default ∅ (pairsCache sample_cache))).
  { apply unique_names_NoDup. refine (bool_decide_unpack _ _). vm_compute. exact I. }
  split; [exact Hco|]. split; [exact Hget|]. split; [exact Hu|].
  destruct (name_index_inverse sample_ledger false empty _ _ Hco Hget Hu failing_ledger)
    as [H _].
  destruct (default ∅ (pairsCache sample_cache) !! 1) as [p|] eqn:Hp;
    [|vm_compute in Hp; discriminate].
  destruct (H 1 p Hp) as [H1 _].
  assert (Hname : pairName p = "ETH/USD" /\ from p = "ETH").
  { vm_compute in Hp. injection Hp as <-. split; reflexivity. }
  destruct Hname as [Hname Hfrom]. rewrite Hname in H1.
  split; [exact H1 | simpl; now rewrite Hfrom].
Defined.

End PairsCacheFacts.

(** ** Aggregation and the snapshot *)

Section SnapshotFacts.
Import Js Types SnapshotRPC.

Example sample_snapshot_values :
  depth_in sample_snapshot "group_0" "BTC/USD" =
    Some {| onePercentDepthAboveUsdc := 0; onePercentDepthBelowUsdc := 0 |} /\
  group_oi_in sample_snapshot "group_0" =
    Some (Some {| long := 750; short := 250; max := 2000 |}) /\
  group_oi_in sample_snapshot "group_1" = Some None /\
  group_oi_in sample_snapshot "group_2" = None.
Proof. vm_compute. repeat split. Qed.

Lemma Promise_all_rejected reads :
  all_fulfilled reads = false -> exists e, Promise_all reads = Err e.
Proof.
  unfold all_fulfilled, Promise_all. destruct reads as [r1 r2 r3 r4 r5 r6 r7 r8 r9 r10 r11 r12].
  simpl.
  destruct r1; simpl; eauto. destruct r2; simpl; eauto. destruct r3; simpl; eauto.
  destruct r4; simpl; eauto. destruct r5; simpl; eauto. destruct r6; simpl; eauto.
  destruct r7; simpl; eauto. destruct r8; simpl; eauto. destruct r9; simpl; eauto.
  destruct r10; simpl; eauto. destruct r11; simpl; eauto. destruct r12; simpl; eauto.
  discriminate.
Qed.

Lemma groupKey_inj g g' : groupKey g = groupKey g' -> g = g'.
Proof.
  unfold groupKey. intros H. apply (inj (String.append "group_")) in H.
  now apply pretty_nat_inj in H.
Qed.

(** With a populated cache the loop over the groups reads nothing from
    the ledger. *)
Lemma getPairsInGroup_cached c g cache cached :
  PairsCache.pairsCache cache = Some cached ->
  PairsCache.getPairsInGroup c g cache = (Ok (PairsCache.pairsInGroupOf cached g), cache).
Proof.
  intros H. unfold PairsCache.getPairsInGroup, PairsCache.getPairsInfo. now rewrite H.
Qed.

Lemma buildGroups_cached c v cache cached gs : forall acc,
  PairsCache.pairsCache cache = Some cached ->
  exists m, buildGroups c v gs acc cache = (Ok m, cache) /\
    forall g, m !! groupKey g =
      if bool_decide (g ∈ gs)
      then Some (groupOf v g (PairsCache.pairsInGroupOf cached g))
      else acc !! groupKey g.
Proof.
  induction gs as [|g0 gs IH]; intros acc Hc; simpl.
  - exists acc. split; auto.
  - rewrite (getPairsInGroup_cached _ _ _ _ Hc).
    destruct (IH (<[groupKey g0 := groupOf v g0 (PairsCache.pairsInGroupOf cached g0)]> acc) Hc)
      as (m & Hm & Hl).
    exists m. split; auto. intros g. rewrite Hl.
    destruct (decide (g ∈ gs)) as [Hin|Hnin].
    + rewrite !bool_decide_eq_true_2; auto. now right.
    + rewrite (bool_decide_eq_false_2 (g ∈ gs)) by auto.
      destruct (decide (g = g0)) as [->|Hne].
      * rewrite bool_decide_eq_true_2 by now left. apply lookup_insert_eq.
      * rewrite bool_decide_eq_false_2.
        -- apply lookup_insert_ne. intros E. apply groupKey_inj in E. congruence.
        -- intros [?|?]%elem_of_cons; contradiction.
Qed.

(** Every entry of the pair map of a group was built from a pair of the
    catalog read by [Promise.all]. *)
Lemma groupPairs_lookup v idxs name pd :
  groupPairs v idxs !! name = Some pd ->
  exists i info, i ∈ idxs /\ pairs v !! i = Some info /\
    PairsCache.pairName info = name /\ pd = pairDataOf v i info.
Proof.
  unfold groupPairs.
  assert (H : forall acc : gmap string PairData,
    foldl (fun acc pairIndex =>
             match pairs v !! pairIndex with
             | None => acc
             | Some pairInfo =>
                 <[PairsCache.pairName pairInfo := pairDataOf v pairIndex pairInfo]> acc
             end) acc idxs !! name = Some pd ->
    acc !! name = Some pd \/
    exists i info, i ∈ idxs /\ pairs v !! i = Some info /\
      PairsCache.pairName info = name /\ pd = pairDataOf v i info).
  { induction idxs as [|i idxs IH]; intros acc Hl; simpl in Hl; auto.
    apply IH in Hl as [Hl|(j & info & Hj & ?)].
    - destruct (pairs v !! i) as [info|] eqn:Hi; auto.
      destruct (decide (PairsCache.pairName info = name)) as [E|Hne].
      + rewrite E, lookup_insert_eq in Hl. injection Hl as <-.
        right. exists i, info. repeat split; auto. now left.
      + rewrite lookup_insert_ne in Hl by auto. now left.
    - right. exists j, info. split; auto. now right. }
  intros Hl. apply H in Hl as [Hl|Hl]; auto.
  rewrite lookup_empty in Hl. discriminate.
Qed.

(** *** [getOI]: one group at a time *)

Lemma getOI_fold c gs : forall oi this oi' this',
  foldl (CategoryParametersRPC.collectGroupOI c) (oi, this) gs = (oi', this') ->
  forall g e, oi' !! g = Some e ->
    oi !! g = Some e \/
    (g ∈ gs /\ exists l s,
       PairStorage.groupOI c g 0 = Ok l /\ PairStorage.groupOI c g 1 = Ok s /\
       long e = fromBlockchain6 l /\ short e = fromBlockchain6 s).
Proof.
  induction gs as [|g0 gs IH]; intros oi this oi' this' H g e Hl; cbn [foldl] in H.
  - injection H as <- <-. now left.
  - unfold CategoryParametersRPC.collectGroupOI at 2 in H.
    destruct (CategoryParametersRPC.fetchGroupOI c g0 this) as [entry th'] eqn:Hf.
    assert (Hent : forall e0, entry = Some e0 -> exists l s,
       PairStorage.groupOI c g0 0 = Ok l /\ PairStorage.groupOI c g0 1 = Ok s /\
       long e0 = fromBlockchain6 l /\ short e0 = fromBlockchain6 s).
    { intros e0 ->. unfold CategoryParametersRPC.fetchGroupOI in Hf.
      destruct (PairStorage.groupOI c g0 0) as [l|]; [|discriminate].
      destruct (PairStorage.groupOI c g0 1) as [s0|]; [|discriminate].
      destruct (CategoryParametersRPC.getOILimits c this) as [[limits|] th''];
        [|discriminate].
      injection Hf as <- <-. exists l, s0. repeat split; auto. }
    destruct entry as [e0|].
    + eapply IH in H; [|exact Hl]. destruct H as [H|(Hin & H)].
      * destruct (decide (g = g0)) as [->|Hne].
        -- rewrite lookup_insert_eq in H. injection H as ->.
           right. split; [now left | now apply Hent].
        -- rewrite lookup_insert_ne in H by auto. now left.
      * right. split; auto. now right.
    + eapply IH in H; [|exact Hl]. destruct H as [H|(Hin & H)]; auto.
      right. split; auto. now right.
Qed.

Lemma getOI_outcome c this :
  match fst (PairsCache.getGroupIndexes c this) with
  | Err e => fst (CategoryParametersRPC.getOI c this) = Err e
  | Ok gs =>
      exists oi, fst (CategoryParametersRPC.getOI c this) = Ok oi /\
        forall g e, oi !! g = Some e ->
          g ∈ gs /\ exists l s,
            PairStorage.groupOI c g 0 = Ok l /\ PairStorage.groupOI c g 1 = Ok s /\
            long e = fromBlockchain6 l /\ short e = fromBlockchain6 s
  end.
Proof.
  unfold CategoryParametersRPC.getOI.
  destruct (PairsCache.getGroupIndexes c this) as [[gs|e] this1]; simpl; auto.
  destruct (foldl _ (∅, this1) gs) as [oi this2] eqn:Hf. simpl.
  exists oi. split; auto. intros g e Hl.
  destruct (getOI_fold _ _ _ _ _ _ Hf g e Hl) as [H|H]; auto.
  rewrite lookup_empty in H. discriminate.
Qed.

(** In the sample build every read is fulfilled and the depth aggregator
    has no entry for any pair, yet the depth field of BTC/USD is present
    in the snapshot, with both figures zero. *)
Lemma absent_depth_is_reported_as_zero :
  all_fulfilled sample_reads = true /\
  r_depth sample_reads = Ok ∅ /\
  depth_in sample_snapshot "group_0" "BTC/USD" =
    Some {| onePercentDepthAboveUsdc := 0; onePercentDepthBelowUsdc := 0 |}.
Proof. vm_compute. repeat split. Qed.

(** C2, as the code has it. (1) If any of the twelve reads handed to
    [Promise.all] is rejected, [getSnapshot] is rejected and returns no
    snapshot. (2) If all are fulfilled and the pair cache is populated,
    [getSnapshot] is fulfilled; every group index read has its group in
    the snapshot, whose open interest, utilization and skew are the
    entries of the category maps, absent when the map has no entry for the
    group; and every pair of the group carries the entries of the asset,
    blended and fee maps for its index, absent when missing, except the
    depth, which is always present and is zero where the depth map has no
    entry. (3) [getOI] is rejected only when the group indexes cannot be
    read; a group whose long or short open interest cannot be read is left
    out of its result. *)
Theorem getSnapshot_failure_semantics c reads cache :
  (all_fulfilled reads = false ->
     exists e, getSnapshot c reads cache = (Err e, cache)) /\
  (forall v cached,
     Promise_all reads = Ok v -> PairsCache.pairsCache cache = Some cached ->
     exists snap,
       getSnapshot c reads cache = (Ok snap, cache) /\
       forall g, g ∈ groupIndexes v ->
         exists grp,
           groups snap !! groupKey g = Some grp /\
           group_openInterest grp = categoryOI v !! g /\
           group_utilization grp = categoryUtilization v !! g /\
           group_skew grp = categorySkew v !! g /\
           forall name pd, group_pairs grp !! name = Some pd ->
             exists i,
               pairs v !! i = Some (pd_pairInfo pd) /\
               PairsCache.pairName (pd_pairInfo pd) = name /\
               pd_openInterest pd = assetOI v !! i /\
               pd_utilization pd = blendedUtilization v !! i /\
               pd_skew pd = blendedSkew v !! i /\
               pd_fee pd = fees v !! i /\
               pd_depth pd = Some (depthOf v i) /\
               (depth v !! i = None ->
                pd_depth pd = Some {| onePercentDepthAboveUsdc := 0;
                                      onePercentDepthBelowUsdc := 0 |})) /\
  (forall this,
     (forall e, fst (PairsCache.getGroupIndexes c this) = Err e ->
        fst (CategoryParametersRPC.getOI c this) = Err e) /\
     (forall gs, fst (PairsCache.getGroupIndexes c this) = Ok gs ->
        exists oi, fst (CategoryParametersRPC.getOI c this) = Ok oi /\
          forall g, is_Ok (PairStorage.groupOI c g 0) &&
                    is_Ok (PairStorage.groupOI c g 1) = false ->
                    oi !! g = None)).
Proof.
  split; [|split].
  - intros Hf. destruct (Promise_all_rejected reads Hf) as [e He].
    exists e. unfold getSnapshot. now rewrite He.
  - intros v cached Hv Hc. unfold getSnapshot. rewrite Hv.
    destruct (buildGroups_cached c v cache cached (groupIndexes v) ∅ Hc) as (m & Hm & Hl).
    rewrite Hm. simpl. eexists. split; [reflexivity|]. simpl.
    intros g Hg. rewrite Hl, bool_decide_eq_true_2 by auto.
    eexists. split; [reflexivity|]. simpl. repeat split; auto.
    intros name pd Hpd.
    apply groupPairs_lookup in Hpd as (i & info & _ & Hi & Hname & ->).
    exists i. simpl. repeat split; auto.
    intros Hd. unfold depthOf. now rewrite Hd.
  - intros this. pose proof (getOI_outcome c this) as H. split.
    + intros e He. now rewrite He in H.
    + intros gs Hgs. rewrite Hgs in H. destruct H as (oi & Hoi & Hl).
      exists oi. split; auto. intros g Hfail.
      destruct (oi !! g) as [e|] eqn:E; auto.
      destruct (Hl g e E) as (_ & l & s0 & Hl0 & Hl1 & _).
      rewrite Hl0, Hl1 in Hfail. discriminate.
Qed.

Lemma getSnapshot_failure_semantics_witness :
  all_fulfilled sample_reads_rejected = false /\
  (exists e, getSnapshot PairsCache.sample_ledger sample_reads_rejected
               PairsCache.sample_cache = (Err e, PairsCache.sample_cache)) /\
  fst (PairsCache.getGroupIndexes PairsCache.sample_ledger PairsCache.sample_cache) =
    Ok [0; 1] /\
  is_Ok (PairStorage.groupOI PairsCache.sample_ledger 1 0) &&
  is_Ok (PairStorage.groupOI PairsCache.sample_ledger 1 1) = false /\
  (exists oi,
     fst (CategoryParametersRPC.getOI PairsCache.sample_ledger PairsCache.sample_cache) = Ok oi /\
     oi !! 1 = None).
Proof.
  destruct (getSnapshot_failure_semantics PairsCache.sample_ledger sample_reads_rejected
              PairsCache.sample_cache) as (H1 & _ & H3).
  assert (Hgs : fst (PairsCache.getGroupIndexes PairsCache.sample_ledger
                       PairsCache.sample_cache) = Ok [0; 1])
    by (vm_compute; reflexivity).
  split; [reflexivity|]. split; [apply H1; reflexivity|].
  split; [exact Hgs|]. split; [reflexivity|].
  destruct (H3 PairsCache.sample_cache) as [_ H].
  destruct (H _ Hgs) as (oi & Hoi & Hl).
  exists oi. split; [exact Hoi | apply Hl; reflexivity].
Defined.

End SnapshotFacts.

(** ** Building the open-trade transaction *)

Section TradeFacts.
Import Js Types TradeRPC.

Lemma own_property_unrecognized orderType :
  orderType ∉ recognized -> own_property orderTypes orderType = None.
Proof.
  unfold recognized. rewrite !not_elem_of_cons. intros (H1 & H2 & H3 & H4 & _).
  unfold orderTypes. cbn [own_property].
  rewrite (proj2 (String.eqb_neq _ _)) by congruence.
  rewrite (proj2 (String.eqb_neq _ _)) by congruence.
  rewrite (proj2 (String.eqb_neq _ _)) by congruence.
  rewrite (proj2 (String.eqb_neq _ _)) by congruence.
  reflexivity.
Qed.

(** The string ["constructor"] is none of the four order types, and
    [getOrderTypeValue] does not turn it into 0: the property read finds
    the member inherited from [Object.prototype], which is truthy, so the
    encoder is handed that member instead of a number. *)
Lemma inherited_name_is_not_market :
  ("constructor" ∉ recognized) /\
  getOrderTypeValue "constructor" = VInherited "constructor" /\
  orderType_sent (openTradeArgs (sample_input "constructor") 0) =
    Some (VInherited "constructor").
Proof.
  split; [|split]; [|reflexivity|vm_compute; reflexivity].
  refine (bool_decide_unpack _ _). vm_compute. exact I.
Qed.

(** C10, as the code has it. For an order type string that is none of
    the four recognized values and not the name of a member every object
    inherits, [getOrderTypeValue] yields 0, the value of a market order:
    [buildTradeOpenTx] has exactly the outcome it has for the same input
    with order type ["market"], and whenever the argument array is built
    its order type is 0. *)
Theorem unknown_order_type_is_market c tc tradeInput cache :
  ti_orderType tradeInput ∉ recognized ->
  ti_orderType tradeInput ∉ Object_prototype ->
  getOrderTypeValue (ti_orderType tradeInput) = VNumber 0 /\
  getOrderTypeValue "market" = VNumber 0 /\
  buildTradeOpenTx c tc tradeInput cache =
    buildTradeOpenTx c tc (with_orderType "market" tradeInput) cache /\
  (forall pairIndex args,
     openTradeArgs tradeInput pairIndex = Ok args -> arg_orderType args = VNumber 0).
Proof.
  intros Hrec Hproto.
  assert (H0 : getOrderTypeValue (ti_orderType tradeInput) = VNumber 0).
  { unfold getOrderTypeValue, get_property.
    rewrite (own_property_unrecognized _ Hrec).
    now rewrite bool_decide_eq_false_2. }
  assert (Hargs : forall i, openTradeArgs tradeInput i =
                            openTradeArgs (with_orderType "market" tradeInput) i).
  { intros i. unfold openTradeArgs. simpl. now rewrite H0. }
  split; [exact H0|]. split; [reflexivity|]. split.
  - unfold buildTradeOpenTx. simpl.
    destruct (PairsCache.getPairIndex c (ti_pair tradeInput) cache) as [[[i|]|e] cache1];
      simpl; auto.
    now rewrite Hargs.
  - intros i args Ha. unfold openTradeArgs in Ha. rewrite H0 in Ha.
    destruct (toBlockchain6 _); simpl in Ha; [|discriminate].
    destruct (toBlockchain10 (ti_openPrice tradeInput)); simpl in Ha; [|discriminate].
    destruct (toBlockchain10 (ti_leverage tradeInput)); simpl in Ha; [|discriminate].
    destruct (toBlockchain10 (ti_tp tradeInput)); simpl in Ha; [|discriminate].
    destruct (toBlockchain10 (ti_sl tradeInput)); simpl in Ha; [|discriminate].
    destruct (toBlockchain10 (ti_maxSlippageP tradeInput)); simpl in Ha; [|discriminate].
    now injection Ha as <-.
Qed.

Lemma unknown_order_type_is_market_witness :
  ("twap" ∉ recognized) /\ ("twap" ∉ Object_prototype) /\
  getOrderTypeValue "twap" = VNumber 0 /\
  orderType_sent (openTradeArgs (sample_input "twap") 0) = Some (VNumber 0).
Proof.
  assert (H1 : "twap" ∉ recognized)
    by (refine (bool_decide_unpack _ _); vm_compute; exact I).
  assert (H2 : "twap" ∉ Object_prototype)
    by (refine (bool_decide_unpack _ _); vm_compute; exact I).
  split; [exact H1|]. split; [exact H2|].
  destruct (unknown_order_type_is_market PairsCache.sample_ledger
              {| getAddress := Ok "0x44914408af82bC9983bbb330e3578E1105e11d4e";
                 getExecutionFee := Err (RemoteError 503);
                 encodeOpenTrade := fun _ => Ok "0x" |}
              (sample_input "twap") PairsCache.sample_cache H1 H2) as (H & _ & _ & Ha).
  split; [exact H|].
  destruct (openTradeArgs (sample_input "twap") 0) as [args|e] eqn:E;
    [|vm_compute in E; discriminate].
  simpl. f_equal. exact (Ha 0 args E).
Defined.

End TradeFacts.

(** ** Rounding in binary64 *)

Section Binary64Facts.
Import Binary64.
Local Open Scope Z_scope.

Lemma digits2_pos_bounds p :
  2 ^ (Zpos (digits2_pos p) - 1) <= Zpos p < 2 ^ Zpos (digits2_pos p).
Proof.
  induction p as [p IH|p IH|]; simpl digits2_pos.
  - rewrite Pos2Z.inj_succ. replace (Z.succ (Zpos (digits2_pos p)) - 1) with (Z.succ (Zpos (digits2_pos p) - 1)) by lia.
    rewrite !Z.pow_succ_r by lia. lia.
  - rewrite Pos2Z.inj_succ. replace (Z.succ (Zpos (digits2_pos p)) - 1) with (Z.succ (Zpos (digits2_pos p) - 1)) by lia.
    rewrite !Z.pow_succ_r by lia. lia.
  - simpl. lia.
Qed.


Lemma shr_1_spec mrs :
  0 <= shr_m mrs ->
  shr_m (shr_1 mrs) = shr_m mrs / 2 /\
  inexact (shr_1 mrs) = inexact mrs || negb (shr_m mrs mod 2 =? 0).
Proof.
  destruct mrs as [m r s]. unfold inexact. simpl. intros Hm.
  destruct m as [|[p|p|]|p]; try lia; simpl shr_m; simpl shr_r; simpl shr_s.
  - split; [reflexivity|]. simpl. now rewrite orb_false_r.
  - split.
    + rewrite Pos2Z.inj_xI. apply Z.div_unique with 1; lia.
    + rewrite Pos2Z.inj_xI.
      replace ((2 * Zpos p + 1) mod 2) with 1 by (apply Z.mod_unique with (Zpos p); lia).
      simpl. destruct r, s; reflexivity.
  - split.
    + rewrite Pos2Z.inj_xO. apply Z.div_unique with 0; lia.
    + rewrite Pos2Z.inj_xO.
      replace ((2 * Zpos p) mod 2) with 0 by (apply Z.mod_unique with (Zpos p); lia).
      simpl. destruct r, s; reflexivity.
  - split; [reflexivity|]. simpl. destruct r, s; reflexivity.
Qed.

Lemma iter_pos_nat {A} (f : A -> A) p x :
  SpecFloat.iter_pos f p x = Nat.iter (Pos.to_nat p) f x.
Proof.
  revert x. induction p as [p IH|p IH|]; intros x; simpl SpecFloat.iter_pos.
  - rewrite !IH, Pos2Nat.inj_xI. simpl Nat.iter.
    replace (Pos.to_nat p + (Pos.to_nat p + 0))%nat with (Pos.to_nat p + Pos.to_nat p)%nat by lia.
    rewrite Nat.iter_add. rewrite <- Nat.iter_succ_r. simpl. 
    rewrite <- (Nat.iter_succ_r (Pos.to_nat p)). simpl. reflexivity.
  - rewrite !IH, Pos2Nat.inj_xO. simpl.
    replace (Pos.to_nat p + (Pos.to_nat p + 0))%nat with (Pos.to_nat p + Pos.to_nat p)%nat by lia.
    now rewrite Nat.iter_add.
  - reflexivity.
Qed.

Lemma shr_iter_spec k : forall mrs,
  0 <= shr_m mrs ->
  let mrs' := Nat.iter k shr_1 mrs in
  shr_m mrs' = shr_m mrs / 2 ^ Z.of_nat k /\
  inexact mrs' = inexact mrs || negb (shr_m mrs mod 2 ^ Z.of_nat k =? 0).
Proof.
  induction k as [|k IH]; intros mrs Hm; cbv zeta.
  - simpl. rewrite Z.div_1_r, Z.mod_1_r. simpl. now rewrite orb_false_r.
  - rewrite Nat.iter_succ_r.
    destruct (shr_1_spec mrs Hm) as [H1 H2].
    assert (H0 : 0 <= shr_m (shr_1 mrs)) by (rewrite H1; apply Z.div_pos; lia).
    destruct (IH (shr_1 mrs) H0) as [H3 H4].
    rewrite H3, H4, H1, H2.
    rewrite Nat2Z.inj_succ, Z.pow_succ_r by lia.
    assert (Hp : 0 < 2 ^ Z.of_nat k) by (apply Z.pow_pos_nonneg; lia).
    split.
    + rewrite Z.div_div by lia. reflexivity.
    + rewrite <- orb_assoc. f_equal.
      rewrite Z.rem_mul_r by lia.
      set (a := shr_m mrs mod 2). set (b := (shr_m mrs / 2) mod 2 ^ Z.of_nat k).
      assert (0 <= a < 2) by (apply Z.mod_pos_bound; lia).
      assert (0 <= b < 2 ^ Z.of_nat k) by (apply Z.mod_pos_bound; lia).
      destruct (Z.eqb_spec a 0), (Z.eqb_spec b 0), (Z.eqb_spec (a + 2 * b) 0); simpl; auto; try lia;
        nia.
Qed.

Local Open Scope R_scope.


Lemma bpow_pos e : 0 < bpow e.
Proof. apply powerRZ_lt. lra. Qed.

Lemma bpow_add a b : bpow (a + b) = bpow a * bpow b.
Proof. apply powerRZ_add. lra. Qed.

Lemma bpow_0 : bpow 0 = 1.
Proof. reflexivity. Qed.

Lemma bpow_succ a : bpow (a + 1) = 2 * bpow a.
Proof. rewrite bpow_add. unfold bpow at 2. simpl. lra. Qed.

Lemma bpow_IZR n : (0 <= n)%Z -> bpow n = IZR (2 ^ n).
Proof.
  intros Hn. pattern n. apply natlike_ind; auto.
  intros x Hx IH. unfold Z.succ. rewrite bpow_succ, IH.
  rewrite Z.pow_add_r, Z.pow_1_r by lia. rewrite mult_IZR. lra.
Qed.

Lemma bpow_ge_1 n : (0 <= n)%Z -> 1 <= bpow n.
Proof.
  intros Hn. rewrite bpow_IZR by auto. apply IZR_le.
  pose proof (Z.pow_pos_nonneg 2 n ltac:(lia) Hn). lia.
Qed.

Lemma bpow_le a b : (a <= b)%Z -> bpow a <= bpow b.
Proof.
  intros H. replace b with (a + (b - a))%Z by lia. rewrite bpow_add.
  pose proof (bpow_ge_1 (b - a) ltac:(lia)). pose proof (bpow_pos a). nra.
Qed.

Lemma bpow_lt a b : (a < b)%Z -> bpow a < bpow b.
Proof.
  intros H. apply Rlt_le_trans with (bpow (a + 1)).
  - rewrite bpow_succ. pose proof (bpow_pos a). lra.
  - apply bpow_le. lia.
Qed.

Lemma bpow_lt_inv a b : bpow a < bpow b -> (a < b)%Z.
Proof.
  intros H. destruct (Z_lt_le_dec a b) as [|Hle]; auto.
  apply bpow_le in Hle. lra.
Qed.

Lemma bpow_le_inv a b : bpow a <= bpow b -> (a <= b)%Z.
Proof.
  intros H. destruct (Z_le_gt_dec a b) as [|Hgt]; auto.
  apply Z.gt_lt, bpow_lt in Hgt. lra.
Qed.


Lemma val_shift m e n : (0 <= n)%Z -> val (m * 2 ^ n) (e - n) = val m e.
Proof.
  intros Hn. unfold val. rewrite mult_IZR, <- bpow_IZR by auto.
  rewrite Rmult_assoc, <- bpow_add. f_equal. f_equal. lia.
Qed.

Lemma digits_val p :
  bpow (Zpos (digits2_pos p) - 1) <= IZR (Zpos p) < bpow (Zpos (digits2_pos p)).
Proof.
  destruct (digits2_pos_bounds p) as [H1 H2].
  rewrite !bpow_IZR by lia. split; [apply IZR_le | apply IZR_lt]; auto.
Qed.

(** Position of the leading bit of a positive value. *)
Lemma val_digits p e :
  bpow (Zpos (digits2_pos p) + e - 1) <= val (Zpos p) e < bpow (Zpos (digits2_pos p) + e).
Proof.
  destruct (digits_val p) as [H1 H2]. unfold val.
  replace (Zpos (digits2_pos p) + e - 1)%Z with ((Zpos (digits2_pos p) - 1) + e)%Z by lia.
  rewrite !bpow_add. pose proof (bpow_pos e). split; nra.
Qed.

Lemma div_pow2_val m n :
  (0 <= m)%Z -> (0 <= n)%Z ->
  IZR (m / 2 ^ n) * bpow n <= IZR m /\
  IZR m + 1 <= (IZR (m / 2 ^ n) + 1) * bpow n /\
  ((m mod 2 ^ n =? 0)%Z = true -> IZR (m / 2 ^ n) * bpow n = IZR m) /\
  ((m mod 2 ^ n =? 0)%Z = false -> IZR (m / 2 ^ n) * bpow n < IZR m).
Proof.
  intros Hm Hn. rewrite bpow_IZR by auto.
  assert (Hp : (0 < 2 ^ n)%Z) by (apply Z.pow_pos_nonneg; lia).
  pose proof (Z.div_mod m (2 ^ n) ltac:(lia)) as Hdm.
  pose proof (Z.mod_pos_bound m (2 ^ n) Hp) as Hb.
  rewrite <- !mult_IZR, <- !plus_IZR, <- mult_IZR. repeat split.
  - apply IZR_le. nia.
  - apply IZR_le. nia.
  - intros H. apply Z.eqb_eq in H. f_equal. nia.
  - intros H. apply Z.eqb_neq in H. apply IZR_lt. nia.
Qed.

Lemma fexp64_eq x : fexp prec emax x = Z.max (x - 53) (-1074).
Proof. reflexivity. Qed.


Lemma shr_record_of_loc_spec m l :
  shr_m (shr_record_of_loc m l) = m /\
  inexact (shr_record_of_loc m l) = negb (exact_loc l).
Proof. destruct l as [|[]]; split; reflexivity. Qed.

Lemma loc_of_shr_record_exact mrs :
  exact_loc (loc_of_shr_record mrs) = negb (inexact mrs).
Proof. destruct mrs as [m [] []]; reflexivity. Qed.

Lemma shr_located v mrs e n :
  (0 <= shr_m mrs)%Z ->
  located v (shr_m mrs) e (inexact mrs) ->
  located v (shr_m (fst (shr mrs e n))) (snd (shr mrs e n)) (inexact (fst (shr mrs e n))) /\
  (0 <= shr_m (fst (shr mrs e n)))%Z /\
  (snd (shr mrs e n) = Z.max e (e + n)) /\
  ((0 < n)%Z -> shr_m (fst (shr mrs e n)) = (shr_m mrs / 2 ^ n)%Z) /\
  ((n <= 0)%Z -> shr_m (fst (shr mrs e n)) = shr_m mrs).
Proof.
  intros Hm (Hlo & Hhi & Hex & Hin).
  destruct n as [|p|p]; simpl shr; simpl fst; simpl snd.
  - repeat split; auto; try lia.
  - rewrite iter_pos_nat.
    destruct (shr_iter_spec (Pos.to_nat p) mrs Hm) as [H1 H2].
    rewrite positive_nat_Z in H1, H2. rewrite H1, H2.
    destruct (div_pow2_val (shr_m mrs) (Zpos p) Hm ltac:(lia)) as (Hd1 & Hd2 & Hd3 & Hd4).
    pose proof (bpow_pos e) as Hpe.
    assert (Hq : (0 <= shr_m mrs / 2 ^ Zpos p)%Z) by (apply Z.div_pos; lia).
    unfold located, val in *. rewrite plus_IZR in *. rewrite !bpow_add.
    assert (Hle : IZR (shr_m mrs / 2 ^ Z.pos p) * (bpow e * bpow (Z.pos p)) <=
                  IZR (shr_m mrs) * bpow e).
    { rewrite (Rmult_comm (bpow e)), <- Rmult_assoc. apply Rmult_le_compat_r; lra. }
    repeat split; auto; try lia.
    + lra.
    + apply Rlt_le_trans with ((IZR (shr_m mrs) + 1) * bpow e); auto.
      rewrite (Rmult_comm (bpow e)), <- Rmult_assoc.
      apply Rmult_le_compat_r; lra.
    + intros Hix. apply orb_false_iff in Hix as [Hix Hmod].
      apply negb_false_iff in Hmod.
      rewrite (Hex Hix), <- (Hd3 Hmod). ring.
    + intros Hix. apply orb_true_iff in Hix as [Hix|Hmod].
      * specialize (Hin Hix). lra.
      * apply negb_true_iff in Hmod. specialize (Hd4 Hmod).
        apply Rlt_le_trans with (IZR (shr_m mrs) * bpow e); auto.
        rewrite (Rmult_comm (bpow e)), <- Rmult_assoc.
        apply Rmult_lt_compat_r; lra.
  - repeat split; auto; try lia.
Qed.

Lemma shr_fexp_located v m e l :
  (0 <= m)%Z ->
  located v m e (negb (exact_loc l)) ->
  let r := shr_fexp prec emax m e l in
  let e' := fexp prec emax (Zdigits2 m + e) in
  located v (shr_m (fst r)) (snd r) (inexact (fst r)) /\
  (0 <= shr_m (fst r))%Z /\
  snd r = Z.max e e' /\
  ((e < e')%Z -> shr_m (fst r) = (m / 2 ^ (e' - e))%Z) /\
  ((e' <= e)%Z -> shr_m (fst r) = m).
Proof.
  intros Hm Hl r e'. unfold r, shr_fexp.
  destruct (shr_record_of_loc_spec m l) as [H1 H2].
  pose proof (shr_located v (shr_record_of_loc m l) e (e' - e)) as H.
  rewrite H1, H2 in H. specialize (H Hm Hl).
  destruct H as (Ha & Hb & Hc & Hd & He). fold e'.
  repeat split; auto; try apply Ha.
  - rewrite Hc. lia.
  - intros Hlt. apply Hd. lia.
  - intros Hle. apply He. lia.
Qed.

Lemma round_nearest_even_spec m l :
  (m <= round_nearest_even m l <= m + 1)%Z /\
  (exact_loc l = true -> round_nearest_even m l = m).
Proof.
  destruct l as [|[]]; simpl; try (split; [lia|auto]; fail).
  - destruct (Z.even m); split; try lia; discriminate.
  - split; [lia|discriminate].
Qed.

Lemma val_nonneg m e : (0 <= m)%Z -> 0 <= val m e.
Proof.
  intros H. unfold val. apply Rmult_le_pos; [now apply IZR_le | apply Rlt_le, bpow_pos].
Qed.

Lemma val_le_mono m m' e : (m <= m')%Z -> val m e <= val m' e.
Proof.
  intros H. unfold val. apply Rmult_le_compat_r; [apply Rlt_le, bpow_pos | now apply IZR_le].
Qed.

Lemma fexp_le_one m e :
  (0 <= m)%Z -> (e <= 0)%Z -> val m e <= 1 ->
  (fexp prec emax (Zdigits2 m + e) <= 0)%Z.
Proof.
  intros Hm He Hv. rewrite fexp64_eq.
  destruct m as [|p|p]; simpl Zdigits2; try lia.
  destruct (val_digits p e) as [H1 _].
  assert (H : bpow (Zpos (digits2_pos p) + e - 1) <= bpow 0) by (rewrite bpow_0; lra).
  apply bpow_le_inv in H. lia.
Qed.

Lemma val_succ_le_one m e :
  (0 <= m)%Z -> (e <= 0)%Z -> val m e < 1 -> val (m + 1) e <= 1.
Proof.
  intros Hm He Hv. unfold val in *.
  assert (Hb : bpow (- e) * bpow e = 1) by (rewrite <- bpow_add, <- bpow_0; f_equal; lia).
  pose proof (bpow_pos e) as Hpe. pose proof (bpow_pos (- e)) as Hpn.
  assert (Hlt : IZR m < bpow (- e)) by nra.
  rewrite bpow_IZR in Hlt by lia. apply lt_IZR in Hlt.
  assert (Hle : IZR (m + 1) <= bpow (- e)).
  { rewrite bpow_IZR by lia. apply IZR_le. lia. }
  nra.
Qed.

(** Rounding a value that is at most one yields at most one. *)
Lemma binary_round_aux_le_one v m e l :
  (0 <= m)%Z -> (e <= 0)%Z ->
  located v m e (negb (exact_loc l)) -> v <= 1 ->
  binary_round_aux prec emax false m e l = S754_zero false \/
  exists p e3,
    binary_round_aux prec emax false m e l = S754_finite false p e3 /\
    val (Zpos p) e3 <= 1.
Proof.
  intros Hm He Hloc Hv. unfold binary_round_aux.
  pose proof (shr_fexp_located v m e l Hm Hloc) as H1. cbv zeta in H1.
  destruct (shr_fexp prec emax m e l) as [mrs1 e1]. simpl fst in H1; simpl snd in H1.
  destruct H1 as ((Hlo & Hhi & Hex & Hin) & Hm1 & He1 & _ & _).
  assert (He1' : (e1 <= 0)%Z).
  { assert (Hvm : val m e <= 1) by (destruct Hloc as (? & _); lra).
    pose proof (fexp_le_one m e Hm He Hvm) as Hf. lia. }
  set (m2 := round_nearest_even (shr_m mrs1) (loc_of_shr_record mrs1)).
  destruct (round_nearest_even_spec (shr_m mrs1) (loc_of_shr_record mrs1)) as [Hr1 Hr2].
  fold m2 in Hr1, Hr2.
  assert (Hm2 : (0 <= m2)%Z) by lia.
  assert (Hv2 : val m2 e1 <= 1).
  { rewrite loc_of_shr_record_exact in Hr2.
    destruct (inexact mrs1) eqn:Hix.
    - apply Rle_trans with (val (shr_m mrs1 + 1) e1); [apply val_le_mono; lia|].
      apply val_succ_le_one; auto. specialize (Hin eq_refl). lra.
    - rewrite Hr2 by reflexivity. lra. }
  assert (Hloc2 : located (val m2 e1) m2 e1 (negb (exact_loc loc_Exact))).
  { simpl. repeat split; auto; try lra; try discriminate.
    unfold val. rewrite plus_IZR. pose proof (bpow_pos e1). nra. }
  pose proof (shr_fexp_located (val m2 e1) m2 e1 loc_Exact Hm2 Hloc2) as H3. cbv zeta in H3.
  destruct (shr_fexp prec emax m2 e1 loc_Exact) as [mrs3 e3]. simpl fst in H3; simpl snd in H3.
  destruct H3 as ((Hlo3 & _) & Hm3 & He3 & _ & _).
  assert (He3' : (e3 <= 0)%Z).
  { pose proof (fexp_le_one m2 e1 Hm2 He1' Hv2). lia. }
  destruct (shr_m mrs3) as [|p|p] eqn:Hp; try lia; auto.
  right. exists p, e3. split; [|lra].
  replace (e3 <=? emax - prec)%Z with true; auto.
  symmetry. apply Z.leb_le. unfold emax, prec. lia.
Qed.


Lemma val_pos_inv m e : 0 < val m e -> (0 < m)%Z.
Proof.
  unfold val. intros H. pose proof (bpow_pos e).
  destruct (Z_lt_le_dec 0 m) as [|Hle]; auto.
  apply IZR_le in Hle. nra.
Qed.

Lemma val_Zpos p e : 0 < val (Zpos p) e.
Proof.
  unfold val. apply Rmult_lt_0_compat; [apply IZR_lt; lia | apply bpow_pos].
Qed.

(** Ordered positive values have ordered leading-bit positions. *)
Lemma digits_mono pa ea p e :
  val (Zpos pa) ea <= val (Zpos p) e ->
  (Zpos (digits2_pos pa) + ea <= Zpos (digits2_pos p) + e)%Z.
Proof.
  intros H. destruct (val_digits pa ea) as [H1 _]. destruct (val_digits p e) as [_ H2].
  assert (Hlt : bpow (Zpos (digits2_pos pa) + ea - 1) < bpow (Zpos (digits2_pos p) + e)) by lra.
  apply bpow_lt_inv in Hlt. lia.
Qed.

(** Truncating to the grid of its own magnitude never takes a value
    below a representable number it dominates. *)
Lemma trunc_ge ma ea m e :
  canonical64 ma ea -> (0 < m)%Z -> val (Zpos ma) ea <= val m e ->
  let r := shr_fexp prec emax m e loc_Exact in
  val (Zpos ma) ea <= val (shr_m (fst r)) (snd r).
Proof.
  intros Hca Hm Hle r.
  assert (Hloc : located (val m e) m e (negb (exact_loc loc_Exact))).
  { simpl. repeat split; auto; try lra; try discriminate.
    unfold val. rewrite plus_IZR. pose proof (bpow_pos e). nra. }
  pose proof (shr_fexp_located (val m e) m e loc_Exact ltac:(lia) Hloc) as H. cbv zeta in H.
  fold r in H. destruct H as (_ & _ & Hs & Hdiv & Hid).
  destruct m as [|p|p]; try lia. simpl Zdigits2 in *.
  pose proof (digits_mono _ _ _ _ Hle) as Hd.
  unfold canonical64 in Hca. rewrite fexp64_eq in *.
  set (d := Zpos (digits2_pos p)) in *. set (da := Zpos (digits2_pos ma)) in *.
  destruct (Z_lt_le_dec e (Z.max (d + e - 53) (-1074))) as [Hlt|Hge].
  - rewrite Hs, (Hdiv Hlt).
    set (e' := Z.max (d + e - 53) (-1074)) in *.
    replace (Z.max e e') with e' by lia.
    assert (Hn : (0 < e' - e)%Z) by lia.
    assert (Hp2 : (0 < 2 ^ (e' - e))%Z) by (apply Z.pow_pos_nonneg; lia).
    destruct (Z.eq_dec ea e') as [Heq|Hne].
    + rewrite Heq in Hle |- *.
      apply val_le_mono. apply Z.div_le_lower_bound; auto.
      apply le_IZR. rewrite mult_IZR, <- bpow_IZR by lia.
      unfold val in Hle.
      replace e' with (e + (e' - e))%Z in Hle at 1 by lia.
      rewrite bpow_add in Hle. pose proof (bpow_pos e). pose proof (bpow_pos (e' - e)).
      nra.
    + assert (He' : e' = (d + e - 53)%Z) by lia.
      assert (Hda : (da + ea <= d + e - 1)%Z) by lia.
      destruct (val_digits ma ea) as [_ Ha]. fold da in Ha.
      apply Rle_trans with (bpow (d + e - 1)).
      * apply Rle_trans with (bpow (da + ea)); [lra | now apply bpow_le].
      * replace (d + e - 1)%Z with (52 + e')%Z by lia.
        rewrite bpow_add. unfold val. apply Rmult_le_compat_r; [apply Rlt_le, bpow_pos|].
        rewrite bpow_IZR by lia. apply IZR_le.
        apply Z.div_le_lower_bound; auto.
        destruct (digits2_pos_bounds p) as [Hb _]. fold d in Hb.
        replace (d - 1)%Z with (52 + (e' - e))%Z in Hb by lia.
        rewrite Z.pow_add_r in Hb by lia. lia.
  - rewrite Hs, (Hid Hge). replace (Z.max e (Z.max (d + e - 53) (-1074))) with e by lia.
    exact Hle.
Qed.

(** Rounding an exact positive value never yields less than a
    representable number it dominates. *)
Lemma binary_round_aux_ge ma ea m e :
  canonical64 ma ea -> (0 < m)%Z -> val (Zpos ma) ea <= val m e ->
  binary_round_aux prec emax false m e loc_Exact = S754_infinity false \/
  exists p e3,
    binary_round_aux prec emax false m e loc_Exact = S754_finite false p e3 /\
    val (Zpos ma) ea <= val (Zpos p) e3.
Proof.
  intros Hca Hm Hle. unfold binary_round_aux.
  pose proof (trunc_ge ma ea m e Hca Hm Hle) as H1. cbv zeta in H1.
  destruct (shr_fexp prec emax m e loc_Exact) as [mrs1 e1]. simpl fst in H1; simpl snd in H1.
  set (m2 := round_nearest_even (shr_m mrs1) (loc_of_shr_record mrs1)).
  destruct (round_nearest_even_spec (shr_m mrs1) (loc_of_shr_record mrs1)) as [Hr1 _].
  fold m2 in Hr1.
  pose proof (val_Zpos ma ea) as Hpa.
  assert (Hm1 : (0 < shr_m mrs1)%Z) by (apply (val_pos_inv _ e1); lra).
  assert (Hle2 : val (Zpos ma) ea <= val m2 e1).
  { apply Rle_trans with (val (shr_m mrs1) e1); auto. apply val_le_mono. lia. }
  pose proof (trunc_ge ma ea m2 e1 Hca ltac:(lia) Hle2) as H3. cbv zeta in H3.
  destruct (shr_fexp prec emax m2 e1 loc_Exact) as [mrs3 e3]. simpl fst in H3; simpl snd in H3.
  assert (Hm3 : (0 < shr_m mrs3)%Z) by (apply (val_pos_inv _ e3); lra).
  destruct (shr_m mrs3) as [|p|p] eqn:Hp; try lia.
  destruct (e3 <=? emax - prec)%Z; [right; exists p, e3; auto | now left].
Qed.

Lemma new_location_exact nb k :
  exact_loc (new_location nb k) = (k =? 0)%Z.
Proof.
  unfold new_location, new_location_even, new_location_odd.
  destruct (Z.even nb), (k =? 0)%Z; reflexivity.
Qed.

(** The quotient computed by the division core, with its location. *)
Lemma div_core_located mx ex my ey :
  let '(q, e', l) := SFdiv_core_binary prec emax (Zpos mx) ex (Zpos my) ey in
  (0 <= q)%Z /\
  (e' <= fexp prec emax (Zpos (digits2_pos mx) + ex - (Zpos (digits2_pos my) + ey)))%Z /\
  located (val (Zpos mx) ex / val (Zpos my) ey) q e' (negb (exact_loc l)).
Proof.
  unfold SFdiv_core_binary. simpl Zdigits2.
  set (e' := Z.min _ _).
  set (s := (ex - ey - e')%Z).
  assert (Hs : (0 <= s)%Z) by (unfold s, e'; lia).
  set (m' := match s with Zpos _ => Z.shiftl (Zpos mx) s | Z0 => Zpos mx | Zneg _ => 0%Z end).
  assert (Hm' : m' = (Zpos mx * 2 ^ s)%Z).
  { unfold m'. destruct s as [|p|p]; try lia.
    - rewrite Z.shiftl_mul_pow2 by lia. reflexivity. }
  assert (Hdiv : Z.div_eucl m' (Zpos my) = (m' / Zpos my, m' mod Zpos my)%Z).
  { unfold Z.div, Z.modulo. now destruct (Z.div_eucl m' (Zpos my)). }
  rewrite Hdiv.
  set (q := (m' / Zpos my)%Z). set (r := (m' mod Zpos my)%Z).
  assert (Hm'0 : (0 <= m')%Z) by (rewrite Hm'; apply Z.mul_nonneg_nonneg; [lia | apply Z.pow_nonneg; lia]).
  assert (Hq : (0 <= q)%Z) by (apply Z.div_pos; lia).
  pose proof (Z.div_mod m' (Zpos my) ltac:(lia)) as Hdm. fold q r in Hdm.
  pose proof (Z.mod_pos_bound m' (Zpos my) ltac:(lia)) as Hr. fold r in Hr.
  split; [exact Hq|]. split; [unfold e'; lia|].
  rewrite new_location_exact.
  (* the quotient as a real number *)
  assert (Hv : val (Zpos mx) ex / val (Zpos my) ey = IZR m' * bpow e' / IZR (Zpos my)).
  { unfold val. rewrite Hm', mult_IZR, <- bpow_IZR by auto.
    replace ex with (s + e' + ey)%Z at 1 by (unfold s; lia).
    rewrite !bpow_add. pose proof (bpow_pos ey).
    field; repeat split; try (apply not_0_IZR; lia); lra. }
  rewrite Hv.
  assert (HY : 0 < IZR (Zpos my)) by (apply IZR_lt; lia).
  pose proof (bpow_pos e') as Hpe.
  assert (Hm'R : IZR m' = IZR q * IZR (Zpos my) + IZR r).
  { rewrite Hdm at 1. rewrite plus_IZR, mult_IZR. ring. }
  assert (Hr0 : 0 <= IZR r) by (apply IZR_le; lia).
  assert (Hr1 : IZR r < IZR (Zpos my)) by (apply IZR_lt; lia).
  assert (Heq : IZR m' * bpow e' / IZR (Zpos my) =
                val q e' + IZR r / IZR (Zpos my) * bpow e').
  { unfold val. rewrite Hm'R. field. lra. }
  rewrite Heq.
  assert (Hfrac0 : 0 <= IZR r / IZR (Zpos my)).
  { apply Rmult_le_pos; auto. apply Rlt_le, Rinv_0_lt_compat; auto. }
  assert (Hfrac1 : IZR r / IZR (Zpos my) < 1).
  { apply Rmult_lt_reg_r with (IZR (Zpos my)); auto.
    unfold Rdiv. rewrite Rmult_assoc, Rinv_l by lra. lra. }
  unfold located. repeat split.
  - nra.
  - unfold val. rewrite plus_IZR. nra.
  - intros H. apply negb_false_iff, Z.eqb_eq in H. rewrite H. unfold Rdiv. lra.
  - intros H. apply negb_true_iff, Z.eqb_neq in H.
    assert (0 < IZR r) by (apply IZR_lt; lia).
    assert (0 < IZR r / IZR (Zpos my)).
    { apply Rmult_lt_0_compat; auto. apply Rinv_0_lt_compat; auto. }
    nra.
Qed.

(** The quotient of a positive value by one that is not smaller is at
    most one after rounding. *)
Lemma SFdiv_le_one mx ex my ey :
  val (Zpos mx) ex <= val (Zpos my) ey ->
  SF64div (S754_finite false mx ex) (S754_finite false my ey) = S754_zero false \/
  exists p e3,
    SF64div (S754_finite false mx ex) (S754_finite false my ey) = S754_finite false p e3 /\
    val (Zpos p) e3 <= 1.
Proof.
  intros Hle. unfold SF64div, SFdiv.
  pose proof (div_core_located mx ex my ey) as H.
  destruct (SFdiv_core_binary prec emax (Zpos mx) ex (Zpos my) ey) as [[q e'] l].
  destruct H as (Hq & He' & Hloc).
  simpl xorb.
  apply binary_round_aux_le_one with (v := val (Zpos mx) ex / val (Zpos my) ey); auto.
  - pose proof (digits_mono _ _ _ _ Hle). rewrite fexp64_eq in He'. lia.
  - pose proof (val_Zpos my ey) as Hy.
    apply Rmult_le_reg_r with (val (Zpos my) ey); auto.
    unfold Rdiv. rewrite Rmult_assoc, Rinv_l by lra. lra.
Qed.

Lemma Pos_iter_xO m d : Zpos (Pos.iter xO m d) = (Zpos m * 2 ^ Zpos d)%Z.
Proof.
  induction d as [|d IH] using Pos.peano_ind.
  - simpl. lia.
  - rewrite Pos.iter_succ, Pos2Z.inj_xO, IH, Pos2Z.inj_succ, Z.pow_succ_r by lia. lia.
Qed.

Lemma shl_align_val m e e' :
  val (Zpos (fst (shl_align m e e'))) (snd (shl_align m e e')) = val (Zpos m) e.
Proof.
  unfold shl_align. destruct (e' - e)%Z as [|d|d] eqn:Hd; simpl fst; simpl snd; auto.
  rewrite Pos_iter_xO. replace e' with (e - Zpos d)%Z by lia.
  apply val_shift. lia.
Qed.

Lemma shl_align_fst_val m e e' :
  (e' <= e)%Z -> val (Zpos (fst (shl_align m e e'))) e' = val (Zpos m) e.
Proof.
  intros Hle. rewrite <- (shl_align_val m e e').
  unfold shl_align. destruct (e' - e)%Z as [|d|d] eqn:Hd; simpl fst; simpl snd; auto.
  - f_equal. lia.
  - lia.
Qed.

(** The sum of two positive values is not below the first after
    rounding. *)
Lemma SFadd_ge ma ea mb eb :
  canonical64 ma ea ->
  SF64add (S754_finite false ma ea) (S754_finite false mb eb) = S754_infinity false \/
  exists p e3,
    SF64add (S754_finite false ma ea) (S754_finite false mb eb) = S754_finite false p e3 /\
    val (Zpos ma) ea <= val (Zpos p) e3.
Proof.
  intros Hca. unfold SF64add, SFadd. simpl cond_Zopp.
  set (ez := Z.min ea eb).
  pose proof (shl_align_fst_val ma ea ez ltac:(lia)) as Ha.
  pose proof (shl_align_fst_val mb eb ez ltac:(lia)) as Hb.
  set (Ma := fst (shl_align ma ea ez)) in *. set (Mb := fst (shl_align mb eb ez)) in *.
  change (Zpos Ma + Zpos Mb)%Z with (Zpos (Ma + Mb)).
  unfold binary_normalize, binary_round.
  pose proof (shl_align_val (Ma + Mb) ez
                (fexp prec emax (Zpos (digits2_pos (Ma + Mb)) + ez))) as Hz.
  destruct (shl_align (Ma + Mb) ez _) as [mz ez']. simpl fst in Hz; simpl snd in Hz.
  apply binary_round_aux_ge; auto; try lia.
  rewrite Hz. pose proof (val_Zpos mb eb) as Hpb.
  unfold val in *. rewrite Pos2Z.inj_add, plus_IZR. lra.
Qed.

Lemma valid_canonical p e :
  valid_binary (S754_finite false p e) = true -> canonical64 p e.
Proof.
  unfold SpecFloat.valid_binary, bounded, canonical_mantissa, canonical64.
  intros H. apply andb_true_iff in H as [H _]. now apply Z.eqb_eq in H.
Qed.

Lemma bpow_52 : bpow (-52) * IZR 4503599627370496 = 1.
Proof.
  assert (H52 : (2 ^ 52 = 4503599627370496)%Z) by reflexivity.
  rewrite <- H52, <- bpow_IZR by lia. rewrite <- bpow_add.
  replace (-52 + 52)%Z with 0%Z by lia. apply bpow_0.
Qed.

Lemma compare_cont_le p q :
  (Zpos p <= Zpos q)%Z ->
  match Pos.compare_cont Eq p q with Gt => false | _ => true end = true.
Proof.
  intros H. rewrite Pos.compare_cont_spec. simpl.
  destruct (Pos.compare_spec p q); auto. lia.
Qed.

(** A canonical positive value that is at most one compares below one. *)
Lemma SFleb_one p e :
  canonical64 p e -> val (Zpos p) e <= 1 ->
  SFleb (S754_finite false p e) (S754_finite false 4503599627370496 (-52)) = true.
Proof.
  unfold canonical64. rewrite fexp64_eq. intros Hca Hv.
  destruct (val_digits p e) as [Hd _].
  assert (Hde : (Zpos (digits2_pos p) + e - 1 <= 0)%Z).
  { apply bpow_le_inv. rewrite bpow_0. lra. }
  unfold SFleb, SFcompare.
  destruct (Z.compare_spec e (-52)) as [He|He|He]; auto; try lia.
  subst e.
  assert (Hp : (Zpos p <= 4503599627370496)%Z).
  { apply le_IZR. unfold val in Hv.
    pose proof bpow_52 as Hb. pose proof (bpow_pos (-52)). nra. }
  exact (compare_cont_le p 4503599627370496 Hp).
Qed.

Local Open Scope float_scope.

(** What [x >= 0] and [x < Infinity] say about the representation. *)
Lemma nonneg_finite_cases x :
  (0 <=? x) = true -> (x <? infinity) = true ->
  (exists s, Prim2SF x = S754_zero s) \/
  (exists m e, Prim2SF x = S754_finite false m e /\ canonical64 m e).
Proof.
  rewrite FloatAxioms.leb_spec, FloatAxioms.ltb_spec.
  change (Prim2SF 0) with (S754_zero false).
  change (Prim2SF infinity) with (S754_infinity false).
  pose proof (Prim2SF_valid x) as Hv.
  destruct (Prim2SF x) as [s|s| |s m e]; simpl; try discriminate.
  - intros _ _. left. eauto.
  - destruct s; discriminate.
  - destruct s; try discriminate. intros _ _. right. exists m, e. split; auto.
    now apply valid_canonical.
Qed.

(** For finite non-negative [l] and [s], the quotient [l / (l + s)],
    taken when the sum is positive, lies between zero and one. *)
Theorem quotient_bounds l s :
  (0 <=? l) = true -> (l <? infinity) = true ->
  (0 <=? s) = true -> (s <? infinity) = true ->
  (0 <? l + s) = true ->
  (0 <=? l / (l + s)) = true /\ (l / (l + s) <=? 1) = true.
Proof.
  intros Hl0 Hl1 Hs0 Hs1 Ht.
  pose proof (Prim2SF_valid (l + s)) as Hvt.
  pose proof (Prim2SF_valid (l / (l + s))) as Hvq.
  rewrite FloatAxioms.ltb_spec, add_spec in Ht.
  rewrite div_spec, add_spec in Hvq. rewrite add_spec in Hvt.
  rewrite !FloatAxioms.leb_spec, div_spec, add_spec.
  change (Prim2SF 0) with (S754_zero false) in *.
  change (Prim2SF 1) with (S754_finite false 4503599627370496 (-52)).
  assert (Hfin : forall mx ex my ey,
     valid_binary (SF64div (S754_finite false mx ex) (S754_finite false my ey)) = true ->
     (val (Zpos mx) ex <= val (Zpos my) ey)%R ->
     SFleb (S754_zero false) (SF64div (S754_finite false mx ex) (S754_finite false my ey)) = true /\
     SFleb (SF64div (S754_finite false mx ex) (S754_finite false my ey))
           (S754_finite false 4503599627370496 (-52)) = true).
  { intros mx ex my ey Hv Hle.
    destruct (SFdiv_le_one mx ex my ey Hle) as [Hz|(p & e3 & Hq & Hq1)].
    - rewrite Hz. split; reflexivity.
    - rewrite Hq in *. split; [reflexivity|].
      apply SFleb_one; auto. now apply valid_canonical. }
  destruct (nonneg_finite_cases l Hl0 Hl1) as [[sl HL]|(ml & el & HL & Hcl)];
    destruct (nonneg_finite_cases s Hs0 Hs1) as [[ss HS]|(ms & es & HS & Hcs)];
    rewrite HL, HS in Ht, Hvt, Hvq |- *.
  - destruct sl, ss; discriminate.
  - destruct sl; split; reflexivity.
  - change (SF64add (S754_finite false ml el) (S754_zero ss))
      with (S754_finite false ml el) in *.
    apply Hfin; auto. lra.
  - destruct (SFadd_ge ml el ms es Hcl) as [Hinf|(p & e3 & Hadd & Hle)].
    + rewrite Hinf. split; reflexivity.
    + rewrite Hadd in *. apply Hfin; auto.
Qed.

End Binary64Facts.

(** ** Decimal conversion and derived metrics *)

Section NumericFacts.
Import Js Types Binary64 CategoryParametersRPC.
Local Open Scope Z_scope.
Local Open Scope R_scope.

(** Shifting a signed mantissa by its exponent is the floor of the value. *)
Lemma shiftl_floor sm e :
  IZR (Z.shiftl sm e) <= val sm e < IZR (Z.shiftl sm e) + 1.
Proof.
  unfold val. destruct (Z_le_gt_dec 0 e) as [He|He].
  - rewrite Z.shiftl_mul_pow2 by auto. rewrite mult_IZR, <- bpow_IZR by auto. lra.
  - assert (Hsh : Z.shiftl sm e = (sm / 2 ^ (- e))%Z).
    { rewrite <- Z.shiftr_div_pow2 by lia. rewrite <- Z.shiftl_opp_r. f_equal. lia. }
    rewrite Hsh.
    set (n := (- e)%Z). assert (Hn : (0 <= n)%Z) by (unfold n; lia).
    assert (Hp : (0 < 2 ^ n)%Z) by (apply Z.pow_pos_nonneg; lia).
    pose proof (Z.div_mod sm (2 ^ n) ltac:(lia)) as Hdm.
    pose proof (Z.mod_pos_bound sm (2 ^ n) Hp) as Hb.
    assert (Hbe : bpow n * bpow e = 1).
    { rewrite <- bpow_add. replace (n + e)%Z with 0%Z by (unfold n; lia). apply bpow_0. }
    pose proof (bpow_pos e) as Hpe. pose proof (bpow_pos n) as Hpn.
    assert (H1 : IZR (sm / 2 ^ n) * bpow n <= IZR sm).
    { rewrite bpow_IZR by auto. rewrite <- mult_IZR. apply IZR_le. nia. }
    assert (H2 : IZR sm < (IZR (sm / 2 ^ n) + 1) * bpow n).
    { rewrite bpow_IZR by auto. rewrite <- plus_IZR, <- mult_IZR. apply IZR_lt. nia. }
    apply (Rmult_le_compat_r (bpow e)) in H1; [|lra].
    apply (Rmult_lt_compat_r (bpow e)) in H2; [|lra].
    rewrite Rmult_assoc, Hbe, Rmult_1_r in H1, H2. lra.
Qed.

Lemma BigInt_of_floor_floors x : floors x (BigInt_of_floor x).
Proof.
  unfold floors, BigInt_of_floor.
  destruct (Prim2SF x) as [s|s| |s m e]; simpl; auto.
  - split; auto. lra.
  - split; auto. apply shiftl_floor.
Qed.

(** The conversion does not round-trip: the display value of 249 units of
    1e-6 encodes to 248 units, the display value of 43 units of 1e-10 to
    42; and a negative amount smaller than one unit encodes to -1, away
    from zero. *)
Lemma round_trip_loses_a_unit :
  toBlockchain6 (fromBlockchain6 249) = Ok 248%Z /\
  toBlockchain10 (fromBlockchain10 43) = Ok 42%Z /\
  (fromBlockchain6 248 <? fromBlockchain6 249)%float = true /\
  toBlockchain6 (-0x1p-30)%float = Ok (-1)%Z.
Proof. vm_compute. repeat split. Qed.

Local Open Scope float_scope.

Lemma eqb_zero_not_lt x : (x =? 0) = true -> (0 <? x) = false.
Proof.
  rewrite FloatAxioms.eqb_spec, FloatAxioms.ltb_spec.
  change (Prim2SF 0) with (S754_zero false).
  destruct (Prim2SF x) as [s|s| |s m e]; simpl; auto; try discriminate.
  - destruct s; discriminate.
  - destruct s; discriminate.
Qed.

(** C4. For every entry of the map produced by [getOI], the maps produced
    by [getUtilization] and [getCategorySkew] hold the derived metrics of
    that entry, and these satisfy: when [max > 0] the utilizations are
    [long / max * 100] and [short / max * 100], and when [max = 0] both
    are 0; when [long + short > 0] the skew is [long / (long + short)],
    and when [long + short = 0] it is 0.5; and for finite non-negative
    [long] and [short] the skew lies between 0 and 1. *)
Theorem derived_metrics c this oi g e :
  fst (getOI c this) = Ok oi -> oi !! g = Some e ->
  (exists um sm,
     fst (getUtilization c this) = Ok um /\ um !! g = Some (utilizationOf e) /\
     fst (getCategorySkew c this) = Ok sm /\ sm !! g = Some (skewOf e)) /\
  ((0 <? max e) = true ->
     utilizationLong (utilizationOf e) = long e / max e * 100 /\
     utilizationShort (utilizationOf e) = short e / max e * 100) /\
  ((max e =? 0) = true ->
     utilizationLong (utilizationOf e) = 0 /\ utilizationShort (utilizationOf e) = 0) /\
  ((0 <? long e + short e) = true -> skew (skewOf e) = long e / (long e + short e)) /\
  ((long e + short e =? 0) = true -> skew (skewOf e) = 0.5) /\
  ((0 <=? long e) = true -> (long e <? infinity) = true ->
   (0 <=? short e) = true -> (short e <? infinity) = true ->
   (0 <=? skew (skewOf e)) = true /\ (skew (skewOf e) <=? 1) = true).
Proof.
  intros Hoi He. split; [|split; [|split; [|split; [|split]]]].
  - unfold getUtilization, getCategorySkew.
    destruct (getOI c this) as [r this1]. simpl in Hoi. subst r. simpl.
    do 2 eexists. repeat split; rewrite lookup_fmap, He; reflexivity.
  - intros H. unfold utilizationOf. simpl. now rewrite H.
  - intros H. apply eqb_zero_not_lt in H. unfold utilizationOf. simpl. now rewrite H.
  - intros H. unfold skewOf. simpl. now rewrite H.
  - intros H. apply eqb_zero_not_lt in H. unfold skewOf. simpl. now rewrite H.
  - intros Hl0 Hl1 Hs0 Hs1. unfold skewOf. simpl.
    destruct (0 <? long e + short e) eqn:Ht.
    + now apply quotient_bounds.
    + split; reflexivity.
Qed.

Lemma derived_metrics_witness :
  fst (getOI PairsCache.sample_ledger PairsCache.sample_cache) = Ok sample_oi /\
  sample_oi !! 0%nat = Some sample_entry /\
  utilizationLong (utilizationOf sample_entry) = 750 / 2000 * 100 /\
  skew (skewOf sample_entry) = 750 / (750 + 250) /\
  (0 <=? skew (skewOf sample_entry)) = true /\
  (skew (skewOf sample_entry) <=? 1) = true.
Proof.
  assert (Hoi : fst (getOI PairsCache.sample_ledger PairsCache.sample_cache) = Ok sample_oi)
    by (vm_compute; reflexivity).
  assert (He : sample_oi !! 0%nat = Some sample_entry) by (vm_compute; reflexivity).
  destruct (derived_metrics _ _ _ _ _ Hoi He) as (_ & Hu & _ & Hs & _ & Hb).
  split; [exact Hoi|]. split; [exact He|].
  split; [exact (proj1 (Hu eq_refl))|]. split; [exact (Hs eq_refl)|].
  exact (Hb eq_refl eq_refl eq_refl eq_refl).
Defined.

End NumericFacts.

(** ** The registry of callbacks *)

Section FeedClientRegistry.
Import Js Types FeedClient.

Lemma Map_get_update {V} (f : V -> V) k k' (m : list (string * V)) :
  Map_get (Map_update f k m) k' =
  if String.eqb k k' then f <$> Map_get m k' else Map_get m k'.
Proof.
  induction m as [|[k0 v] m IH]; simpl.
  - now destruct (String.eqb k k').
  - destruct (String.eqb k0 k) eqn:E0; simpl.
    + apply String.eqb_eq in E0. subst k0.
      destruct (String.eqb k k'); reflexivity.
    + destruct (String.eqb k0 k') eqn:E1; simpl.
      * apply String.eqb_eq in E1. subst k0. now rewrite String.eqb_sym, E0.
      * exact IH.
Qed.

Lemma Map_get_app_new {V} (m : list (string * V)) k v k' :
  Map_get m k = None ->
  Map_get (m ++ [(k, v)]) k' = if String.eqb k k' then Some v else Map_get m k'.
Proof.
  induction m as [|[k0 v0] m IH]; simpl; intros Hn.
  - reflexivity.
  - destruct (String.eqb k0 k) eqn:E0; [discriminate|].
    destruct (String.eqb k0 k') eqn:E1.
    + apply String.eqb_eq in E1. subst k0. now rewrite String.eqb_sym, E0.
    + now apply IH.
Qed.

Lemma observers_register f cb w f' :
  observers (step (CallRegister f cb) w) f' =
  if String.eqb f f' then observers w f' ++ [cb] else observers w f'.
Proof.
  unfold observers. cbn [step with_client client registerPriceFeedCallback].
  unfold registerPriceFeedCallback. cbn [callbacks set_callbacks].
  rewrite Map_get_update.
  destruct (Map_get (callbacks (client w)) f) as [l|] eqn:E.
  - destruct (String.eqb f f') eqn:Ef; auto.
    apply String.eqb_eq in Ef. subst f'. now rewrite E.
  - rewrite Map_get_app_new by auto.
    destruct (String.eqb f f') eqn:Ef; auto.
    apply String.eqb_eq in Ef. subst f'. now rewrite E.
Qed.

Lemma observers_unregister f cb w f' :
  observers (step (CallUnregister f cb) w) f' =
  if String.eqb f f' then splice_first cb (observers w f') else observers w f'.
Proof.
  unfold observers. cbn [step with_client client].
  unfold unregisterPriceFeedCallback.
  destruct (Map_get (callbacks (client w)) f) as [l|] eqn:E.
  - cbn [callbacks set_callbacks]. rewrite Map_get_update.
    destruct (String.eqb f f') eqn:Ef; auto.
    apply String.eqb_eq in Ef. subst f'. now rewrite E.
  - destruct (String.eqb f f') eqn:Ef; auto.
    apply String.eqb_eq in Ef. subst f'. now rewrite E.
Qed.

Lemma splice_first_split cb l1 l2 :
  cb ∉ l1 -> splice_first cb (l1 ++ cb :: l2) = l1 ++ l2.
Proof.
  induction l1 as [|x l1 IH]; simpl; intros Hn.
  - now rewrite Nat.eqb_refl.
  - apply not_elem_of_cons in Hn as [Hne Hn].
    rewrite (proj2 (Nat.eqb_neq x cb)) by congruence. now rewrite IH.
Qed.

Lemma splice_first_absent cb l : cb ∉ l -> splice_first cb l = l.
Proof.
  induction l as [|x l IH]; simpl; intros Hn; auto.
  apply not_elem_of_cons in Hn as [Hne Hn].
  rewrite (proj2 (Nat.eqb_neq x cb)) by congruence. now rewrite IH.
Qed.

Lemma first_occurrence (cb : Callback) l :
  cb ∈ l -> exists l1 l2, l = l1 ++ cb :: l2 /\ cb ∉ l1.
Proof.
  induction l as [|x l IH]; intros Hin; [now apply elem_of_nil in Hin|].
  destruct (decide (x = cb)) as [->|Hne].
  - exists [], l. split; auto. apply not_elem_of_nil.
  - apply elem_of_cons in Hin as [->|Hin]; [contradiction|].
    destruct (IH Hin) as (l1 & l2 & -> & Hn).
    exists (x :: l1), l2. split; auto.
    apply not_elem_of_cons. split; auto.
Qed.

(** X1. [unregisterPriceFeedCallback] removes one registration of the
    callback, the earliest, and nothing else: the callbacks registered
    before and after it keep their order, a second registration of the
    same callback stays, an unknown feed or callback changes nothing, the
    other feeds are untouched, the feed stays among the keys of the map,
    and nothing is written to the socket. *)
Theorem unregister_removes_first_registration f cb w :
  let w' := step (CallUnregister f cb) w in
  (forall l1 l2, observers w f = l1 ++ cb :: l2 -> cb ∉ l1 ->
     observers w' f = l1 ++ l2) /\
  (cb ∈ observers w f ->
     exists l1 l2, observers w f = l1 ++ cb :: l2 /\ cb ∉ l1) /\
  (cb ∉ observers w f -> observers w' f = observers w f) /\
  (forall f', f' <> f -> observers w' f' = observers w f') /\
  Map_keys (callbacks (client w')) = Map_keys (callbacks (client w)) /\
  effects w' = effects w /\ sockets w' = sockets w.
Proof.
  cbv zeta. repeat split.
  - intros l1 l2 E Hn. rewrite observers_unregister, String.eqb_refl, E.
    now apply splice_first_split.
  - apply first_occurrence.
  - intros Hn. rewrite observers_unregister, String.eqb_refl.
    now apply splice_first_absent.
  - intros f' Hne. rewrite observers_unregister.
    now rewrite (proj2 (String.eqb_neq f f')) by congruence.
  - now rewrite step_keys.
Qed.

Lemma unregister_removes_first_registration_witness :
  observers (run session_registered_twice (init false false)) "feed" = [] ++ 1 :: [2; 1] /\
  (1 ∉ ([] : list Callback)) /\
  observers (step (CallUnregister "feed" 1) (run session_registered_twice (init false false)))
    "feed" = [2; 1].
Proof.
  assert (H1 : observers (run session_registered_twice (init false false)) "feed" =
               [] ++ 1 :: [2; 1]) by reflexivity.
  assert (H2 : 1 ∉ ([] : list Callback)) by apply not_elem_of_nil.
  split; [exact H1|]. split; [exact H2|].
  exact (proj1 (unregister_removes_first_registration "feed" 1
                  (run session_registered_twice (init false false))) [] [2; 1] H1 H2).
Defined.

Lemma rotation_fixed (cb : Callback) l :
  l ++ [cb] = cb :: l -> l = replicate (length l) cb.
Proof.
  induction l as [|x l IH]; simpl; intros H; auto.
  injection H as -> H. f_equal. now apply IH.
Qed.

(** Appending [cb] and removing its first occurrence gives the list back
    exactly when the occurrences of [cb] are its last entries. *)
Lemma append_splice_fixed (cb : Callback) arr :
  splice_first cb (arr ++ [cb]) = arr <->
  exists l n, arr = l ++ replicate n cb /\ cb ∉ l.
Proof.
  split.
  - intros H. destruct (decide (cb ∈ arr)) as [Hin|Hn].
    + destruct (first_occurrence _ _ Hin) as (l1 & l2 & -> & Hn).
      rewrite <- app_assoc in H. simpl in H.
      rewrite splice_first_split in H by auto.
      apply app_inv_head in H. apply rotation_fixed in H.
      exists l1, (S (length l2)). split; auto. simpl. now rewrite <- H.
    + exists arr, 0. split; auto. simpl. now rewrite app_nil_r.
  - intros (l & n & -> & Hn).
    rewrite <- app_assoc, <- replicate_S_end. simpl.
    now apply splice_first_split.
Qed.

(** X2. Registering a callback and unregistering it again leaves the
    callbacks of the feed as they were exactly when the earlier
    registrations of that callback for the feed, if there are any, are
    the last entries of the list; in particular when the callback was not
    registered for the feed before.  Otherwise the registration removed
    is the earliest one and the callback moves to the end of the dispatch
    order.  In every case the callbacks of the feed are the same up to
    their order, the other feeds are untouched, and the feed remains a
    key of the map, so it stays in the list the open handler subscribes
    to. *)
Theorem register_unregister_round_trip f cb w :
  let w' := step (CallUnregister f cb) (step (CallRegister f cb) w) in
  (observers w' f = observers w f <->
   exists l n, observers w f = l ++ replicate n cb /\ cb ∉ l) /\
  (cb ∉ observers w f -> observers w' f = observers w f) /\
  (forall l1 l2, observers w f = l1 ++ cb :: l2 -> cb ∉ l1 ->
     observers w' f = l1 ++ l2 ++ [cb]) /\
  observers w' f ≡ₚ observers w f /\
  (forall f', f' <> f -> observers w' f' = observers w f') /\
  f ∈ Map_keys (callbacks (client w')).
Proof.
  cbv zeta.
  assert (Hobs : observers (step (CallUnregister f cb) (step (CallRegister f cb) w)) f =
                 splice_first cb (observers w f ++ [cb])).
  { now rewrite observers_unregister, String.eqb_refl, observers_register, String.eqb_refl. }
  assert (H1 : cb ∉ observers w f ->
               splice_first cb (observers w f ++ [cb]) = observers w f).
  { intros Hn. rewrite (splice_first_split cb (observers w f) []) by auto.
    apply app_nil_r. }
  assert (H2 : forall l1 l2, observers w f = l1 ++ cb :: l2 -> cb ∉ l1 ->
               splice_first cb (observers w f ++ [cb]) = l1 ++ l2 ++ [cb]).
  { intros l1 l2 E Hn. rewrite E, <- app_assoc. simpl.
    now rewrite splice_first_split by auto. }
  rewrite Hobs. split; [apply append_splice_fixed|].
  split; [exact H1|]. split; [exact H2|]. split; [|split].
  - destruct (decide (cb ∈ observers w f)) as [Hin|Hn].
    + destruct (first_occurrence _ _ Hin) as (l1 & l2 & E & Hn).
      rewrite (H2 l1 l2 E Hn), E.
      rewrite (Permutation_app_comm l2 [cb]). reflexivity.
    + now rewrite H1.
  - intros f' Hne. rewrite observers_unregister.
    rewrite (proj2 (String.eqb_neq f f')) by congruence.
    rewrite observers_register.
    now rewrite (proj2 (String.eqb_neq f f')) by congruence.
  - rewrite step_keys. cbv iota. rewrite step_keys. cbv zeta.
    destruct (decide (f ∈ Map_keys (callbacks (client w)))) as [Hin|Hn].
    + now rewrite bool_decide_eq_true_2.
    + rewrite bool_decide_eq_false_2 by auto. apply elem_of_app. right. left.
Qed.

Lemma register_unregister_round_trip_witness :
  observers (step (CallRegister "feed" 1) (init false false)) "feed" = [1] /\
  observers (step (CallUnregister "feed" 1)
               (step (CallRegister "feed" 1)
                  (step (CallRegister "feed" 1) (init false false)))) "feed" = [1] /\
  observers (run session_registered_twice (init false false)) "feed" = [] ++ 1 :: [2; 1] /\
  (1 ∉ ([] : list Callback)) /\
  observers (step (CallUnregister "feed" 1)
               (step (CallRegister "feed" 1)
                  (run session_registered_twice (init false false)))) "feed" = [2; 1; 1].
Proof.
  assert (H0 : observers (step (CallRegister "feed" 1) (init false false)) "feed" = [1])
    by reflexivity.
  assert (H1 : observers (run session_registered_twice (init false false)) "feed" =
               [] ++ 1 :: [2; 1]) by reflexivity.
  assert (H2 : 1 ∉ ([] : list Callback)) by apply not_elem_of_nil.
  split; [exact H0|]. split.
  - refine (eq_trans (proj2 (proj1 (register_unregister_round_trip "feed" 1
                      (step (CallRegister "feed" 1) (init false false)))) _) H0).
    exists [], 1. rewrite H0. split; [reflexivity | exact H2].
  - split; [exact H1|]. split; [exact H2|].
    exact (proj1 (proj2 (proj2 (register_unregister_round_trip "feed" 1
                    (run session_registered_twice (init false false))))) [] [2; 1] H1 H2).
Defined.

End FeedClientRegistry.

(** ** What the client writes and schedules *)

Section FeedClientWire.
Import Js Types FeedClient.

Lemma sent_app w w' l :
  effects w' = effects w ++ l ->
  sent w' = sent w ++ omap (fun e => match e with Sent s m => Some (s, m) | _ => None end) l.
Proof. unfold sent. intros ->. apply omap_app. Qed.

Lemma sent_frame w w' : calls_at_most_one w w' -> sent w' = sent w.
Proof.
  intros (_ & _ & _ & [He|(cb & pf & He)]); unfold sent; rewrite He; auto.
  rewrite omap_app. simpl. apply app_nil_r.
Qed.

Lemma on_message_sent parsed w : sent (on_message parsed w) = sent w.
Proof. apply sent_frame, on_message_frame. Qed.

Lemma callback_returns_sent w : sent (callback_returns w) = sent w.
Proof. apply sent_frame, callback_returns_frame. Qed.

(** What one event adds to the messages written. *)
Lemma step_sent ev w :
  sent (step ev w) =
  sent w ++
  match ev with
  | WsOpen s =>
      omap (fun e => match e with Sent s m => Some (s, m) | _ => None end)
           (subscription (Map_keys (callbacks (client w))) (set_socket s OPEN w))
  | _ => []
  end.
Proof.
  destruct ev as [f cb|f cb| | |s|s parsed|s|s|i|]; cbn [step].
  - now rewrite app_nil_r.
  - now rewrite app_nil_r.
  - now rewrite app_nil_r.
  - rewrite app_nil_r. unfold close. destruct (ws (client w)); reflexivity.
  - unfold on_open, subscription, subscribeToPriceFeeds, sent; simpl.
    destruct (Map_keys (callbacks (client w))) as [|f fs]; simpl.
    + rewrite omap_app. simpl. reflexivity.
    + destruct (ws (client w)) as [s'|]; simpl.
      * destruct (<[s:=OPEN]> (sockets w) !! s') as [[]|]; simpl;
          rewrite ?omap_app; simpl; rewrite ?omap_app; simpl;
          rewrite ?app_nil_r; reflexivity.
      * rewrite omap_app. simpl. now rewrite app_nil_r.
  - rewrite app_nil_r. apply on_message_sent.
  - rewrite app_nil_r. unfold on_error, sent. simpl. destruct (onError (client w)); simpl;
      rewrite ?omap_app; simpl; rewrite ?omap_app; simpl; rewrite ?app_nil_r; reflexivity.
  - rewrite app_nil_r. unfold on_close, attemptReconnect, sent. simpl.
    destruct (onClose (client w)); simpl;
      destruct (maxReconnectAttempts (client w) <=? reconnectAttempts (client w)); simpl;
      rewrite ?omap_app; simpl; rewrite ?omap_app; simpl; rewrite ?app_nil_r; reflexivity.
  - rewrite app_nil_r. destruct (timers w !! i); reflexivity.
  - rewrite app_nil_r. apply callback_returns_sent.
Qed.

Lemma subscription_sent feedIds w :
  let new := omap (fun e => match e with Sent s m => Some (s, m) | _ => None end)
                  (subscription feedIds w) in
  length new <= 1 /\
  Forall (fun sm => snd sm = Subscribe feedIds /\ feedIds <> [] /\
                    ws (client w) = Some (fst sm) /\ sockets w !! fst sm = Some OPEN) new.
Proof.
  unfold subscription. destruct feedIds as [|f fs]; simpl; [split; auto|].
  destruct (ws (client w)) as [s'|]; simpl; [|split; auto].
  destruct (sockets w !! s') as [[]|] eqn:E; simpl; split; auto;
    try (constructor; auto; simpl; repeat split; auto; discriminate).
Qed.

(** X3. Whatever happens to a client, the only messages it writes to a
    socket are subscribe messages that carry at least one feed identifier,
    at most one per open event, each written while handling an open
    event: no call of a public method writes anything, and no unsubscribe
    message is ever written, so a feed whose callbacks have all been
    unregistered stays subscribed on the wire. *)
Theorem only_subscriptions_are_sent evs : forall w,
  exists new,
    sent (run evs w) = sent w ++ new /\
    length new <= opens evs /\
    Forall (fun sm => exists ids, snd sm = Subscribe ids /\ ids <> []) new.
Proof.
  induction evs as [|ev evs IH]; intros w.
  - exists []. simpl. rewrite app_nil_r. repeat split; auto.
  - change (run (ev :: evs) w) with (run evs (step ev w)).
    destruct (IH (step ev w)) as (new & Hs & Hl & Hf).
    rewrite Hs, step_sent, <- app_assoc.
    eexists. split; [reflexivity|].
    destruct ev;
      try (simpl; unfold opens in *; rewrite filter_cons_False by discriminate;
           split; [exact Hl | exact Hf]).
    destruct (subscription_sent (Map_keys (callbacks (client w))) (set_socket s OPEN w))
      as [Hlen Hall].
    cbv zeta in Hlen, Hall. split.
    + rewrite length_app. unfold opens in *.
      rewrite filter_cons_True by reflexivity. simpl. lia.
    + apply Forall_app. split; auto.
      eapply Forall_impl; [exact Hall|]. intros [s' m] (H1 & H2 & _). eauto.
Qed.

Lemma step_open_view s w :
  reconnect_view (step (WsOpen s) w) =
  (0, maxReconnectAttempts (client w), reconnectDelay (client w), scheduled w).
Proof.
  assert (Hs : scheduled (on_open s (set_socket s OPEN w)) = scheduled w).
  { unfold on_open, subscribeToPriceFeeds, scheduled; simpl.
    destruct (0 <? length _); simpl.
    - destruct (ws (client w)) as [s'|]; simpl.
      + destruct (<[s:=OPEN]> (sockets w) !! s') as [[]|]; simpl;
          rewrite ?omap_app; simpl; rewrite ?omap_app; simpl; rewrite ?app_nil_r; reflexivity.
      + rewrite omap_app. simpl. now rewrite app_nil_r.
    - rewrite omap_app. simpl. now rewrite app_nil_r. }
  unfold reconnect_view. cbn [step]. rewrite on_open_client, Hs. reflexivity.
Qed.

(** The part of the state the reconnection logic maintains. *)
Lemma run_reconnect_invariant evs : forall w,
  let inv w := reconnectAttempts (client w) <= maxReconnectAttempts (client w) /\
               Forall (fun d => exists k, k < maxReconnectAttempts (client w) /\
                         d = (reconnectDelay (client w) * 2 ^ N.of_nat k)%N)
                      (scheduled w) in
  inv w ->
  inv (run evs w) /\
  maxReconnectAttempts (client (run evs w)) = maxReconnectAttempts (client w) /\
  reconnectDelay (client (run evs w)) = reconnectDelay (client w).
Proof.
  cbv zeta. induction evs as [|ev evs IH]; intros w Hinv; [repeat split; apply Hinv|].
  change (run (ev :: evs) w) with (run evs (step ev w)).
  assert (Hstep :
    (reconnectAttempts (client (step ev w)) <= maxReconnectAttempts (client (step ev w)) /\
     Forall (fun d => exists k, k < maxReconnectAttempts (client (step ev w)) /\
               d = (reconnectDelay (client (step ev w)) * 2 ^ N.of_nat k)%N)
            (scheduled (step ev w))) /\
    maxReconnectAttempts (client (step ev w)) = maxReconnectAttempts (client w) /\
    reconnectDelay (client (step ev w)) = reconnectDelay (client w)).
  { destruct Hinv as [Hle Hall].
    destruct (is_open_event ev) eqn:Ho; [|destruct (is_close_event ev) eqn:Hc].
    - destruct ev; try discriminate.
      pose proof (step_open_view s w) as Hv.
      remember (step (WsOpen s) w) as w' eqn:Hw'. clear Hw'.
      unfold reconnect_view in Hv. injection Hv as Ha Hm Hb Hs.
      rewrite Ha, Hm, Hb, Hs. repeat split; auto. lia.
    - destruct ev; try discriminate.
      pose proof (step_close_view s w) as Hv. cbv zeta in Hv.
      remember (step (WsClose s) w) as w' eqn:Hw'. clear Hw'.
      unfold reconnect_view in Hv.
      destruct (maxReconnectAttempts (client w) <=? reconnectAttempts (client w)) eqn:Hcap;
        injection Hv as Ha Hm Hb Hs; rewrite Ha, Hm, Hb, Hs; repeat split; auto.
      + apply Nat.leb_gt in Hcap. lia.
      + apply Nat.leb_gt in Hcap. apply Forall_app. split; auto.
        constructor; auto. exists (reconnectAttempts (client w)). split; auto.
    - pose proof (step_other_view ev w Ho Hc) as Hv.
      remember (step ev w) as w' eqn:Hw'. clear Hw'.
      unfold reconnect_view in Hv. injection Hv as Ha Hm Hb Hs.
      rewrite Ha, Hm, Hb, Hs. repeat split; auto. }
  destruct Hstep as (Hinv' & Hm & Hb).
  destruct (IH (step ev w) Hinv') as (H1 & H2 & H3).
  rewrite H2, H3, Hm, Hb in *. repeat split; auto; apply H1.
Qed.

(** X4. In every run of a new client, whatever the order of calls, opens,
    errors, closes and timers, the attempt counter never exceeds 5 and
    every reconnection is scheduled after one of the five delays 1000,
    2000, 4000, 8000 and 16000 ms: the wait is never longer than 16
    seconds. *)
Theorem reconnect_delay_bounded evs hasOnError hasOnClose :
  let w := run evs (init hasOnError hasOnClose) in
  reconnectAttempts (client w) <= 5 /\
  Forall (fun d => d ∈ [1000; 2000; 4000; 8000; 16000]%N) (scheduled w).
Proof.
  cbv zeta.
  destruct (run_reconnect_invariant evs (init hasOnError hasOnClose)) as ((Hle & Hall) & Hm & Hb).
  { split; [simpl; lia | constructor]. }
  rewrite Hm, Hb in *. simpl in *. split; auto.
  eapply Forall_impl; [exact Hall|]. intros d (k & Hk & ->).
  do 5 (destruct k as [|k]; [set_solver|]). lia.
Qed.

Lemma on_open_sockets s w : sockets (on_open s w) = sockets w.
Proof.
  unfold on_open, subscribeToPriceFeeds; simpl.
  destruct (0 <? length _); simpl; auto.
  destruct (ws (client w)) as [s'|]; simpl; auto.
  destruct (sockets w !! s') as [[]|]; reflexivity.
Qed.

Lemma on_error_socket s w :
  ws (client (on_error s w)) = ws (client w) /\ sockets (on_error s w) = sockets w.
Proof. unfold on_error. destruct (onError (client w)); split; reflexivity. Qed.

Lemma on_close_socket w :
  ws (client (on_close w)) = ws (client w) /\ sockets (on_close w) = sockets w.
Proof.
  unfold on_close, attemptReconnect.
  destruct (onClose (client w)); simpl;
    destruct (maxReconnectAttempts (client w) <=? reconnectAttempts (client w));
    split; reflexivity.
Qed.

(** X5. [isConnected] follows the socket the client currently holds: it
    is false right after [listenForPriceUpdates] and after [close], it is
    true once that socket has opened, and it is false again as soon as
    that socket reports an error or a close.  An inbound message never
    changes it. *)
Theorem isConnected_follows_current_socket w :
  isConnected (step CallListen w) = false /\
  isConnected (step CallClose w) = false /\
  (forall s, ws (client w) = Some s -> s < length (sockets w) ->
     isConnected (step (WsOpen s) w) = true /\
     isConnected (step (WsError s) w) = false /\
     isConnected (step (WsClose s) w) = false) /\
  (forall s parsed, isConnected (step (WsMessage s parsed) w) = isConnected w).
Proof.
  split; [|split; [|split]]; [| |intros s H Hlen; repeat split|].
  - unfold isConnected. simpl.
    rewrite lookup_app_r by lia. now rewrite Nat.sub_diag.
  - unfold isConnected. simpl. unfold close.
    destruct (ws (client w)) as [s|] eqn:E; simpl; auto. now rewrite E.
  - unfold isConnected. cbn [step]. rewrite on_open_client, on_open_sockets. simpl.
    rewrite H. now rewrite list_lookup_insert_eq.
  - unfold isConnected. cbn [step].
    destruct (on_error_socket s (set_socket s CLOSING w)) as [-> ->]. simpl.
    rewrite H. now rewrite list_lookup_insert_eq.
  - unfold isConnected. cbn [step].
    destruct (on_close_socket (set_socket s CLOSED w)) as [-> ->]. simpl.
    rewrite H. now rewrite list_lookup_insert_eq.
  - intros s parsed. unfold isConnected. cbn [step].
    destruct (on_message_spec parsed w) as (Hc & Hs & _). now rewrite Hc, Hs.
Qed.

Lemma isConnected_follows_current_socket_witness :
  ws (client (step CallListen (init false false))) = Some 0 /\
  0 < length (sockets (step CallListen (init false false))) /\
  isConnected (step (WsOpen 0) (step CallListen (init false false))) = true.
Proof.
  assert (H1 : ws (client (step CallListen (init false false))) = Some 0) by reflexivity.
  assert (H2 : 0 < length (sockets (step CallListen (init false false)))) by (simpl; lia).
  split; [exact H1|]. split; [exact H2|].
  exact (proj1 (proj1 (proj2 (proj2
    (isConnected_follows_current_socket (step CallListen (init false false))))) 0 H1 H2)).
Defined.

End FeedClientWire.

(** ** Lookups in the pair cache *)

Section PairsCacheLookups.
Import Js Types PairsCache.

Lemma getPairsInfo_populates c forceRefresh this pairs this' :
  getPairsInfo c forceRefresh this = (Ok pairs, this') ->
  pairsCache this' = Some pairs.
Proof.
  unfold getPairsInfo.
  destruct (pairsCache this) as [cache|] eqn:Hc, forceRefresh;
    try (destruct (_ ≫= _) as [[? ?]|?]; [|discriminate]; now intros [= <- <-]).
  intros [= <- <-]. exact Hc.
Qed.

Lemma getPairsInfo_hit c this pairs :
  pairsCache this = Some pairs -> getPairsInfo c false this = (Ok pairs, this).
Proof. intros H. unfold getPairsInfo. now rewrite H. Qed.

Lemma ascending_of_sorted (l : list nat) :
  StronglySorted le l -> NoDup l -> StronglySorted lt l.
Proof.
  induction 1 as [|a l Hs IH Hall]; intros Hnd; constructor;
    apply NoDup_cons in Hnd as [Hna Hnd]; auto.
  rewrite Forall_forall in *. intros x Hx.
  specialize (Hall x Hx). destruct (decide (a = x)) as [->|]; [contradiction|lia].
Qed.

Lemma merge_sort_ascending (X : gset nat) :
  StronglySorted lt (merge_sort le (elements X)) /\
  forall x, x ∈ merge_sort le (elements X) <-> x ∈ X.
Proof.
  split.
  - apply ascending_of_sorted.
    + apply StronglySorted_merge_sort; [intros ? ? ?; lia | intros x y; lia].
    + rewrite merge_sort_Permutation. apply NoDup_elements.
  - intros x. rewrite merge_sort_Permutation. apply elem_of_elements.
Qed.

Lemma groupIndexesOf_spec pairs :
  StronglySorted lt (groupIndexesOf pairs) /\
  forall g, g ∈ groupIndexesOf pairs <-> exists i p, pairs !! i = Some p /\ groupIndex p = g.
Proof.
  unfold groupIndexesOf.
  destruct (merge_sort_ascending (map_to_set (fun _ p => groupIndex p) pairs)) as [Hs Hm].
  split; auto. intros g. rewrite Hm. apply elem_of_map_to_set.
Qed.

Lemma pairsInGroupOf_spec pairs g :
  StronglySorted lt (pairsInGroupOf pairs g) /\
  forall i, i ∈ pairsInGroupOf pairs g <-> exists p, pairs !! i = Some p /\ groupIndex p = g.
Proof.
  unfold pairsInGroupOf.
  destruct (merge_sort_ascending
              (dom (filter (fun kv => groupIndex (snd kv) = g) pairs))) as [Hs Hm].
  split; auto. intros i. rewrite Hm, elem_of_dom. unfold is_Some.
  split.
  - intros [p Hp]. apply map_lookup_filter_Some in Hp as [Hp Hg]. eauto.
  - intros (p & Hp & Hg). exists p. apply map_lookup_filter_Some. auto.
Qed.

(** X6. A fulfilled [getGroupIndexes] leaves the cache populated and
    returns the group indexes of the cached pairs, each once, in strictly
    ascending order: a number is in the result exactly when some cached
    pair belongs to that group. *)
Theorem getGroupIndexes_ascending c this gs this' :
  getGroupIndexes c this = (Ok gs, this') ->
  exists pairs,
    pairsCache this' = Some pairs /\
    StronglySorted lt gs /\
    forall g, g ∈ gs <-> exists i p, pairs !! i = Some p /\ groupIndex p = g.
Proof.
  unfold getGroupIndexes.
  destruct (getPairsInfo c false this) as [[pairs|e] this1] eqn:Hg; simpl; [|discriminate].
  intros [= <- <-]. exists pairs. split.
  - eapply getPairsInfo_populates; eauto.
  - apply groupIndexesOf_spec.
Qed.

Lemma getGroupIndexes_ascending_witness :
  getGroupIndexes sample_ledger empty = (Ok [0; 1], sample_cache) /\
  StronglySorted lt [0; 1].
Proof.
  assert (H : getGroupIndexes sample_ledger empty = (Ok [0; 1], sample_cache))
    by (vm_compute; reflexivity).
  split; [exact H|].
  destruct (getGroupIndexes_ascending _ _ _ _ H) as (pairs & _ & Hs & _). exact Hs.
Defined.

(** X7. A fulfilled [getPairsInGroup] returns, in strictly ascending order
    and each once, exactly the indexes of the cached pairs whose group is
    the one asked for; an unknown group gives the empty list, and the list
    of a group is non-empty exactly when [getGroupIndexes] reports the
    group. *)
Theorem getPairsInGroup_members c g this l this' :
  getPairsInGroup c g this = (Ok l, this') ->
  exists pairs gs,
    pairsCache this' = Some pairs /\
    StronglySorted lt l /\
    (forall i, i ∈ l <-> exists p, pairs !! i = Some p /\ groupIndex p = g) /\
    getGroupIndexes c this' = (Ok gs, this') /\
    (g ∈ gs <-> l <> []).
Proof.
  unfold getPairsInGroup.
  destruct (getPairsInfo c false this) as [[pairs|e] this1] eqn:Hg; simpl; [|discriminate].
  intros [= <- <-]. apply getPairsInfo_populates in Hg.
  destruct (pairsInGroupOf_spec pairs g) as [Hs Hm].
  destruct (groupIndexesOf_spec pairs) as [_ Hgm].
  exists pairs, (groupIndexesOf pairs). repeat split; auto.
  - apply Hm.
  - apply Hm.
  - unfold getGroupIndexes. now rewrite (getPairsInfo_hit _ _ _ Hg).
  - intros Hin E. apply Hgm in Hin as (i & p & Hp & Hgp).
    assert (Hi : i ∈ pairsInGroupOf pairs g) by (apply Hm; eauto).
    rewrite E in Hi. now apply elem_of_nil in Hi.
  - intros Hne. destruct (pairsInGroupOf pairs g) as [|i l'] eqn:E; [contradiction|].
    assert (Hi : i ∈ i :: l') by left.
    apply Hm in Hi as (p & Hp & Hgp). apply Hgm. eauto.
Qed.

Lemma getPairsInGroup_members_witness :
  getPairsInGroup sample_ledger 0 empty = (Ok [0; 1], sample_cache) /\
  StronglySorted lt [0; 1].
Proof.
  assert (H : getPairsInGroup sample_ledger 0 empty = (Ok [0; 1], sample_cache))
    by (vm_compute; reflexivity).
  split; [exact H|].
  destruct (getPairsInGroup_members _ _ _ _ _ H) as (pairs & gs & _ & Hs & _). exact Hs.
Defined.

(** X8. [clearCache] followed by a plain read goes to the ledger exactly as
    a forced refresh does and yields the same result; the two differ only
    when the fetch fails: after [clearCache] the object is left empty,
    while a forced refresh keeps the catalog it had. *)
Theorem clearCache_then_read c this :
  let forced := getPairsInfo c true this in
  let cleared := getPairsInfo c false (clearCache this) in
  fst cleared = fst forced /\
  snd cleared = (if is_Ok (fst forced) then snd forced else empty) /\
  snd forced = (if is_Ok (fst forced) then snd forced else this).
Proof.
  cbv zeta. unfold getPairsInfo, clearCache. simpl.
  destruct (pairsCache this);
    destruct (_ ≫= _) as [[pairs names]|e]; simpl; auto.
Qed.

Lemma fetchPairs_last_wins c n : forall i pairs names pairs' names',
  fetchPairs c n i pairs names = Ok (pairs', names') ->
  (forall j, is_Some (pairs !! j) -> j < i) ->
  (forall name idx, names !! name = Some idx ->
     forall j q, pairs !! j = Some q -> pairName q = name -> j <= idx) ->
  (forall name idx, names' !! name = Some idx ->
     forall j q, pairs' !! j = Some q -> pairName q = name -> j <= idx).
Proof.
  induction n as [|n IH]; intros i pairs names pairs' names' H Hdom Hmax.
  - simpl in H. injection H as <- <-. exact Hmax.
  - rewrite fetchPairs_step in H.
    destruct (readPair c i) as [info|e] eqn:Hr; [|discriminate].
    eapply IH; [exact H| |].
    + intros j Hj. destruct (decide (i = j)) as [->|Hne]; [lia|].
      rewrite lookup_insert_ne in Hj by auto. apply Hdom in Hj. lia.
    + intros name idx Hl j q Hj Hq.
      destruct (decide (pairName info = name)) as [E|Hne].
      * rewrite E, lookup_insert_eq in Hl. injection Hl as <-.
        destruct (decide (i = j)) as [->|Hij]; [lia|].
        rewrite lookup_insert_ne in Hj by auto.
        specialize (Hdom j ltac:(eauto)). lia.
      * rewrite lookup_insert_ne in Hl by auto.
        destruct (decide (i = j)) as [->|Hij].
        -- rewrite lookup_insert_eq in Hj. congruence.
        -- rewrite lookup_insert_ne in Hj by auto. eauto.
Qed.

(** X9. After a fulfilled fetch, the name of any cached pair resolves, by
    [getPairIndex], to the highest index that carries this name: when two
    pairs of the ledger share a name, the later one is found and the
    earlier one is not reachable by name.  [getPairName] of the index
    found gives the name back. *)
Theorem shared_name_resolves_to_last c this pairs this' :
  getPairsInfo c true this = (Ok pairs, this') ->
  forall c' j q, pairs !! j = Some q ->
    exists idx,
      getPairIndex c' (pairName q) this' = (Ok (Some idx), this') /\
      getPairName c' idx this' = (Ok (Some (pairName q)), this') /\
      j <= idx /\
      (forall k, getPairName c' k this' = (Ok (Some (pairName q)), this') -> k <= idx).
Proof.
  intros Hget c' j q Hj.
  assert (Hfetch : exists names,
    this' = {| pairsCache := Some pairs; pairNameToIndexMap := Some names |} /\
    agree pairs names /\
    (forall name idx, names !! name = Some idx ->
       forall j q, pairs !! j = Some q -> pairName q = name -> j <= idx)).
  { unfold getPairsInfo in Hget.
    assert (H : match (count ← PairStorage.pairsCount c; fetchPairs c count 0 ∅ ∅) with
                | Ok (pairs, names) =>
                    (Ok pairs, {| pairsCache := Some pairs; pairNameToIndexMap := Some names |})
                | Err e => (Err e, this)
                end = (Ok pairs, this'))
      by (destruct (pairsCache this); exact Hget).
    clear Hget.
    destruct (PairStorage.pairsCount c) as [count|e]; [|discriminate]. simpl in H.
    destruct (fetchPairs c count 0 ∅ ∅) as [[pairs' names]|e] eqn:Hfp; [|discriminate].
    injection H as -> <-. exists names. split; auto. split.
    - apply fetchPairs_complete in Hfp as (_ & _ & Hag); auto.
      + intros k [p Hp]. rewrite lookup_empty in Hp. discriminate.
      + split; intros *; rewrite lookup_empty; discriminate.
    - eapply fetchPairs_last_wins; [exact Hfp| |].
      + intros k [p Hp]. rewrite lookup_empty in Hp. discriminate.
      + intros name idx Hl. rewrite lookup_empty in Hl. discriminate. }
  destruct Hfetch as (names & -> & [Hag1 Hag2] & Hmax).
  destruct (Hag2 j q Hj) as [idx Hidx].
  destruct (Hag1 _ _ Hidx) as (p & Hp & Hname).
  exists idx. unfold getPairIndex, getPairName. simpl. rewrite Hidx, Hp. simpl.
  rewrite Hname. repeat split; eauto.
  intros k Hk. destruct (pairs !! k) as [r|] eqn:Hr; simpl in Hk; [|discriminate].
  injection Hk as Hk. eauto.
Qed.

Lemma shared_name_resolves_to_last_witness :
  (exists pairs this',
     getPairsInfo duplicate_ledger true empty = (Ok pairs, this') /\
     (pairName <$> pairs !! 0) = Some "BTC/USD" /\
     getPairIndex failing_ledger "BTC/USD" this' = (Ok (Some 2), this')).
Proof.
  destruct (getPairsInfo duplicate_ledger true empty) as [[pairs|e] this'] eqn:Hget;
    [|vm_compute in Hget; discriminate].
  exists pairs, this'. split; [reflexivity|].
  assert (H0 : exists q, pairs !! 0 = Some q /\ pairName q = "BTC/USD").
  { vm_compute in Hget. injection Hget as <- _. eexists. split; reflexivity. }
  destruct H0 as (q & Hq & Hname). rewrite Hq. simpl. rewrite Hname. split; auto.
  destruct (shared_name_resolves_to_last _ _ _ _ Hget failing_ledger 0 q Hq)
    as (idx & Hi & Hn & Hle & Hmax).
  rewrite Hname in Hi, Hn, Hmax.
  assert (H2 : getPairName failing_ledger 2 this' = (Ok (Some "BTC/USD"), this')).
  { vm_compute in Hget. injection Hget as _ <-. vm_compute. reflexivity. }
  assert (Hc : fst (getPairIndex failing_ledger "BTC/USD" this') = Ok (Some 2)).
  { vm_compute in Hget. injection Hget as _ <-. vm_compute. reflexivity. }
  rewrite Hi in Hc |- *. simpl in Hc. specialize (Hmax 2 H2).
  injection Hc as ->. reflexivity.
Defined.

End PairsCacheLookups.

(** ** The reads the pair cache makes *)

Section CatalogReads.
Import Js Types PairsCache.

Lemma fetchPairs_ext c c' n : forall i pairs names,
  (forall j, i <= j < i + n -> PairStorage.pairs c j = PairStorage.pairs c' j) ->
  fetchPairs c n i pairs names = fetchPairs c' n i pairs names.
Proof.
  induction n as [|n IH]; intros i pairs names H; auto.
  rewrite !fetchPairs_step. unfold readPair. rewrite <- (H i) by lia.
  destruct (PairStorage.pairs c i ≫= toPairInfo) as [info|e]; auto.
  apply IH. intros j Hj. apply H. lia.
Qed.

(** X10. The pair cache reads nothing from the ledger but the pair count
    and the pairs below it.  Two ledgers that agree on these give the same
    results and leave the same object behind, for every method of the
    cache, whatever they answer to any other read. *)
Theorem cache_reads_only_the_catalog c c' this :
  PairStorage.pairsCount c = PairStorage.pairsCount c' ->
  (forall count j, PairStorage.pairsCount c = Ok count -> j < count ->
     PairStorage.pairs c j = PairStorage.pairs c' j) ->
  (forall forceRefresh, getPairsInfo c forceRefresh this = getPairsInfo c' forceRefresh this) /\
  (forall name, getPairIndex c name this = getPairIndex c' name this) /\
  (forall i, getPairName c i this = getPairName c' i this) /\
  (forall i, getPairByIndex c i this = getPairByIndex c' i this) /\
  getGroupIndexes c this = getGroupIndexes c' this /\
  (forall g, getPairsInGroup c g this = getPairsInGroup c' g this).
Proof.
  intros Hcount Hpairs.
  assert (Hget : forall fr, getPairsInfo c fr this = getPairsInfo c' fr this).
  { intros fr. unfold getPairsInfo. rewrite <- Hcount.
    destruct (PairStorage.pairsCount c) as [count|e] eqn:Hc; simpl; auto.
    rewrite (fetchPairs_ext c c' count 0 ∅ ∅); auto.
    intros j Hj. apply (Hpairs count); auto. lia. }
  split; [exact Hget|].
  unfold getPairIndex, getPairName, getPairByIndex, getGroupIndexes, getPairsInGroup.
  rewrite !Hget. repeat split; reflexivity.
Qed.

Lemma cache_reads_only_the_catalog_witness :
  PairStorage.pairsCount sample_ledger = PairStorage.pairsCount unlimited_ledger /\
  PairStorage.groupCollateral sample_ledger 0 true <>
    PairStorage.groupCollateral unlimited_ledger 0 true /\
  getGroupIndexes sample_ledger empty = getGroupIndexes unlimited_ledger empty.
Proof.
  assert (H1 : PairStorage.pairsCount sample_ledger = PairStorage.pairsCount unlimited_ledger)
    by reflexivity.
  assert (H2 : forall count j, PairStorage.pairsCount sample_ledger = Ok count -> j < count ->
                 PairStorage.pairs sample_ledger j = PairStorage.pairs unlimited_ledger j)
    by reflexivity.
  split; [exact H1|]. split; [discriminate|].
  exact (proj1 (proj2 (proj2 (proj2 (proj2
           (cache_reads_only_the_catalog sample_ledger unlimited_ledger empty H1 H2)))))).
Defined.

End CatalogReads.

(** ** Limits and open interest of the groups *)

Section CategoryFacts.
Import Js Types PairsCache CategoryParametersRPC.

Lemma limits_fold c gs : forall (acc : gmap nat OpenInterest) g,
  foldl (fun limits g =>
           match PairStorage.groupCollateral c g true with
           | Ok maxOI => <[g := limitsEntry maxOI]> limits
           | Err _ => limits
           end) acc gs !! g =
  if bool_decide (g ∈ gs)
  then match PairStorage.groupCollateral c g true with
       | Ok m => Some (limitsEntry m)
       | Err _ => acc !! g
       end
  else acc !! g.
Proof.
  induction gs as [|g0 gs IH]; intros acc g; cbn [foldl].
  - rewrite bool_decide_eq_false_2 by apply not_elem_of_nil. reflexivity.
  - rewrite IH.
    destruct (decide (g = g0)) as [->|Hne].
    + rewrite (bool_decide_eq_true_2 (g0 ∈ g0 :: gs)) by left.
      destruct (PairStorage.groupCollateral c g0 true) as [m|e];
        destruct (bool_decide (g0 ∈ gs)); auto. apply lookup_insert_eq.
    + assert (Hacc : match PairStorage.groupCollateral c g0 true with
                     | Ok maxOI => <[g0 := limitsEntry maxOI]> acc
                     | Err _ => acc
                     end !! g = acc !! g).
      { destruct (PairStorage.groupCollateral c g0 true); auto.
        now apply lookup_insert_ne. }
      rewrite Hacc.
      destruct (decide (g ∈ gs)) as [Hin|Hn].
      * rewrite !bool_decide_eq_true_2; auto. now right.
      * rewrite !bool_decide_eq_false_2; auto.
        intros [?|?]%elem_of_cons; contradiction.
Qed.

(** X11. [getOILimits] is rejected only when the group indexes cannot be
    read.  Otherwise its map has an entry for exactly those groups whose
    limit read succeeds; the entry holds the decoded limit three times,
    as [long], [short] and [max]; a group whose read fails is left out. *)
Theorem getOILimits_entries c this :
  match getGroupIndexes c this with
  | (Err e, this') => getOILimits c this = (Err e, this')
  | (Ok gs, this') =>
      exists limits,
        getOILimits c this = (Ok limits, this') /\
        forall g, limits !! g =
          if bool_decide (g ∈ gs)
          then match PairStorage.groupCollateral c g true with
               | Ok m => Some (limitsEntry m)
               | Err _ => None
               end
          else None
  end.
Proof.
  unfold getOILimits.
  destruct (getGroupIndexes c this) as [[gs|e] this'] eqn:Hg; simpl; auto.
  eexists. split; [reflexivity|]. intros g. rewrite limits_fold, lookup_empty.
  reflexivity.
Qed.

Lemma getGroupIndexes_hit c this pairs :
  pairsCache this = Some pairs ->
  getGroupIndexes c this = (Ok (groupIndexesOf pairs), this).
Proof. intros H. unfold getGroupIndexes. now rewrite (getPairsInfo_hit _ _ _ H). Qed.

(** With a populated cache [getOILimits] reads the limits only. *)
Lemma getOILimits_hit c this pairs :
  pairsCache this = Some pairs ->
  exists limits,
    getOILimits c this = (Ok limits, this) /\
    forall g, g ∈ groupIndexesOf pairs ->
      maxOf limits g = match PairStorage.groupCollateral c g true with
                       | Ok m => or_default (fromBlockchain6 m) 0
                       | Err _ => 0%float
                       end.
Proof.
  intros Hc. unfold getOILimits. rewrite (getGroupIndexes_hit _ _ _ Hc). simpl.
  eexists. split; [reflexivity|]. intros g Hg.
  unfold maxOf. rewrite limits_fold, bool_decide_eq_true_2, lookup_empty by auto.
  destruct (PairStorage.groupCollateral c g true); reflexivity.
Qed.

Lemma fetchGroupOI_hit c this pairs g :
  pairsCache this = Some pairs -> g ∈ groupIndexesOf pairs ->
  fetchGroupOI c g this = (entryOf c g, this).
Proof.
  intros Hc Hg. unfold fetchGroupOI, entryOf.
  destruct (PairStorage.groupOI c g 0) as [l|]; auto.
  destruct (PairStorage.groupOI c g 1) as [s|]; auto.
  destruct (getOILimits_hit c this pairs Hc) as (limits & -> & Hl).
  now rewrite (Hl g Hg).
Qed.

Lemma collect_fold c this pairs gs : forall oi,
  pairsCache this = Some pairs ->
  (forall g, g ∈ gs -> g ∈ groupIndexesOf pairs) ->
  exists oi',
    foldl (collectGroupOI c) (oi, this) gs = (oi', this) /\
    forall g, oi' !! g =
      if bool_decide (g ∈ gs)
      then match entryOf c g with Some e => Some e | None => oi !! g end
      else oi !! g.
Proof.
  induction gs as [|g0 gs IH]; intros oi Hc Hsub; cbn [foldl].
  - exists oi. split; [reflexivity|]. intros g.
    now rewrite bool_decide_eq_false_2 by apply not_elem_of_nil.
  - unfold collectGroupOI at 2.
    rewrite (fetchGroupOI_hit c this pairs g0 Hc) by (apply Hsub; left).
    assert (Hsub' : forall g, g ∈ gs -> g ∈ groupIndexesOf pairs)
      by (intros g Hg; apply Hsub; now right).
    destruct (IH (match entryOf c g0 with Some e => <[g0 := e]> oi | None => oi end)
                 Hc Hsub') as (oi' & Hf & Hl).
    exists oi'. split.
    + rewrite <- Hf. now destruct (entryOf c g0).
    + intros g. rewrite Hl.
      destruct (decide (g = g0)) as [->|Hne].
      * rewrite (bool_decide_eq_true_2 (g0 ∈ g0 :: gs)) by left.
        destruct (entryOf c g0) as [e|] eqn:E;
          destruct (bool_decide (g0 ∈ gs)); auto. apply lookup_insert_eq.
      * assert (Hacc : match entryOf c g0 with
                       | Some e => <[g0 := e]> oi
                       | None => oi
                       end !! g = oi !! g).
        { destruct (entryOf c g0); auto. now apply lookup_insert_ne. }
        rewrite Hacc.
        destruct (decide (g ∈ gs)) as [Hin|Hn].
        -- rewrite !bool_decide_eq_true_2; auto. now right.
        -- rewrite !bool_decide_eq_false_2; auto.
           intros [?|?]%elem_of_cons; contradiction.
Qed.

(** X12. When the group indexes can be read, [getOI] is fulfilled and its
    map is determined group by group: a group is present exactly when it
    is one of the group indexes and both of its open-interest reads
    succeed, with the decoded long and short figures.  Its maximum is the
    decoded limit, and it is 0 when the limit read fails: such a group is
    not left out, it is reported with a maximum of 0 and therefore with a
    utilization of 0. *)
Theorem getOI_entries c this gs this' :
  getGroupIndexes c this = (Ok gs, this') ->
  exists oi,
    getOI c this = (Ok oi, this') /\
    (forall g, oi !! g = if bool_decide (g ∈ gs) then entryOf c g else None) /\
    (forall g e, oi !! g = Some e ->
       is_Ok (PairStorage.groupCollateral c g true) = false ->
       max e = 0%float /\
       utilizationOf e = {| utilizationLong := 0; utilizationShort := 0 |}).
Proof.
  intros Hg. unfold getOI. rewrite Hg.
  assert (Hc : exists pairs, pairsCache this' = Some pairs /\ gs = groupIndexesOf pairs).
  { unfold getGroupIndexes in Hg.
    destruct (getPairsInfo c false this) as [[pairs|e] this1] eqn:Hp; simpl in Hg;
      [|discriminate].
    injection Hg as <- <-. exists pairs. split; auto.
    eapply getPairsInfo_populates; eauto. }
  destruct Hc as (pairs & Hc & ->).
  destruct (collect_fold c this' pairs (groupIndexesOf pairs) ∅ Hc ltac:(auto))
    as (oi & Hf & Hl).
  rewrite Hf. exists oi. split; auto.
  assert (Hentries : forall g, oi !! g =
            if bool_decide (g ∈ groupIndexesOf pairs) then entryOf c g else None).
  { intros g. rewrite Hl, lookup_empty.
    destruct (bool_decide _); auto. now destruct (entryOf c g). }
  split; auto.
  intros g e He Hfail. rewrite Hentries in He.
  destruct (bool_decide _); [|discriminate].
  unfold entryOf in He.
  destruct (PairStorage.groupOI c g 0); [|discriminate].
  destruct (PairStorage.groupOI c g 1); [|discriminate].
  destruct (PairStorage.groupCollateral c g true); [discriminate|].
  injection He as <-. split; reflexivity.
Qed.

Lemma getOI_entries_witness :
  getGroupIndexes unlimited_ledger sample_cache = (Ok [0; 1], sample_cache) /\
  exists oi,
    getOI unlimited_ledger sample_cache = (Ok oi, sample_cache) /\
    oi !! 0 = Some {| long := 750; short := 250; max := 0 |} /\
    oi !! 1 = None.
Proof.
  assert (H : getGroupIndexes unlimited_ledger sample_cache = (Ok [0; 1], sample_cache))
    by (vm_compute; reflexivity).
  split; [exact H|].
  destruct (getOI_entries _ _ _ _ H) as (oi & Hoi & Hl & _).
  exists oi. split; [exact Hoi|]. rewrite !Hl. split; vm_compute; reflexivity.
Defined.

End CategoryFacts.

(** ** The sign of the utilization *)

Section UtilizationSign.
Import Js Types Binary64 CategoryParametersRPC.
Local Open Scope R_scope.

(** Rounding a value that is not negative gives a result that is not
    negative and is a number. *)
Lemma binary_round_aux_nonneg v m e l :
  (0 <= m)%Z -> located v m e (negb (exact_loc l)) ->
  match binary_round_aux prec emax false m e l with
  | S754_zero s | S754_infinity s | S754_finite s _ _ => s = false
  | S754_nan => False
  end.
Proof.
  intros Hm Hloc. unfold binary_round_aux.
  pose proof (shr_fexp_located v m e l Hm Hloc) as H1. cbv zeta in H1.
  destruct (shr_fexp prec emax m e l) as [mrs1 e1]. simpl fst in H1; simpl snd in H1.
  destruct H1 as (_ & Hm1 & _).
  set (m2 := round_nearest_even (shr_m mrs1) (loc_of_shr_record mrs1)).
  destruct (round_nearest_even_spec (shr_m mrs1) (loc_of_shr_record mrs1)) as [Hr1 _].
  fold m2 in Hr1.
  assert (Hm2 : (0 <= m2)%Z) by lia.
  assert (Hloc2 : located (val m2 e1) m2 e1 (negb (exact_loc loc_Exact))).
  { simpl. repeat split; auto; try lra; try discriminate.
    unfold val. rewrite plus_IZR. pose proof (bpow_pos e1). nra. }
  pose proof (shr_fexp_located (val m2 e1) m2 e1 loc_Exact Hm2 Hloc2) as H3. cbv zeta in H3.
  destruct (shr_fexp prec emax m2 e1 loc_Exact) as [mrs3 e3]. simpl fst in H3; simpl snd in H3.
  destruct H3 as (_ & Hm3 & _).
  destruct (shr_m mrs3) as [|p|p]; try lia; auto.
  destruct (e3 <=? emax - prec)%Z; auto.
Qed.

Lemma SFdiv_nonneg x my ey :
  nonneg_number x ->
  nonneg_number (SF64div x (S754_finite false my ey)).
Proof.
  destruct x as [s|s| |s mx ex]; simpl; try tauto.
  - intros ->. reflexivity.
  - intros ->. unfold SF64div, SFdiv.
    pose proof (div_core_located mx ex my ey) as H.
    destruct (SFdiv_core_binary prec emax (Zpos mx) ex (Zpos my) ey) as [[q e'] l].
    destruct H as (Hq & _ & Hloc). simpl xorb.
    pose proof (binary_round_aux_nonneg _ q e' l Hq Hloc) as Hr.
    destruct (binary_round_aux prec emax false q e' l); simpl; auto.
Qed.

Lemma SFmul_nonneg x my ey :
  nonneg_number x ->
  nonneg_number (SF64mul x (S754_finite false my ey)).
Proof.
  destruct x as [s|s| |s mx ex]; simpl; try tauto.
  - intros ->. reflexivity.
  - intros ->. unfold SF64mul, SFmul. simpl xorb.
    assert (Hloc : located (val (Zpos (mx * my)) (ex + ey)) (Zpos (mx * my)) (ex + ey)
                     (negb (exact_loc loc_Exact))).
    { simpl. repeat split; auto; try lra; try discriminate.
      unfold val. rewrite plus_IZR. pose proof (bpow_pos (ex + ey)). nra. }
    pose proof (binary_round_aux_nonneg _ (Zpos (mx * my)) (ex + ey) loc_Exact
                  ltac:(lia) Hloc) as Hr.
    destruct (binary_round_aux prec emax false _ _ _); simpl; auto.
Qed.

Lemma nonneg_number_leb x : nonneg_number (Prim2SF x) <-> (0 <=? x)%float = true.
Proof.
  rewrite FloatAxioms.leb_spec. change (Prim2SF 0) with (S754_zero false).
  destruct (Prim2SF x) as [s|s| |s m e]; simpl.
  - tauto.
  - destruct s; simpl; split; auto; discriminate.
  - split; [tauto | discriminate].
  - destruct s; simpl; split; auto; discriminate.
Qed.

Local Open Scope float_scope.

Lemma percentage_nonneg x m :
  (0 <=? x) = true -> (0 <? m) = true -> (m <? infinity) = true ->
  (0 <=? x / m * 100) = true.
Proof.
  intros Hx Hm Hfin. apply nonneg_number_leb. apply nonneg_number_leb in Hx.
  rewrite mul_spec, div_spec.
  change (Prim2SF 100) with (S754_finite false 7036874417766400 (-46)).
  rewrite FloatAxioms.ltb_spec in Hm, Hfin.
  change (Prim2SF 0) with (S754_zero false) in Hm.
  change (Prim2SF infinity) with (S754_infinity false) in Hfin.
  destruct (Prim2SF m) as [s|s| |s mm em]; simpl in Hm, Hfin; try discriminate.
  - destruct s; discriminate.
  - destruct s; try discriminate.
    apply SFmul_nonneg. now apply SFdiv_nonneg.
Qed.

(** X13. The utilization figures derived from an entry whose long and
    short sides are not negative and whose maximum is finite are numbers
    that are not negative: never [NaN], never below 0.  They are not
    capped: a side above the maximum gives a utilization above 100. *)
Theorem utilization_is_not_negative e :
  (0 <=? long e) = true -> (0 <=? short e) = true -> (max e <? infinity) = true ->
  (0 <=? utilizationLong (utilizationOf e)) = true /\
  (0 <=? utilizationShort (utilizationOf e)) = true.
Proof.
  intros Hl Hs Hm. unfold utilizationOf. simpl.
  destruct (0 <? max e) eqn:Hpos.
  - split; now apply percentage_nonneg.
  - split; reflexivity.
Qed.

Lemma utilization_is_not_negative_witness :
  (0 <=? long crowded_entry) = true /\ (0 <=? short crowded_entry) = true /\
  (max crowded_entry <? infinity) = true /\
  (0 <=? utilizationLong (utilizationOf crowded_entry)) = true /\
  utilizationLong (utilizationOf crowded_entry) = 150.
Proof.
  assert (H1 : (0 <=? long crowded_entry) = true) by reflexivity.
  assert (H2 : (0 <=? short crowded_entry) = true) by reflexivity.
  assert (H3 : (max crowded_entry <? infinity) = true) by reflexivity.
  split; [exact H1|]. split; [exact H2|]. split; [exact H3|].
  split; [exact (proj1 (utilization_is_not_negative crowded_entry H1 H2 H3)) | reflexivity].
Defined.

End UtilizationSign.

(** ** The groups of a snapshot *)

Section SnapshotGroups.
Import Js Types SnapshotRPC.

Lemma groupPairs_present v idxs i p :
  i ∈ idxs -> pairs v !! i = Some p ->
  is_Some (groupPairs v idxs !! PairsCache.pairName p).
Proof.
  unfold groupPairs.
  assert (H : forall acc : gmap string PairData,
    is_Some (acc !! PairsCache.pairName p) \/ (i ∈ idxs /\ pairs v !! i = Some p) ->
    is_Some (foldl (fun acc pairIndex =>
             match pairs v !! pairIndex with
             | None => acc
             | Some pairInfo =>
                 <[PairsCache.pairName pairInfo := pairDataOf v pairIndex pairInfo]> acc
             end) acc idxs !! PairsCache.pairName p)).
  { induction idxs as [|j idxs IH]; intros acc [Hacc|[Hin Hp]]; cbn [foldl]; auto.
    - now apply elem_of_nil in Hin.
    - apply IH. left. destruct (pairs v !! j) as [q|]; auto.
      destruct (decide (PairsCache.pairName q = PairsCache.pairName p)) as [E|Hne].
      + rewrite E, lookup_insert_eq. eauto.
      + now rewrite lookup_insert_ne.
    - apply elem_of_cons in Hin as [->|Hin].
      + apply IH. left. rewrite Hp, lookup_insert_eq. eauto.
      + apply IH. right. auto. }
  intros Hin Hp. apply H. right. auto.
Qed.

(** In a catalog with unique names, the pair map built for a group holds
    a pair exactly when the pair belongs to the group. *)
Lemma groupPairs_of_group v g i p :
  PairsCache.unique_names (pairs v) -> pairs v !! i = Some p ->
  groupPairs v (PairsCache.pairsInGroupOf (pairs v) g) !! PairsCache.pairName p =
  if bool_decide (groupIndex p = g) then Some (pairDataOf v i p) else None.
Proof.
  intros Hu Hp.
  destruct (pairsInGroupOf_spec (pairs v) g) as [_ Hmem].
  destruct (groupPairs v (PairsCache.pairsInGroupOf (pairs v) g) !! PairsCache.pairName p)
    as [pd|] eqn:E.
  - apply groupPairs_lookup in E as (j & q & Hj & Hq & Hname & ->).
    assert (j = i) by (eapply Hu; eauto). subst j.
    assert (q = p) by congruence. subst q.
    apply Hmem in Hj as (p' & Hp' & Hgp).
    assert (p' = p) by congruence. subst p'.
    now rewrite bool_decide_eq_true_2.
  - destruct (decide (groupIndex p = g)) as [Hgp|Hne].
    + assert (Hi : i ∈ PairsCache.pairsInGroupOf (pairs v) g) by (apply Hmem; eauto).
      destruct (groupPairs_present v _ i p Hi Hp) as [pd Hpd]. congruence.
    + now rewrite bool_decide_eq_false_2.
Qed.

(** X14. A snapshot built over a populated cache whose catalog has unique
    pair names, from reads that were all fulfilled and returned that
    catalog, places every pair in the group of its own group index and in
    no other: the pair map of a group of the snapshot has an entry under
    the name of a pair exactly when the pair belongs to the group, and
    this entry is the data of that pair.  The snapshot has a group for
    every group index read and for no other number. *)
Theorem snapshot_places_each_pair_once c reads cache v :
  Promise_all reads = Ok v ->
  PairsCache.pairsCache cache = Some (pairs v) ->
  PairsCache.unique_names (pairs v) ->
  exists snap,
    getSnapshot c reads cache = (Ok snap, cache) /\
    (forall g, is_Some (groups snap !! groupKey g) <-> g ∈ groupIndexes v) /\
    (forall g grp i p,
       groups snap !! groupKey g = Some grp -> pairs v !! i = Some p ->
       group_groupIndex grp = g /\
       group_pairs grp !! PairsCache.pairName p =
         if bool_decide (groupIndex p = g) then Some (pairDataOf v i p) else None).
Proof.
  intros Hv Hc Hu. unfold getSnapshot. rewrite Hv.
  destruct (buildGroups_cached c v cache (pairs v) (groupIndexes v) ∅ Hc) as (m & Hm & Hl).
  rewrite Hm. simpl. eexists. split; [reflexivity|]. simpl. split.
  - intros g. rewrite Hl. destruct (decide (g ∈ groupIndexes v)) as [Hin|Hn].
    + rewrite bool_decide_eq_true_2 by auto. split; eauto.
    + rewrite bool_decide_eq_false_2, lookup_empty by auto.
      split; [intros [? ?]; discriminate | contradiction].
  - intros g grp i p Hg Hp. rewrite Hl in Hg.
    destruct (bool_decide (g ∈ groupIndexes v)); [|rewrite lookup_empty in Hg; discriminate].
    injection Hg as <-. simpl. split; auto.
    now apply groupPairs_of_group.
Qed.

Lemma snapshot_places_each_pair_once_witness :
  exists v snap,
    Promise_all sample_reads = Ok v /\
    PairsCache.pairsCache PairsCache.sample_cache = Some (pairs v) /\
    PairsCache.unique_names (pairs v) /\
    getSnapshot PairsCache.sample_ledger sample_reads PairsCache.sample_cache =
      (Ok snap, PairsCache.sample_cache) /\
    is_Some (groups snap !! groupKey 1) /\ ¬ is_Some (groups snap !! groupKey 2).
Proof.
  destruct (Promise_all sample_reads) as [v|e] eqn:Hv; [|vm_compute in Hv; discriminate].
  assert (Hp : pairs v = default ∅ (PairsCache.pairsCache PairsCache.sample_cache)).
  { vm_compute in Hv. injection Hv as <-. vm_compute. reflexivity. }
  assert (Hg : groupIndexes v = [0; 1]).
  { vm_compute in Hv. injection Hv as <-. reflexivity. }
  assert (Hc : PairsCache.pairsCache PairsCache.sample_cache = Some (pairs v)).
  { rewrite Hp. vm_compute. reflexivity. }
  assert (Hu : PairsCache.unique_names (pairs v)).
  { rewrite Hp. apply unique_names_NoDup. refine (bool_decide_unpack _ _). vm_compute. exact I. }
  destruct (snapshot_places_each_pair_once PairsCache.sample_ledger sample_reads
              PairsCache.sample_cache v Hv Hc Hu) as (snap & Hs & Hgroups & _).
  exists v, snap. split; [reflexivity|]. split; [exact Hc|]. split; [exact Hu|].
  split; [exact Hs|]. split.
  - apply Hgroups. rewrite Hg. right. left.
  - intros H. apply Hgroups in H. rewrite Hg in H.
    repeat (apply elem_of_cons in H as [H|H]; [discriminate|]).
    now apply elem_of_nil in H.
Defined.

(** X15. [getGroupSnapshot] builds a whole snapshot and reads one key of
    it: it is rejected whenever [getSnapshot] is, so a failure of a read
    that has nothing to do with the group fails the call; when the reads
    are fulfilled over a populated cache, it yields the group with that
    index if the index is among the group indexes read, and [undefined]
    otherwise. *)
Theorem getGroupSnapshot_lookup c reads cache g :
  (all_fulfilled reads = false ->
     exists e, getGroupSnapshot c reads g cache = (Err e, cache)) /\
  (forall v cached,
     Promise_all reads = Ok v -> PairsCache.pairsCache cache = Some cached ->
     getGroupSnapshot c reads g cache =
       (Ok (if bool_decide (g ∈ groupIndexes v)
            then Some (groupOf v g (PairsCache.pairsInGroupOf cached g))
            else None), cache)).
Proof.
  unfold getGroupSnapshot, getSnapshot. split.
  - intros Hf. destruct (Promise_all_rejected reads Hf) as [e ->]. eauto.
  - intros v cached -> Hc.
    destruct (buildGroups_cached c v cache cached (groupIndexes v) ∅ Hc) as (m & -> & Hl).
    simpl. rewrite Hl, lookup_empty. reflexivity.
Qed.

Lemma getGroupSnapshot_lookup_witness :
  all_fulfilled sample_reads_rejected = false /\
  (exists e, getGroupSnapshot PairsCache.sample_ledger sample_reads_rejected 0
               PairsCache.sample_cache = (Err e, PairsCache.sample_cache)) /\
  fst (getGroupSnapshot PairsCache.sample_ledger sample_reads 7 PairsCache.sample_cache) =
    Ok None.
Proof.
  destruct (getGroupSnapshot_lookup PairsCache.sample_ledger sample_reads_rejected
              PairsCache.sample_cache 0) as [H1 _].
  split; [reflexivity|]. split; [apply H1; reflexivity|].
  vm_compute. reflexivity.
Defined.

End SnapshotGroups.

(** ** Looking a pair up in a snapshot *)

Section PairSnapshotFacts.
Import Js Types SnapshotRPC PairSnapshot.

Lemma has_slash_append a b : has_slash (String.append a (String.append "/" b)) = true.
Proof. induction a as [|x a IH]; simpl; auto. rewrite IH. apply orb_true_r. Qed.

Lemma pairName_not_inherited p : PairsCache.pairName p ∉ TradeRPC.Object_prototype.
Proof.
  intros Hin.
  assert (Hall : Forall (fun s => has_slash s = false) TradeRPC.Object_prototype)
    by (repeat constructor).
  rewrite Forall_forall in Hall. specialize (Hall _ Hin).
  unfold PairsCache.pairName in Hall. rewrite has_slash_append in Hall. discriminate.
Qed.

Lemma insertion_order_elem keys : forall seen g,
  g ∈ insertion_order keys seen <-> g ∈ keys /\ g ∉ seen.
Proof.
  induction keys as [|k keys IH]; intros seen g; simpl.
  - split; [intros H; now apply elem_of_nil in H | intros [H _]; now apply elem_of_nil in H].
  - destruct (decide (k ∈ seen)) as [Hk|Hk].
    + rewrite bool_decide_eq_true_2 by auto. rewrite IH, elem_of_cons.
      split; [intros [? ?]; auto | intros [[->|?] ?]; [contradiction | auto]].
    + rewrite bool_decide_eq_false_2 by auto. rewrite elem_of_cons, IH.
      rewrite not_elem_of_cons. split.
      * intros [->|(? & ? & ?)]; split; auto; [left | now right].
      * intros [H Hn]. destruct (decide (g = k)) as [->|Hne]; auto.
        apply elem_of_cons in H as [->|H]; [contradiction|]. right. auto.
Qed.

Lemma insertion_order_nonempty k keys : insertion_order (k :: keys) [] <> [].
Proof.
  intros E. assert (H : k ∈ insertion_order (k :: keys) []).
  { apply insertion_order_elem. split; [left | apply not_elem_of_nil]. }
  rewrite E in H. now apply elem_of_nil in H.
Qed.

(** The loop returns the value of the only group in which the read is
    not [undefined], and [undefined] when there is none. *)
Lemma findPair_spec (P : nat -> PairLookup) snap name order :
  (forall g, g ∈ order -> exists grp,
     groups snap !! groupKey g = Some grp /\ pairs_property (group_pairs grp) name = P g) ->
  (forall g, g ∈ order -> P g = NotFound) ->
  findPair (Object_values snap order) name = NotFound.
Proof.
  unfold Object_values. induction order as [|g order IH]; intros Hg Hall; simpl; auto.
  destruct (Hg g ltac:(left)) as (grp & -> & Hp). simpl.
  rewrite Hp, (Hall g) by left.
  apply IH; intros g' Hg'; [apply Hg | apply Hall]; now right.
Qed.

Lemma findPair_first (P : nat -> PairLookup) snap name order x :
  (forall g, g ∈ order -> exists grp,
     groups snap !! groupKey g = Some grp /\ pairs_property (group_pairs grp) name = P g) ->
  order <> [] ->
  (forall g, g ∈ order -> P g = x \/ P g = NotFound) ->
  (exists g, g ∈ order /\ P g = x) ->
  findPair (Object_values snap order) name = x.
Proof.
  unfold Object_values. induction order as [|g order IH]; intros Hg Hne Hall Hex;
    [contradiction|]. simpl.
  destruct (Hg g ltac:(left)) as (grp & -> & Hp). simpl. rewrite Hp.
  destruct (Hall g ltac:(left)) as [Hx|Hn].
  - rewrite Hx. destruct x; auto.
    (* the value is [NotFound] itself *)
    fold (Object_values snap order).
    apply (findPair_spec P); [intros g' Hg'; apply Hg; now right|].
    intros g' Hg'. destruct (Hall g' ltac:(now right)) as [H|H]; auto.
  - rewrite Hn. destruct Hex as (g0 & Hin & Hg0).
    apply elem_of_cons in Hin as [->|Hin].
    + rewrite Hn in Hg0. subst x.
      fold (Object_values snap order).
      apply (findPair_spec P); [intros g' Hg'; apply Hg; now right|].
      intros g' Hg'. destruct (Hall g' ltac:(now right)) as [H|H]; auto.
    + apply IH; eauto.
      * intros g' Hg'. apply Hg. now right.
      * intros ->. now apply elem_of_nil in Hin.
      * intros g' Hg'. apply Hall. now right.
Qed.

(** X16. [getPairSnapshot] over a populated cache with unique pair names,
    from reads that were all fulfilled and returned that catalog: the name
    of a pair whose group is among the group indexes read yields the data
    of that pair; a name that no pair carries yields [undefined], unless
    it is the name of a member every object inherits, such as
    ["constructor"] or ["toString"]: then, as soon as the snapshot has a
    group, the caller is handed that inherited member instead of
    [undefined]. *)
Theorem getPairSnapshot_lookup c reads cache v :
  Promise_all reads = Ok v ->
  PairsCache.pairsCache cache = Some (pairs v) ->
  PairsCache.unique_names (pairs v) ->
  (forall i p, pairs v !! i = Some p -> groupIndex p ∈ groupIndexes v ->
     getPairSnapshot c reads (PairsCache.pairName p) cache =
       (Ok (Found (pairDataOf v i p)), cache)) /\
  (forall name, (forall i p, pairs v !! i = Some p -> PairsCache.pairName p <> name) ->
     getPairSnapshot c reads name cache =
       (Ok (if bool_decide (name ∈ TradeRPC.Object_prototype)
            then match groupIndexes v with [] => NotFound | _ => Inherited name end
            else NotFound), cache)).
Proof.
  intros Hv Hc Hu.
  destruct (buildGroups_cached c v cache (pairs v) (groupIndexes v) ∅ Hc) as (m & Hm & Hl).
  assert (Hget : forall name, getPairSnapshot c reads name cache =
            (Ok (findPair (Object_values {| groups := m |}
                             (insertion_order (groupIndexes v) [])) name), cache)).
  { intros name. unfold getPairSnapshot, getSnapshot. rewrite Hv, Hm. reflexivity. }
  assert (Hgrp : forall name g, g ∈ insertion_order (groupIndexes v) [] ->
            exists grp, groups {| groups := m |} !! groupKey g = Some grp /\
              pairs_property (group_pairs grp) name =
              pairs_property (groupPairs v (PairsCache.pairsInGroupOf (pairs v) g)) name).
  { intros name g Hg. apply insertion_order_elem in Hg as [Hg _].
    simpl. rewrite Hl, bool_decide_eq_true_2 by auto. eexists. split; reflexivity. }
  split.
  - intros i p Hp Hin. rewrite Hget. do 2 f_equal.
    apply (findPair_first
             (fun g => pairs_property (groupPairs v (PairsCache.pairsInGroupOf (pairs v) g))
                         (PairsCache.pairName p))); auto.
    + intros E. assert (H : groupIndex p ∈ insertion_order (groupIndexes v) []).
      { apply insertion_order_elem. split; auto. apply not_elem_of_nil. }
      rewrite E in H. now apply elem_of_nil in H.
    + intros g _. unfold pairs_property. rewrite (groupPairs_of_group v g i p Hu Hp).
      destruct (decide (groupIndex p = g)) as [Hg|Hg].
      * rewrite bool_decide_eq_true_2 by auto. now left.
      * rewrite bool_decide_eq_false_2 by auto. right.
        now rewrite bool_decide_eq_false_2 by apply pairName_not_inherited.
    + exists (groupIndex p). split.
      * apply insertion_order_elem. split; auto. apply not_elem_of_nil.
      * unfold pairs_property. rewrite (groupPairs_of_group v _ i p Hu Hp).
        now rewrite bool_decide_eq_true_2.
  - intros name Hname. rewrite Hget. do 2 f_equal.
    assert (Hown : forall g,
              groupPairs v (PairsCache.pairsInGroupOf (pairs v) g) !! name = None).
    { intros g. destruct (groupPairs v _ !! name) as [pd|] eqn:E; auto.
      apply groupPairs_lookup in E as (i & p & _ & Hp & Hn & _).
      exfalso. eapply Hname; eauto. }
    destruct (decide (name ∈ TradeRPC.Object_prototype)) as [Hin|Hn].
    + rewrite bool_decide_eq_true_2 by auto.
      destruct (groupIndexes v) as [|g0 gs] eqn:Hgs; [reflexivity|].
      apply (findPair_first
               (fun g => pairs_property (groupPairs v (PairsCache.pairsInGroupOf (pairs v) g))
                           name)).
      * apply Hgrp.
      * apply insertion_order_nonempty.
      * intros g _. left. unfold pairs_property.
        now rewrite Hown, bool_decide_eq_true_2.
      * exists g0. split.
        -- apply insertion_order_elem. split; [left | apply not_elem_of_nil].
        -- unfold pairs_property. now rewrite Hown, bool_decide_eq_true_2.
    + rewrite bool_decide_eq_false_2 by auto.
      apply (findPair_spec
               (fun g => pairs_property (groupPairs v (PairsCache.pairsInGroupOf (pairs v) g))
                           name)); auto.
      intros g _. unfold pairs_property. now rewrite Hown, bool_decide_eq_false_2.
Qed.

Lemma getPairSnapshot_lookup_witness :
  Promise_all sample_reads = Ok sample_values /\
  PairsCache.pairsCache PairsCache.sample_cache = Some (pairs sample_values) /\
  PairsCache.unique_names (pairs sample_values) /\
  getPairSnapshot PairsCache.sample_ledger sample_reads "constructor" PairsCache.sample_cache =
    (Ok (Inherited "constructor"), PairsCache.sample_cache).
Proof.
  assert (Hv : Promise_all sample_reads = Ok sample_values) by (vm_compute; reflexivity).
  assert (Hc : PairsCache.pairsCache PairsCache.sample_cache = Some (pairs sample_values))
    by (vm_compute; reflexivity).
  assert (Hu : PairsCache.unique_names (pairs sample_values)).
  { apply unique_names_NoDup. refine (bool_decide_unpack _ _). vm_compute. exact I. }
  split; [exact Hv|]. split; [exact Hc|]. split; [exact Hu|].
  destruct (getPairSnapshot_lookup PairsCache.sample_ledger sample_reads
              PairsCache.sample_cache sample_values Hv Hc Hu) as [_ H].
  rewrite (H "constructor").
  - reflexivity.
  - intros i p Hp E. pose proof (pairName_not_inherited p) as Hn.
    rewrite E in Hn. apply Hn. left.
Defined.

End PairSnapshotFacts.

(** ** Edges of the decimal conversion *)

Section ConversionEdges.
Import Js Types Binary64.

Lemma BigInt_of_floor_error x e : BigInt_of_floor x = Err e -> e = RangeError.
Proof.
  unfold BigInt_of_floor. destruct (Prim2SF x); intros H; congruence.
Qed.

Lemma BigInt_of_floor_non_finite x :
  Number_isFinite x = false -> BigInt_of_floor x = Err RangeError.
Proof.
  unfold Number_isFinite, BigInt_of_floor. now destruct (Prim2SF x).
Qed.

Lemma BigInt_of_floor_Ok x k : BigInt_of_floor x = Ok k -> Number_isFinite x = true.
Proof.
  unfold Number_isFinite, BigInt_of_floor. now destruct (Prim2SF x).
Qed.

Lemma mul_finite x y :
  Number_isFinite (x * y)%float = true ->
  Number_isFinite x = true /\ Number_isFinite y = true.
Proof.
  unfold Number_isFinite. rewrite mul_spec.
  destruct (Prim2SF x) as [| | |sx mx ex], (Prim2SF y) as [| | |sy my ey];
    simpl; intros H; try discriminate; auto.
Qed.

(** The sign of a rounded result is the sign it was given. *)
Lemma binary_round_aux_sign s m e l :
  match binary_round_aux prec emax s m e l with
  | S754_zero s' | S754_infinity s' | S754_finite s' _ _ => s' = s
  | S754_nan => True
  end.
Proof.
  unfold binary_round_aux.
  destruct (shr_fexp prec emax m e l) as [mrs' e'].
  destruct (shr_fexp prec emax _ e' loc_Exact) as [mrs'' e''].
  destruct (shr_m mrs''); auto.
  destruct (e'' <=? emax - prec)%Z; auto.
Qed.

Lemma nonneg_cases x :
  (0 <=? x)%float = true ->
  (exists s, Prim2SF x = S754_zero s) \/ Prim2SF x = S754_infinity false \/
  (exists m e, Prim2SF x = S754_finite false m e).
Proof.
  rewrite FloatAxioms.leb_spec. change (Prim2SF 0) with (S754_zero false).
  destruct (Prim2SF x) as [s|s| |s m e]; simpl; try discriminate; eauto.
  - destruct s; try discriminate. auto.
  - destruct s; try discriminate. eauto 6.
Qed.

Lemma floor_of_nonneg_product v y my ey k :
  Prim2SF y = S754_finite false my ey ->
  (0 <=? v)%float = true ->
  BigInt_of_floor (v * y)%float = Ok k -> (0 <= k)%Z.
Proof.
  intros Hy Hv. unfold BigInt_of_floor. rewrite mul_spec, Hy.
  destruct (nonneg_cases v Hv) as [[s ->]|[->|(m & e & ->)]]; simpl.
  - intros [= <-]. lia.
  - discriminate.
  - pose proof (binary_round_aux_sign (xorb false false) (Zpos (m * my)) (e + ey) loc_Exact)
      as Hs.
    destruct (binary_round_aux _ _ _ _ _ _) as [s'|s'| |s' m' e']; try discriminate.
    + intros [= <-]. lia.
    + simpl in Hs. subst s'. intros [= <-]. simpl. apply Z.shiftl_nonneg. lia.
Qed.

(** X17. A display value that is not negative never encodes to a negative
    integer: for [v >= 0] (which excludes [NaN]), whenever [toBlockchain6]
    or [toBlockchain10] returns, the integer is at least 0. *)
Theorem toBlockchain_of_nonnegative v :
  (0 <=? v)%float = true ->
  (forall k, toBlockchain6 v = Ok k -> (0 <= k)%Z) /\
  (forall k, toBlockchain10 v = Ok k -> (0 <= k)%Z).
Proof.
  intros Hv. split; intros k; unfold toBlockchain6, toBlockchain10.
  - apply (floor_of_nonneg_product v 1e6 8589934592000000 (-33)); [reflexivity | exact Hv].
  - apply (floor_of_nonneg_product v 1e10 5242880000000000 (-19)); [reflexivity | exact Hv].
Qed.

Lemma toBlockchain_of_nonnegative_witness :
  (0 <=? 12.5)%float = true /\ toBlockchain6 12.5 = Ok 12500000%Z /\ (0 <= 12500000)%Z.
Proof.
  assert (H0 : (0 <=? 12.5)%float = true) by reflexivity.
  assert (H1 : toBlockchain6 12.5 = Ok 12500000%Z) by (vm_compute; reflexivity).
  split; [exact H0|]. split; [exact H1|].
  exact (proj1 (toBlockchain_of_nonnegative 12.5%float H0) _ H1).
Defined.

End ConversionEdges.

(** ** The decimal round trip *)

Section RoundTrip.
Import Js Types Binary64.
Local Open Scope Z_scope.
Local Open Scope R_scope.

Lemma Rabs_bounds a b : Rabs a <= b -> - b <= a <= b.
Proof. unfold Rabs. destruct (Rcase_abs a); lra. Qed.

Lemma digits_unique p n :
  (2 ^ (n - 1) <= Zpos p < 2 ^ n)%Z -> Zpos (digits2_pos p) = n.
Proof.
  intros [H1 H2]. destruct (digits2_pos_bounds p) as [B1 B2].
  set (d := Zpos (digits2_pos p)) in *.
  assert (Hn : (0 < n)%Z).
  { destruct (Z_lt_le_dec 0 n) as [|Hle]; auto.
    destruct (Z.eq_dec n 0%Z) as [->|Hne]; [simpl in H2; lia|].
    rewrite Z.pow_neg_r in H2 by lia. lia. }
  destruct (Z_lt_le_dec d n) as [Hlt|Hge].
  - assert (2 ^ d <= 2 ^ (n - 1))%Z by (apply Z.pow_le_mono_r; lia). lia.
  - destruct (Z_lt_le_dec n d) as [Hlt|Hle]; [|lia].
    assert (2 ^ n <= 2 ^ (d - 1))%Z by (apply Z.pow_le_mono_r; lia). lia.
Qed.

Lemma digits_lower p n : (0 <= n)%Z -> (2 ^ n <= Zpos p)%Z -> (n < Zpos (digits2_pos p))%Z.
Proof.
  intros Hn H. destruct (digits2_pos_bounds p) as [_ B2].
  destruct (Z_lt_le_dec n (Zpos (digits2_pos p))) as [|Hle]; auto.
  assert (2 ^ Zpos (digits2_pos p) <= 2 ^ n)%Z by (apply Z.pow_le_mono_r; lia). lia.
Qed.

(** The magnitude of a located value. *)
Lemma located_magnitude v p e ix :
  located v (Zpos p) e ix ->
  bpow (Zpos (digits2_pos p) + e - 1) <= v < bpow (Zpos (digits2_pos p) + e).
Proof.
  intros (Hlo & Hhi & _). destruct (val_digits p e) as [H1 _].
  split; [lra|].
  apply Rlt_le_trans with (val (Zpos p + 1) e); auto.
  unfold val. replace (Zpos (digits2_pos p) + e)%Z with (Zpos (digits2_pos p) + e)%Z by lia.
  rewrite bpow_add. apply Rmult_le_compat_r; [apply Rlt_le, bpow_pos|].
  rewrite bpow_IZR by lia. apply IZR_le.
  destruct (digits2_pos_bounds p) as [_ B2]. lia.
Qed.

Lemma exact_located m e : located (val m e) m e (negb (exact_loc loc_Exact)).
Proof.
  simpl. repeat split; auto; try lra; try discriminate.
  unfold val. rewrite plus_IZR. pose proof (bpow_pos e). nra.
Qed.

(** Rounding to nearest in the normal range: the result is finite and
    differs from the value by at most one unit in the last place. *)
Lemma round_relative v m e l :
  (0 < m)%Z -> (53 <= Zdigits2 m)%Z ->
  located v m e (negb (exact_loc l)) ->
  bpow (-1021) <= v < bpow 1023 ->
  exists p e3,
    binary_round_aux prec emax false m e l = S754_finite false p e3 /\
    Rabs (val (Zpos p) e3 - v) <= v * bpow (-52).
Proof.
  intros Hm Hd Hloc [Hvlo Hvhi].
  destruct m as [|q0|q0]; try lia. simpl Zdigits2 in Hd.
  set (d := Zpos (digits2_pos q0)) in *.
  destruct (located_magnitude v q0 e _ Hloc) as [Hmag1 Hmag2]. fold d in Hmag1, Hmag2.
  assert (HdeLo : (-1021 < d + e)%Z).
  { apply bpow_lt_inv. lra. }
  assert (HdeHi : (d + e - 1 < 1023)%Z).
  { apply bpow_lt_inv. lra. }
  set (E := (d + e - 53)%Z).
  assert (HE : fexp prec emax (Zdigits2 (Zpos q0) + e) = E).
  { rewrite fexp64_eq. simpl Zdigits2. fold d. unfold E. lia. }
  unfold binary_round_aux.
  pose proof (shr_fexp_located v (Zpos q0) e l ltac:(lia) Hloc) as H1. cbv zeta in H1.
  rewrite HE in H1.
  destruct (shr_fexp prec emax (Zpos q0) e l) as [mrs1 e1]. simpl fst in H1; simpl snd in H1.
  destruct H1 as ((Hlo & Hhi & _) & Hm1 & He1 & Hdiv & Hid).
  assert (He1' : e1 = E) by (unfold E in *; lia). clear He1. subst e1.
  destruct (digits2_pos_bounds q0) as [B1 B2]. fold d in B1, B2.
  assert (Hm1b : (2 ^ 52 <= shr_m mrs1 < 2 ^ 53)%Z).
  { destruct (Z_lt_le_dec e E) as [Hlt|Hge].
    - rewrite (Hdiv Hlt).
      assert (Hs : (E - e = d - 53)%Z) by (unfold E; lia). rewrite Hs.
      assert (Hp : (0 < 2 ^ (d - 53))%Z) by (apply Z.pow_pos_nonneg; lia).
      split.
      + apply Z.div_le_lower_bound; auto.
        rewrite <- Z.pow_add_r by lia. replace (d - 53 + 52)%Z with (d - 1)%Z by lia. lia.
      + apply Z.div_lt_upper_bound; auto.
        rewrite <- Z.pow_add_r by lia. replace (d - 53 + 53)%Z with d by lia. lia.
    - rewrite (Hid Hge). assert (d = 53%Z) by (unfold E in *; lia).
      replace (2 ^ 52)%Z with (2 ^ (d - 1))%Z by (f_equal; lia).
      replace (2 ^ 53)%Z with (2 ^ d)%Z by (f_equal; lia). lia. }
  set (m2 := round_nearest_even (shr_m mrs1) (loc_of_shr_record mrs1)).
  destruct (round_nearest_even_spec (shr_m mrs1) (loc_of_shr_record mrs1)) as [Hr1 _].
  fold m2 in Hr1.
  assert (Hm2b : (2 ^ 52 <= m2 <= 2 ^ 53)%Z) by lia.
  assert (Herr : Rabs (val m2 E - v) <= bpow E).
  { assert (Hstep : val (shr_m mrs1 + 1) E = val (shr_m mrs1) E + bpow E).
    { unfold val. rewrite plus_IZR. ring. }
    assert (H2lo : val (shr_m mrs1) E <= val m2 E) by (apply val_le_mono; lia).
    assert (H2hi : val m2 E <= val (shr_m mrs1 + 1) E) by (apply val_le_mono; lia).
    apply Rabs_le. lra. }
  pose proof (shr_fexp_located (val m2 E) m2 E loc_Exact ltac:(lia) (exact_located m2 E)) as H3.
  cbv zeta in H3.
  destruct (shr_fexp prec emax m2 E loc_Exact) as [mrs3 e3]. simpl fst in H3; simpl snd in H3.
  destruct H3 as ((Hlo3 & Hhi3 & Hex3 & Hin3) & Hm3 & He3 & Hdiv3 & Hid3).
  assert (Hfin : val (shr_m mrs3) e3 = val m2 E /\ (0 < shr_m mrs3)%Z /\ (e3 <= E + 1)%Z).
  { destruct m2 as [|p2|p2] eqn:Hp2; try lia.
    simpl Zdigits2 in *. rewrite fexp64_eq in *.
    destruct (Z.eq_dec (Zpos p2) (2 ^ 53)%Z) as [Heq|Hne].
    - assert (Hd2 : Zpos (digits2_pos p2) = 54%Z).
      { apply digits_unique. rewrite Heq. split; [reflexivity|].
        apply Z.pow_lt_mono_r; lia. }
      rewrite Hd2 in *.
      assert (Hlt : (E < Z.max (54 + E - 53) (-1074))%Z) by (unfold E; lia).
      specialize (Hdiv3 Hlt).
      replace (Z.max (54 + E - 53) (-1074) - E)%Z with 1%Z in Hdiv3 by (unfold E; lia).
      assert (Hm3v : shr_m mrs3 = (2 ^ 52)%Z).
      { rewrite Hdiv3, Heq. reflexivity. }
      assert (He3v : e3 = (E + 1)%Z) by (unfold E in *; lia).
      rewrite Hm3v, He3v. repeat split; try lia.
      rewrite Heq. unfold val. rewrite bpow_add.
      change (2 ^ 53)%Z with (2 ^ 52 * 2)%Z. rewrite mult_IZR.
      unfold bpow at 2. simpl. lra.
    - assert (Hd2 : Zpos (digits2_pos p2) = 53%Z).
      { apply digits_unique. change (53 - 1)%Z with 52%Z. lia. }
      rewrite Hd2 in *.
      assert (Hge : (Z.max (53 + E - 53) (-1074) <= E)%Z) by (unfold E; lia).
      specialize (Hid3 Hge).
      assert (He3v : e3 = E) by (unfold E in *; lia).
      rewrite Hid3, He3v. repeat split; try lia. }
  destruct Hfin as (Hv3 & Hpos3 & He3b).
  destruct (shr_m mrs3) as [|p|p] eqn:Hp; try lia.
  exists p, e3. split.
  - replace (e3 <=? emax - prec)%Z with true; auto.
    symmetry. apply Z.leb_le. unfold emax, prec, E in *. lia.
  - rewrite Hv3. apply Rle_trans with (bpow E); auto.
    unfold E. replace (d + e - 53)%Z with ((d + e - 1) + (-52))%Z by lia.
    rewrite bpow_add. apply Rmult_le_compat_r; [apply Rlt_le, bpow_pos | lra].
Qed.

(** The quotient and the product of two positive values in the normal
    range, as [SpecFloat] computes them. *)
Lemma SFdiv_relative mx ex my ey :
  let v := val (Zpos mx) ex / val (Zpos my) ey in
  bpow (-1021) <= v < bpow 1023 ->
  exists p e3,
    SF64div (S754_finite false mx ex) (S754_finite false my ey) = S754_finite false p e3 /\
    Rabs (val (Zpos p) e3 - v) <= v * bpow (-52).
Proof.
  intros v Hv. unfold SF64div, SFdiv. simpl xorb.
  pose proof (div_core_located mx ex my ey) as H.
  destruct (SFdiv_core_binary prec emax (Zpos mx) ex (Zpos my) ey) as [[q e'] l].
  destruct H as (Hq & He' & Hloc). fold v in Hloc.
  set (dx := Zpos (digits2_pos mx)) in *. set (dy := Zpos (digits2_pos my)) in *.
  destruct (val_digits mx ex) as [X1 X2]. destruct (val_digits my ey) as [Y1 Y2].
  fold dx in X1, X2. fold dy in Y1, Y2.
  pose proof (bpow_pos (dy + ey)) as Py. pose proof (bpow_pos (dy + ey - 1)) as Py'.
  pose proof (val_Zpos my ey) as Pvy. pose proof (val_Zpos mx ex) as Pvx.
  set (D := (dx + ex - (dy + ey))%Z) in *.
  (* the magnitude of the quotient *)
  assert (Hvlo : bpow (D - 1) < v).
  { unfold v. apply Rmult_lt_reg_r with (val (Zpos my) ey); auto.
    unfold Rdiv. rewrite Rmult_assoc, Rinv_l, Rmult_1_r by lra.
    apply Rlt_le_trans with (bpow (D - 1) * bpow (dy + ey)).
    - apply Rmult_lt_compat_l; [apply bpow_pos | lra].
    - rewrite <- bpow_add. replace (D - 1 + (dy + ey))%Z with (dx + ex - 1)%Z by (unfold D; lia).
      exact X1. }
  assert (Hvhi : v < bpow (D + 1)).
  { unfold v. apply Rmult_lt_reg_r with (val (Zpos my) ey); auto.
    unfold Rdiv. rewrite Rmult_assoc, Rinv_l, Rmult_1_r by lra.
    apply Rlt_le_trans with (bpow (D + 1) * bpow (dy + ey - 1)).
    - rewrite <- bpow_add. replace (D + 1 + (dy + ey - 1))%Z with (dx + ex)%Z by (unfold D; lia).
      exact X2.
    - apply Rmult_le_compat_l; [apply Rlt_le, bpow_pos | lra]. }
  assert (HD : (-1021 <= D)%Z).
  { assert (Hlt : bpow (-1021) < bpow (D + 1)) by lra. apply bpow_lt_inv in Hlt. lia. }
  rewrite fexp64_eq in He'.
  assert (He'' : (e' <= D - 53)%Z) by lia.
  (* the quotient has at least 53 digits *)
  assert (Hq52 : (2 ^ 52 <= q)%Z).
  { destruct Hloc as (_ & Hhi & _).
    assert (Hlt : bpow (D - 1) < val (q + 1) e') by lra.
    unfold val in Hlt.
    replace (D - 1)%Z with ((D - 1 - e') + e')%Z in Hlt by lia.
    rewrite bpow_add in Hlt. apply Rmult_lt_reg_r in Hlt; [|apply bpow_pos].
    rewrite bpow_IZR in Hlt by lia. apply lt_IZR in Hlt.
    assert (2 ^ 52 <= 2 ^ (D - 1 - e'))%Z by (apply Z.pow_le_mono_r; lia). lia. }
  destruct q as [|pq|pq]; try lia.
  apply round_relative; auto; try lia.
  simpl Zdigits2. pose proof (digits_lower pq 52 ltac:(lia) Hq52). lia.
Qed.

Lemma SFmul_relative mx ex my ey :
  (2 ^ 52 <= Zpos my)%Z ->
  let v := val (Zpos mx) ex * val (Zpos my) ey in
  bpow (-1021) <= v < bpow 1023 ->
  exists p e3,
    SF64mul (S754_finite false mx ex) (S754_finite false my ey) = S754_finite false p e3 /\
    Rabs (val (Zpos p) e3 - v) <= v * bpow (-52).
Proof.
  intros Hmy v Hv. unfold SF64mul, SFmul. simpl xorb.
  assert (Hval : val (Zpos (mx * my)) (ex + ey) = v).
  { unfold v, val. rewrite Pos2Z.inj_mul, mult_IZR, bpow_add. ring. }
  apply round_relative; try lia.
  - simpl Zdigits2.
    assert (H : (2 ^ 52 <= Zpos (mx * my))%Z) by (rewrite Pos2Z.inj_mul; nia).
    pose proof (digits_lower _ 52 ltac:(lia) H). lia.
  - rewrite <- Hval. apply exact_located.
  - exact Hv.
Qed.

Lemma digits_shift m n :
  Zpos (digits2_pos (Pos.iter xO m n)) = (Zpos (digits2_pos m) + Zpos n)%Z.
Proof.
  induction n as [|n IH] using Pos.peano_ind.
  - simpl. lia.
  - rewrite Pos.iter_succ. simpl digits2_pos. rewrite Pos2Z.inj_succ, IH. lia.
Qed.

(** Rounding a number that is already in the format returns it. *)
Lemma binary_round_aux_canonical s p e :
  canonical64 p e -> (e <= emax - prec)%Z ->
  binary_round_aux prec emax s (Zpos p) e loc_Exact = S754_finite s p e.
Proof.
  unfold canonical64. intros Hc He.
  assert (Hs : shr_fexp prec emax (Zpos p) e loc_Exact =
               (shr_record_of_loc (Zpos p) loc_Exact, e)).
  { unfold shr_fexp. simpl Zdigits2. rewrite Hc, Z.sub_diag. reflexivity. }
  unfold binary_round_aux. rewrite Hs. simpl. rewrite Hs. simpl.
  now rewrite (proj2 (Z.leb_le _ _) He).
Qed.

(** [Number(k)] is exact for a positive integer below [2^53]. *)
Lemma Number_of_BigInt_exact k :
  (0 < k < 2 ^ 53)%Z ->
  exists p e,
    Prim2SF (Number_of_BigInt k) = S754_finite false p e /\ val (Zpos p) e = IZR k.
Proof.
  intros [Hk0 Hk]. destruct k as [|m|m]; try lia.
  unfold Number_of_BigInt, binary_normalize, binary_round.
  set (d := Zpos (digits2_pos m)).
  destruct (digits2_pos_bounds m) as [B1 B2]. fold d in B1, B2.
  assert (Hd : (d <= 53)%Z).
  { destruct (Z_le_gt_dec d 53) as [|Hgt]; auto.
    assert (2 ^ 53 <= 2 ^ (d - 1))%Z by (apply Z.pow_le_mono_r; lia). lia. }
  assert (Hd0 : (0 < d)%Z) by (unfold d; lia).
  rewrite fexp64_eq. fold d. replace (Z.max (d + 0 - 53) (-1074)) with (d - 53)%Z by lia.
  pose proof (shl_align_val m 0 (d - 53)) as Hval.
  assert (Hcan : canonical64 (fst (shl_align m 0 (d - 53))) (snd (shl_align m 0 (d - 53))) /\
                 (snd (shl_align m 0 (d - 53)) <= emax - prec)%Z).
  { unfold shl_align, canonical64. rewrite fexp64_eq.
    destruct (d - 53 - 0)%Z as [|n|n] eqn:Hn; simpl fst; simpl snd.
    - fold d. unfold emax, prec. lia.
    - lia.
    - rewrite digits_shift. fold d. unfold emax, prec. lia. }
  destruct (shl_align m 0 (d - 53)) as [mz ez]. simpl fst in *; simpl snd in *.
  destruct Hcan as [Hcan Hez].
  rewrite (binary_round_aux_canonical false mz ez Hcan Hez).
  exists mz, ez. split.
  - apply Prim2SF_SF2Prim. unfold FloatAxioms.valid_binary, SpecFloat.valid_binary.
    unfold SpecFloat.bounded, SpecFloat.canonical_mantissa. unfold canonical64 in Hcan.
    rewrite Hcan, Z.eqb_refl. simpl. now apply Z.leb_le.
  - rewrite Hval. unfold val. rewrite bpow_0. ring.
Qed.

(** Decoding an amount and encoding it again, on the reals: the two
    roundings move the value by less than one unit. *)
Lemma two_roundings k c X Y :
  1 <= k <= bpow 50 -> 0 < c ->
  Rabs (X - k / c) <= k / c * bpow (-52) ->
  Rabs (Y - X * c) <= X * c * bpow (-52) ->
  k - 1 < Y < k + 1 /\ k / 2 <= X * c <= 2 * k.
Proof.
  intros [Hk1 Hk2] Hc HX HY.
  set (u := bpow (-52)) in *.
  assert (Hu0 : 0 < u) by apply bpow_pos.
  assert (Hu1 : u <= / 4).
  { unfold u. apply Rle_trans with (bpow (-2)); [apply bpow_le; lia|].
    unfold bpow. simpl. lra. }
  assert (Hku : k * u <= / 4).
  { apply Rle_trans with (bpow 50 * u); [apply Rmult_le_compat_r; lra|].
    unfold u. rewrite <- bpow_add. unfold bpow. simpl. lra. }
  set (t := k * u) in *.
  assert (Ht0 : 0 <= t) by (unfold t; nra).
  set (A := X * c) in *.
  assert (HA : k - t <= A <= k + t).
  { apply Rabs_bounds in HX.
    assert (E1 : (X - k / c) * c = A - k) by (unfold A; field; lra).
    assert (E2 : k / c * u * c = t) by (unfold t; field; lra).
    destruct HX as [L1 L2].
    apply (Rmult_le_compat_r c) in L1; [|lra].
    apply (Rmult_le_compat_r c) in L2; [|lra].
    rewrite E1 in L1, L2. rewrite E2 in L2.
    replace (- (k / c * u) * c) with (- t) in L1 by (unfold t; field; lra). lra. }
  apply Rabs_bounds in HY. fold A in HY.
  assert (HAu : A * u <= t + t * u).
  { replace (t + t * u) with ((k + t) * u) by (unfold t; ring).
    apply Rmult_le_compat_r; lra. }
  assert (Htu : t * u <= t) by nra.
  split; [split; lra | split; lra].
Qed.

Lemma floor_near k n Y :
  IZR n <= Y < IZR n + 1 -> IZR k - 1 < Y < IZR k + 1 -> n = k \/ n = (k - 1)%Z.
Proof.
  intros [N1 N2] [K1 K2].
  assert (H1 : IZR n < IZR (k + 1)) by (rewrite plus_IZR; lra).
  assert (H2 : IZR (k - 2) < IZR n) by (rewrite minus_IZR; lra).
  apply lt_IZR in H1, H2. lia.
Qed.

(** The decoder, for a divisor [c] given by its binary64 representation:
    the result is a positive number within one unit in the last place of
    the quotient. *)
Lemma decode_relative k (c : float) mc ec :
  Prim2SF c = S754_finite false mc ec ->
  1 <= val (Zpos mc) ec <= bpow 40 ->
  (0 < k < 2 ^ 53)%Z ->
  exists px ex,
    Prim2SF (Number_of_BigInt k / c)%float = S754_finite false px ex /\
    Rabs (val (Zpos px) ex - IZR k / val (Zpos mc) ec) <=
      IZR k / val (Zpos mc) ec * bpow (-52).
Proof.
  intros Hc [Hc1 Hc2] Hk53.
  set (C := val (Zpos mc) ec) in *.
  destruct (Number_of_BigInt_exact k Hk53) as (pa & ea & Ha & Hva).
  assert (HkR : 1 <= IZR k < bpow 53).
  { split; [apply IZR_le; lia|]. rewrite bpow_IZR by lia. apply IZR_lt. lia. }
  assert (Hq : bpow (-1021) <= val (Zpos pa) ea / C < bpow 1023).
  { rewrite Hva. split.
    - apply Rle_trans with (bpow (-40)).
      + apply bpow_le. lia.
      + apply Rmult_le_reg_r with C; [lra|].
        unfold Rdiv. rewrite Rmult_assoc, Rinv_l, Rmult_1_r by lra.
        apply Rle_trans with (bpow (-40) * bpow 40).
        * apply Rmult_le_compat_l; [apply Rlt_le, bpow_pos | lra].
        * rewrite <- bpow_add. replace (-40 + 40)%Z with 0%Z by lia. rewrite bpow_0. lra.
    - apply Rmult_lt_reg_r with C; [lra|].
      unfold Rdiv. rewrite Rmult_assoc, Rinv_l, Rmult_1_r by lra.
      apply Rlt_le_trans with (bpow 53); [lra|].
      apply Rle_trans with (bpow 1023 * 1); [|apply Rmult_le_compat_l;
        [apply Rlt_le, bpow_pos | lra]].
      rewrite Rmult_1_r. apply bpow_le. lia. }
  destruct (SFdiv_relative pa ea mc ec Hq) as (px & ex & Hx & Hxe).
  fold C in Hxe. rewrite Hva in Hxe.
  exists px, ex. split; auto.
  rewrite div_spec, Ha, Hc. exact Hx.
Qed.

(** The decoder followed by the encoder. *)
Lemma decode_encode k (c : float) mc ec :
  Prim2SF c = S754_finite false mc ec -> (2 ^ 52 <= Zpos mc)%Z ->
  1 <= val (Zpos mc) ec <= bpow 40 ->
  (0 < k <= 2 ^ 50)%Z ->
  BigInt_of_floor (Number_of_BigInt k / c * c)%float = Ok k \/
  BigInt_of_floor (Number_of_BigInt k / c * c)%float = Ok (k - 1)%Z.
Proof.
  intros Hc Hmc HC [Hk0 Hk].
  assert (Hk53 : (0 < k < 2 ^ 53)%Z).
  { split; auto. apply Z.le_lt_trans with (2 ^ 50)%Z; auto. apply Z.pow_lt_mono_r; lia. }
  destruct (decode_relative k c mc ec Hc HC Hk53) as (px & ex & Hx & Hxe).
  destruct HC as [Hc1 Hc2].
  set (C := val (Zpos mc) ec) in *.
  assert (HkR : 1 <= IZR k <= bpow 50).
  { split; [apply IZR_le; lia|]. rewrite bpow_IZR by lia. now apply IZR_le. }
  assert (Hprod : Rabs (val (Zpos px) ex * C - IZR k) <= IZR k * bpow (-52)).
  { apply Rabs_bounds in Hxe. destruct Hxe as [L1 L2].
    apply (Rmult_le_compat_r C) in L1; [|lra].
    apply (Rmult_le_compat_r C) in L2; [|lra].
    replace ((val (Zpos px) ex - IZR k / C) * C) with (val (Zpos px) ex * C - IZR k)
      in L1, L2 by (field; lra).
    replace (IZR k / C * bpow (-52) * C) with (IZR k * bpow (-52)) in L2 by (field; lra).
    replace (- (IZR k / C * bpow (-52)) * C) with (- (IZR k * bpow (-52))) in L1
      by (field; lra).
    apply Rabs_le. lra. }
  assert (Hu : IZR k * bpow (-52) <= / 4).
  { apply Rle_trans with (bpow 50 * bpow (-52)).
    - apply Rmult_le_compat_r; [apply Rlt_le, bpow_pos | lra].
    - rewrite <- bpow_add. unfold bpow. simpl. lra. }
  assert (Hm : bpow (-1021) <= val (Zpos px) ex * C < bpow 1023).
  { apply Rabs_bounds in Hprod. split.
    - apply Rle_trans with (bpow (-1)); [apply bpow_le; lia|].
      unfold bpow at 1. simpl. lra.
    - apply Rle_lt_trans with (bpow 51); [|apply bpow_lt; lia].
      replace 51%Z with (50 + 1)%Z by lia. rewrite bpow_succ. lra. }
  destruct (SFmul_relative px ex mc ec Hmc Hm) as (py & ey & Hy & Hye).
  fold C in Hye.
  destruct (two_roundings (IZR k) C (val (Zpos px) ex) (val (Zpos py) ey) HkR
              ltac:(lra) Hxe Hye) as [HY _].
  pose proof (BigInt_of_floor_floors (Number_of_BigInt k / c * c)%float) as Hfl.
  assert (Hrep : Prim2SF (Number_of_BigInt k / c * c)%float = S754_finite false py ey).
  { rewrite mul_spec, Hx, Hc. exact Hy. }
  unfold floors in Hfl.
  destruct (BigInt_of_floor (Number_of_BigInt k / c * c)%float) as [n|e] eqn:Hn.
  - destruct Hfl as [_ Hfl]. rewrite Hrep in Hfl. simpl in Hfl.
    destruct (floor_near k n _ Hfl HY) as [->| ->]; auto.
  - destruct Hfl as [_ Hfl]. rewrite Hrep in Hfl. discriminate.
Qed.

Lemma scale_value m c n e :
  (m = c * 2 ^ n)%Z -> (0 <= n)%Z -> e = (- n)%Z -> val m e = IZR c.
Proof.
  intros -> Hn ->. replace (- n)%Z with (0 - n)%Z by lia.
  rewrite val_shift by auto. unfold val. rewrite bpow_0. ring.
Qed.

(** X18. For an on-chain integer [k] with [0 <= k < 2^53], the values
    returned by [fromBlockchain6] and [fromBlockchain10] are finite
    numbers within one unit in the last place of [k / 10^6] and
    [k / 10^10]: the relative error is at most [2^-52]. *)
Theorem fromBlockchain_accuracy k :
  (0 <= k < 2 ^ 53)%Z ->
  (SF_finite (Prim2SF (fromBlockchain6 k)) = true /\
   Rabs (SF2R (Prim2SF (fromBlockchain6 k)) - IZR k / 1000000) <=
     IZR k / 1000000 * bpow (-52)) /\
  (SF_finite (Prim2SF (fromBlockchain10 k)) = true /\
   Rabs (SF2R (Prim2SF (fromBlockchain10 k)) - IZR k / 10000000000) <=
     IZR k / 10000000000 * bpow (-52)).
Proof.
  intros [Hk0 Hk].
  destruct (Z.eq_dec k 0%Z) as [->|Hne].
  { replace (Prim2SF (fromBlockchain6 0)) with (S754_zero false) by (vm_compute; reflexivity).
    replace (Prim2SF (fromBlockchain10 0)) with (S754_zero false) by (vm_compute; reflexivity).
    simpl. unfold Rdiv. rewrite !Rmult_0_l, Rminus_0_r, Rabs_R0. repeat split; auto; apply Rle_refl. }
  assert (Hpos : (0 < k < 2 ^ 53)%Z) by lia.
  unfold fromBlockchain6, fromBlockchain10. split.
  - destruct (decode_relative k 1e6%float 8589934592000000 (-33)) as (p & e & -> & H); auto.
    + rewrite (scale_value _ 1000000 33) by (reflexivity || lia).
      split; [apply IZR_le; lia|].
      rewrite bpow_IZR by lia. apply IZR_le. apply Z.leb_le. reflexivity.
    + rewrite (scale_value (Zpos 8589934592000000) 1000000 33 (-33)) in H
        by (reflexivity || lia).
      split; [reflexivity | exact H].
  - destruct (decode_relative k 1e10%float 5242880000000000 (-19)) as (p & e & -> & H); auto.
    + rewrite (scale_value _ 10000000000 19) by (reflexivity || lia).
      split; [apply IZR_le; lia|].
      rewrite bpow_IZR by lia. apply IZR_le. apply Z.leb_le. reflexivity.
    + rewrite (scale_value (Zpos 5242880000000000) 10000000000 19 (-19)) in H
        by (reflexivity || lia).
      split; [reflexivity | exact H].
Qed.

Lemma fromBlockchain_accuracy_witness :
  (0 <= 249 < 2 ^ 53)%Z /\
  SF_finite (Prim2SF (fromBlockchain6 249)) = true /\
  Rabs (SF2R (Prim2SF (fromBlockchain6 249)) - IZR 249 / 1000000) <=
    IZR 249 / 1000000 * bpow (-52).
Proof.
  assert (H : (0 <= 249 < 2 ^ 53)%Z).
  { split; [apply Z.leb_le | apply Z.ltb_lt]; reflexivity. }
  split; [exact H|]. exact (proj1 (fromBlockchain_accuracy 249 H)).
Defined.

(** X19. Decoding an on-chain integer [k] with [0 <= k <= 2^50] and
    encoding the result again yields [k] or [k - 1], for both widths: the
    round trip never gains a unit and loses at most one. *)
Theorem round_trip_within_one_unit k :
  (0 <= k <= 2 ^ 50)%Z ->
  (toBlockchain6 (fromBlockchain6 k) = Ok k \/
   toBlockchain6 (fromBlockchain6 k) = Ok (k - 1)%Z) /\
  (toBlockchain10 (fromBlockchain10 k) = Ok k \/
   toBlockchain10 (fromBlockchain10 k) = Ok (k - 1)%Z).
Proof.
  intros [Hk0 Hk].
  destruct (Z.eq_dec k 0%Z) as [->|Hne]; [split; left; vm_compute; reflexivity|].
  assert (Hpos : (0 < k <= 2 ^ 50)%Z) by lia.
  unfold toBlockchain6, fromBlockchain6, toBlockchain10, fromBlockchain10. split.
  - apply (decode_encode k 1e6%float 8589934592000000 (-33)); auto.
    + apply Z.leb_le. reflexivity.
    + rewrite (scale_value _ 1000000 33) by (reflexivity || lia).
      split; [apply IZR_le; lia|].
      rewrite bpow_IZR by lia. apply IZR_le. apply Z.leb_le. reflexivity.
  - apply (decode_encode k 1e10%float 5242880000000000 (-19)); auto.
    + apply Z.leb_le. reflexivity.
    + rewrite (scale_value _ 10000000000 19) by (reflexivity || lia).
      split; [apply IZR_le; lia|].
      rewrite bpow_IZR by lia. apply IZR_le. apply Z.leb_le. reflexivity.
Qed.

Lemma round_trip_within_one_unit_witness :
  (0 <= 249 <= 2 ^ 50)%Z /\
  toBlockchain6 (fromBlockchain6 249) = Ok (249 - 1)%Z.
Proof.
  assert (H : (0 <= 249 <= 2 ^ 50)%Z).
  { split; apply Z.leb_le; reflexivity. }
  split; [exact H|].
  destruct (proj1 (round_trip_within_one_unit 249 H)) as [E|E]; [|exact E].
  exfalso. assert (C : toBlockchain6 (fromBlockchain6 249) = Ok 248%Z)
    by (vm_compute; reflexivity).
  rewrite C in E. discriminate.
Defined.

Lemma encode_negative x j :
  BigInt_of_floor x = Ok j -> SF2R (Prim2SF x) < 0 -> (j <= -1)%Z.
Proof.
  intros Hj Hx. pose proof (BigInt_of_floor_floors x) as Hf.
  rewrite Hj in Hf. destruct Hf as [_ [Hlo _]].
  assert (Hlt : IZR j < 0) by lra. apply lt_IZR in Hlt. lia.
Qed.

Lemma trip6 k :
  (0 <= k <= 2 ^ 50)%Z ->
  exists j, toBlockchain6 (fromBlockchain6 k) = Ok j /\ (k - 1 <= j <= k)%Z /\ (0 <= j)%Z.
Proof.
  intros [Hk0 Hk].
  destruct (Z.eq_dec k 0%Z) as [->|Hne].
  { exists 0%Z. split; [vm_compute; reflexivity | lia]. }
  assert (Hpos : (0 < k <= 2 ^ 50)%Z) by lia.
  unfold toBlockchain6, fromBlockchain6.
  destruct (decode_encode k 1e6%float 8589934592000000 (-33)) as [H|H]; auto.
  - apply Z.leb_le. reflexivity.
  - rewrite (scale_value _ 1000000 33) by (reflexivity || lia).
    split; [apply IZR_le; lia|].
    rewrite bpow_IZR by lia. apply IZR_le. apply Z.leb_le. reflexivity.
  - exists k. split; [exact H | lia].
  - exists (k - 1)%Z. split; [exact H | lia].
Qed.

Lemma trip10 k :
  (0 <= k <= 2 ^ 50)%Z ->
  exists j, toBlockchain10 (fromBlockchain10 k) = Ok j /\ (k - 1 <= j <= k)%Z /\ (0 <= j)%Z.
Proof.
  intros [Hk0 Hk].
  destruct (Z.eq_dec k 0%Z) as [->|Hne].
  { exists 0%Z. split; [vm_compute; reflexivity | lia]. }
  assert (Hpos : (0 < k <= 2 ^ 50)%Z) by lia.
  unfold toBlockchain10, fromBlockchain10.
  destruct (decode_encode k 1e10%float 5242880000000000 (-19)) as [H|H]; auto.
  - apply Z.leb_le. reflexivity.
  - rewrite (scale_value _ 10000000000 19) by (reflexivity || lia).
    split; [apply IZR_le; lia|].
    rewrite bpow_IZR by lia. apply IZR_le. apply Z.leb_le. reflexivity.
  - exists k. split; [exact H | lia].
  - exists (k - 1)%Z. split; [exact H | lia].
Qed.

(** Trips that lose at most one unit each lose at most [m] units in [m]
    trips. *)
Lemma repeated_trips (to : float -> Result Z) (from : Z -> float) :
  (forall k, (0 <= k <= 2 ^ 50)%Z ->
     exists j, to (from k) = Ok j /\ (k - 1 <= j <= k)%Z /\ (0 <= j)%Z) ->
  forall m k, (0 <= k <= 2 ^ 50)%Z ->
    exists k', (k - Z.of_nat m <= k' <= k)%Z /\ (0 <= k')%Z /\
      repeatedly (fun v => j ← to v; Ok (from j)) m (from k) = Ok (from k').
Proof.
  intros Htrip. induction m as [|m IH]; intros k Hk.
  - exists k. simpl. repeat split; lia || reflexivity.
  - destruct (Htrip k Hk) as (j & Hj & Hjk & Hj0).
    destruct (IH j ltac:(lia)) as (k' & Hk' & Hk0 & Hrep).
    exists k'. split; [lia|]. split; [exact Hk0|].
    cbn [repeatedly]. rewrite Hj. exact Hrep.
Qed.

(** C6, as the code has it. The encoder yields the floor of the binary64
    product of the display value and [10^n], toward minus infinity, so a
    negative product never encodes to zero, and throws exactly when the
    product is not finite.  For the display value of an on-chain integer
    [k] with [0 <= k <= 2^50], [fromBlockchain_n(toBlockchain_n(v))] is
    that value again or the display value of [k - 1]: one round trip
    never gains a unit and loses at most one.  Round trips do not
    settle: [m] of them in a row give the display value of an integer
    between [k - m] and [k], and units are indeed lost one after the
    other, 3919 becoming 3918 and then 3917 at six decimals. *)
Theorem decimal_round_trip k m :
  (0 <= k <= 2 ^ 50)%Z ->
  (forall v, floors (v * 1e6)%float (toBlockchain6 v) /\
             floors (v * 1e10)%float (toBlockchain10 v)) /\
  (forall v j, toBlockchain6 v = Ok j ->
     SF2R (Prim2SF (v * 1e6)%float) < 0 -> (j <= -1)%Z) /\
  (forall v j, toBlockchain10 v = Ok j ->
     SF2R (Prim2SF (v * 1e10)%float) < 0 -> (j <= -1)%Z) /\
  (roundTrip6 (fromBlockchain6 k) = Ok (fromBlockchain6 k) \/
   roundTrip6 (fromBlockchain6 k) = Ok (fromBlockchain6 (k - 1))) /\
  (roundTrip10 (fromBlockchain10 k) = Ok (fromBlockchain10 k) \/
   roundTrip10 (fromBlockchain10 k) = Ok (fromBlockchain10 (k - 1))) /\
  (exists k', (k - Z.of_nat m <= k' <= k)%Z /\ (0 <= k')%Z /\
     repeatedly roundTrip6 m (fromBlockchain6 k) = Ok (fromBlockchain6 k')) /\
  (exists k', (k - Z.of_nat m <= k' <= k)%Z /\ (0 <= k')%Z /\
     repeatedly roundTrip10 m (fromBlockchain10 k) = Ok (fromBlockchain10 k')) /\
  repeatedly roundTrip6 1 (fromBlockchain6 3919) = Ok (fromBlockchain6 3918) /\
  repeatedly roundTrip6 2 (fromBlockchain6 3919) = Ok (fromBlockchain6 3917) /\
  (fromBlockchain6 3917 <? fromBlockchain6 3918)%float = true /\
  (fromBlockchain6 3918 <? fromBlockchain6 3919)%float = true.
Proof.
  intros Hk.
  split; [intros v; split; apply BigInt_of_floor_floors|].
  split; [intros v j; apply encode_negative|].
  split; [intros v j; apply encode_negative|].
  split; [|split; [|split; [|split]]].
  - destruct (trip6 k Hk) as (j & Hj & Hjk & _). unfold roundTrip6. rewrite Hj.
    destruct (Z.eq_dec j k) as [->|Hne]; [now left|].
    right. replace j with (k - 1)%Z by lia. reflexivity.
  - destruct (trip10 k Hk) as (j & Hj & Hjk & _). unfold roundTrip10. rewrite Hj.
    destruct (Z.eq_dec j k) as [->|Hne]; [now left|].
    right. replace j with (k - 1)%Z by lia. reflexivity.
  - exact (repeated_trips toBlockchain6 fromBlockchain6 trip6 m k Hk).
  - exact (repeated_trips toBlockchain10 fromBlockchain10 trip10 m k Hk).
  - vm_compute. repeat split.
Qed.

Lemma decimal_round_trip_witness :
  (0 <= 3919 <= 2 ^ 50)%Z /\
  exists k', (3919 - Z.of_nat 2 <= k' <= 3919)%Z /\ (0 <= k')%Z /\
    repeatedly roundTrip6 2 (fromBlockchain6 3919) = Ok (fromBlockchain6 k').
Proof.
  assert (H : (0 <= 3919 <= 2 ^ 50)%Z).
  { split; apply Z.leb_le; reflexivity. }
  split; [exact H|].
  exact (proj1 (proj2 (proj2 (proj2 (proj2 (proj2 (decimal_round_trip 3919 2 H))))))).
Defined.

End RoundTrip.

(** ** Rejections and the execution fee *)

Section TradeEdges.
Import Js Types TradeRPC.

Lemma toBlockchain_error :
  (forall x e, toBlockchain6 x = Err e -> e = RangeError) /\
  (forall x e, toBlockchain10 x = Err e -> e = RangeError) /\
  (forall x k, toBlockchain6 x = Ok k -> Number_isFinite x = true) /\
  (forall x k, toBlockchain10 x = Ok k -> Number_isFinite x = true).
Proof.
  unfold toBlockchain6, toBlockchain10. repeat split; intros x r H.
  - eapply BigInt_of_floor_error; eauto.
  - eapply BigInt_of_floor_error; eauto.
  - apply BigInt_of_floor_Ok in H. now apply mul_finite in H.
  - apply BigInt_of_floor_Ok in H. now apply mul_finite in H.
Qed.

Lemma openTradeArgs_outcome ti i :
  match openTradeArgs ti i with
  | Ok _ => forallb Number_isFinite (numeric_fields ti) = true
  | Err e => e = RangeError
  end.
Proof.
  destruct toBlockchain_error as (E6 & E10 & F6 & F10).
  unfold openTradeArgs, numeric_fields.
  destruct (toBlockchain6 _) as [size|e] eqn:H1; simpl; [|eauto].
  destruct (toBlockchain10 (ti_openPrice ti)) as [price|e] eqn:H2; simpl; [|eauto].
  destruct (toBlockchain10 (ti_leverage ti)) as [lev|e] eqn:H3; simpl; [|eauto].
  destruct (toBlockchain10 (ti_tp ti)) as [tp'|e] eqn:H4; simpl; [|eauto].
  destruct (toBlockchain10 (ti_sl ti)) as [sl'|e] eqn:H5; simpl; [|eauto].
  destruct (toBlockchain10 (ti_maxSlippageP ti)) as [slip|e] eqn:H6; simpl; [|eauto].
  apply F6, mul_finite in H1 as [Hc Hl].
  apply F10 in H2, H3, H4, H5, H6.
  now rewrite Hc, Hl, H2, H4, H5, H6.
Qed.

(** X20. A trade input in which one of the six converted numbers
    (collateral, leverage, open price, take profit, stop loss, slippage)
    is [NaN] or infinite is rejected with a [RangeError] once its pair has
    been found, whatever the trading contract would answer: no
    transaction is built from it.  Every failure of the conversions is a
    [RangeError]. *)
Theorem non_finite_trade_input_is_rejected c tc tradeInput cache names i :
  PairsCache.pairNameToIndexMap cache = Some names ->
  names !! ti_pair tradeInput = Some i ->
  (forallb Number_isFinite (numeric_fields tradeInput) = false ->
     buildTradeOpenTx c tc tradeInput cache = (Err RangeError, cache)) /\
  (forall e, openTradeArgs tradeInput i = Err e ->
     e = RangeError /\ buildTradeOpenTx c tc tradeInput cache = (Err RangeError, cache)).
Proof.
  intros Hn Hi.
  assert (Hidx : PairsCache.getPairIndex c (ti_pair tradeInput) cache = (Ok (Some i), cache)).
  { unfold PairsCache.getPairIndex. rewrite Hn. simpl. rewrite ?Hn. simpl. now rewrite Hi. }
  pose proof (openTradeArgs_outcome tradeInput i) as Ho.
  assert (Hb : forall e, openTradeArgs tradeInput i = Err e ->
            buildTradeOpenTx c tc tradeInput cache = (Err e, cache)).
  { intros e He. unfold buildTradeOpenTx. rewrite Hidx.
    cbn -[openTradeArgs]. now rewrite He. }
  split.
  - intros Hf. destruct (openTradeArgs tradeInput i) as [args|e]; [congruence|].
    subst e. now apply Hb.
  - intros e He. rewrite He in Ho. subst e. split; auto.
Qed.

Lemma non_finite_trade_input_is_rejected_witness :
  let names := default ∅ (PairsCache.pairNameToIndexMap PairsCache.sample_cache) in
  PairsCache.pairNameToIndexMap PairsCache.sample_cache = Some names /\
  names !! "BTC/USD" = Some 0 /\
  forallb Number_isFinite (numeric_fields (with_leverage nan (sample_input "market"))) = false /\
  buildTradeOpenTx PairsCache.sample_ledger (sample_contract (Ok 0%Z))
    (with_leverage nan (sample_input "market")) PairsCache.sample_cache =
    (Err RangeError, PairsCache.sample_cache).
Proof.
  intros names.
  assert (Hn : PairsCache.pairNameToIndexMap PairsCache.sample_cache = Some names)
    by (vm_compute; reflexivity).
  assert (Hi : names !! ti_pair (with_leverage nan (sample_input "market")) = Some 0)
    by (vm_compute; reflexivity).
  assert (Hf : forallb Number_isFinite
                 (numeric_fields (with_leverage nan (sample_input "market"))) = false)
    by (vm_compute; reflexivity).
  split; [exact Hn|]. split; [exact Hi|]. split; [exact Hf|].
  exact (proj1 (non_finite_trade_input_is_rejected PairsCache.sample_ledger
                  (sample_contract (Ok 0%Z)) (with_leverage nan (sample_input "market"))
                  PairsCache.sample_cache names 0 Hn Hi) Hf).
Defined.

(** X21. When the name of the pair is not in the catalog,
    [buildTradeOpenTx] is rejected with the message [Pair <name> not
    found], and when the catalog cannot be read it is rejected with the
    error of that read; in both cases nothing else is looked at: the
    outcome is the same for every trading contract and for every value of
    the other fields of the input. *)
Theorem unknown_pair_is_rejected_first c tc tradeInput cache :
  let lookup := PairsCache.getPairIndex c (ti_pair tradeInput) cache in
  (fst lookup = Ok None ->
     buildTradeOpenTx c tc tradeInput cache =
       (Err (ErrorMsg (String.append "Pair "
                         (String.append (ti_pair tradeInput) " not found"))),
        snd lookup)) /\
  (forall e, fst lookup = Err e ->
     buildTradeOpenTx c tc tradeInput cache = (Err e, snd lookup)) /\
  (is_Ok (fst lookup) = false \/ fst lookup = Ok None ->
   forall tc' tradeInput',
     ti_pair tradeInput' = ti_pair tradeInput ->
     buildTradeOpenTx c tc' tradeInput' cache = buildTradeOpenTx c tc tradeInput cache).
Proof.
  cbv zeta. unfold buildTradeOpenTx.
  destruct (PairsCache.getPairIndex c (ti_pair tradeInput) cache) as [[[i|]|e] cache1] eqn:E;
    simpl; repeat split; try discriminate; auto.
  - intros [?|?]; discriminate.
  - intros _ tc' ti' Hp. now rewrite Hp, E.
  - intros e0 [= ->]. reflexivity.
  - intros _ tc' ti' Hp. now rewrite Hp, E.
Qed.

Lemma unknown_pair_is_rejected_first_witness :
  fst (PairsCache.getPairIndex PairsCache.sample_ledger "DOGE/USD" PairsCache.sample_cache) =
    Ok None /\
  buildTradeOpenTx PairsCache.sample_ledger unreachable_contract
    (with_pair "DOGE/USD" (with_leverage nan (sample_input "market")))
    PairsCache.sample_cache =
    (Err (ErrorMsg "Pair DOGE/USD not found"), PairsCache.sample_cache).
Proof.
  assert (H : fst (PairsCache.getPairIndex PairsCache.sample_ledger
                     (ti_pair (with_pair "DOGE/USD" (with_leverage nan (sample_input "market"))))
                     PairsCache.sample_cache) = Ok None) by (vm_compute; reflexivity).
  split; [exact H|].
  exact (proj1 (unknown_pair_is_rejected_first PairsCache.sample_ledger unreachable_contract
                  (with_pair "DOGE/USD" (with_leverage nan (sample_input "market")))
                  PairsCache.sample_cache) H).
Defined.

(** X22. A failure of the execution-fee read does not fail
    [buildTradeOpenTx]: the outcome is the one obtained with a fee of 0.
    The transaction built carries the fee read as its value, and the
    value 0 when the read failed. *)
Theorem execution_fee_failure_is_absorbed c tc tradeInput cache :
  (is_Ok (getExecutionFee tc) = false ->
     buildTradeOpenTx c tc tradeInput cache =
     buildTradeOpenTx c (with_executionFee (Ok 0%Z) tc) tradeInput cache) /\
  (forall tx cache',
     buildTradeOpenTx c tc tradeInput cache = (Ok tx, cache') ->
     tx_value tx = match getExecutionFee tc with Ok fee => fee | Err _ => 0%Z end).
Proof.
  unfold buildTradeOpenTx, getTradeExecutionFee. split.
  - intros Hf. simpl. destruct (getExecutionFee tc); [discriminate|]. reflexivity.
  - intros tx cache'.
    destruct (PairsCache.getPairIndex c (ti_pair tradeInput) cache) as [[[i|]|e] cache1];
      simpl; try discriminate.
    destruct (openTradeArgs tradeInput i) as [args|e]; simpl; [|discriminate].
    destruct (getAddress tc) as [addr|e]; simpl; [|discriminate].
    destruct (encodeOpenTrade tc args) as [data|e]; simpl; [|discriminate].
    now intros [= <- _].
Qed.

Lemma execution_fee_failure_is_absorbed_witness :
  is_Ok (getExecutionFee (sample_contract (Err (RemoteError 503)))) = false /\
  exists tx,
    buildTradeOpenTx PairsCache.sample_ledger (sample_contract (Err (RemoteError 503)))
      (sample_input "market") PairsCache.sample_cache = (Ok tx, PairsCache.sample_cache) /\
    tx_value tx = 0%Z.
Proof.
  split; [reflexivity|].
  destruct (buildTradeOpenTx PairsCache.sample_ledger (sample_contract (Err (RemoteError 503)))
              (sample_input "market") PairsCache.sample_cache) as [[tx|e] cache'] eqn:E;
    [|vm_compute in E; discriminate].
  assert (Hc : cache' = PairsCache.sample_cache).
  { vm_compute in E. injection E as _ <-. vm_compute. reflexivity. }
  subst cache'. exists tx. split; [reflexivity|].
  exact (proj2 (execution_fee_failure_is_absorbed PairsCache.sample_ledger
                  (sample_contract (Err (RemoteError 503))) (sample_input "market")
                  PairsCache.sample_cache) tx _ E).
Defined.

End TradeEdges.

(** ** Signing and sending *)

Section SigningFacts.
Import Js Types TraderClient.

Ltac run_steps :=
  unfold fillTransaction, fillFees, mbind, Step_mbind, Step_bind, assign, read, when, await;
  simpl.

(** What filling does to a transaction object, whether it completes or
    stops at a failed read. *)
Lemma fillTransaction_fields provider address tx :
  let r := fst (fillTransaction provider address tx) in
  let tx' := snd (fillTransaction provider address tx) in
  tr_to tx' = tr_to tx /\ tr_data tx' = tr_data tx /\
  tr_from tx' = Some address /\
  (is_undefined (tr_nonce tx) = false -> tr_nonce tx' = tr_nonce tx) /\
  (is_Ok r = true -> is_undefined (tr_nonce tx') = false).
Proof.
  cbv zeta. run_steps.
  destruct (falsy (tr_chainId tx)); [destruct (getNetwork provider) as [c|e]|]; simpl;
    try (repeat split; auto; discriminate);
    (destruct (tr_nonce tx) as [| |n] eqn:Hn; simpl;
     [destruct (getTransactionCount provider address) as [n'|e]; simpl;
      try (repeat split; auto; discriminate)| |]);
    (destruct (falsy (tr_gasLimit tx)); [destruct (estimateGas provider _) as [g|e]|]; simpl;
     try (repeat split; auto; congruence));
    (destruct (falsy (tr_maxFeePerGas tx) && falsy (tr_gasPrice tx));
     [destruct (getFeeData provider) as [fd|e]; simpl;
      [destruct (truthy_bigint (fd_maxFeePerGas fd)); simpl|]|]);
    simpl; rewrite ?Hn; repeat split; auto; try discriminate; try congruence.
Qed.

Lemma signAndGetReceipt_object provider sg tx :
  snd (signAndGetReceipt provider (Some sg) tx) =
  match getAddress sg with
  | Ok address => snd (fillTransaction provider address tx)
  | Err _ => tx
  end /\
  (is_Ok (fst (signAndGetReceipt provider (Some sg) tx)) = true ->
   exists address, getAddress sg = Ok address /\
     is_Ok (fst (fillTransaction provider address tx)) = true).
Proof.
  unfold signAndGetReceipt, mbind, Step_mbind, Step_bind, await, read.
  destruct (getAddress sg) as [address|e]; simpl; [|split; [auto|discriminate]].
  destruct (fillTransaction provider address tx) as [[[]|e] tx'] eqn:Hfill; simpl;
    [|split; [auto|discriminate]].
  destruct (signTransaction sg tx') as [signed|e]; simpl; [|split; [auto|discriminate]].
  destruct (broadcastTransaction provider signed) as [resp|e]; simpl;
    (split; [reflexivity|]); [|discriminate].
  intros _. exists address. rewrite Hfill. split; reflexivity.
Qed.

(** X23. [signAndGetReceipt] works on the object it is given, and it
    looks the nonce up only when the object has none.  A nonce supplied by
    the caller is kept, be it 0 or [null]; after a call that went through,
    the object carries a nonce and the signer's address as its sender; and
    from then on the nonce of that object never changes again: handing
    the same object to [signAndGetReceipt] a second time, with whatever
    provider and signer, signs the old nonce. *)
Theorem nonce_is_looked_up_once provider sg tx :
  let r := fst (signAndGetReceipt provider (Some sg) tx) in
  let tx' := snd (signAndGetReceipt provider (Some sg) tx) in
  (is_undefined (tr_nonce tx) = false -> tr_nonce tx' = tr_nonce tx) /\
  (is_Ok r = true ->
     is_undefined (tr_nonce tx') = false /\
     exists address, getAddress sg = Ok address /\ tr_from tx' = Some address) /\
  (is_undefined (tr_nonce tx') = false ->
     forall provider' sg',
       tr_nonce (snd (signAndGetReceipt provider' (Some sg') tx')) = tr_nonce tx').
Proof.
  cbv zeta.
  assert (Hkeep : forall p s t, is_undefined (tr_nonce t) = false ->
            tr_nonce (snd (signAndGetReceipt p (Some s) t)) = tr_nonce t).
  { intros p s t Ht. rewrite (proj1 (signAndGetReceipt_object p s t)).
    destruct (getAddress s) as [a|e]; auto.
    now apply (fillTransaction_fields p a t). }
  split; [apply Hkeep|]. split; [|intros H p' sg'; now apply Hkeep].
  intros Hok.
  destruct (signAndGetReceipt_object provider sg tx) as [Hobj Hfill].
  destruct (Hfill Hok) as (a & Ha & Hf). rewrite Hobj, Ha.
  destruct (fillTransaction_fields provider a tx) as (_ & _ & Hfrom & _ & Hn).
  split; [now apply Hn | eauto].
Qed.

Lemma nonce_is_looked_up_once_witness :
  let first := signAndGetReceipt (sample_provider 7) (Some sample_signer) bare_request in
  is_Ok (fst first) = true /\
  tr_nonce (snd first) = Num 7 /\
  tr_nonce (snd (signAndGetReceipt (sample_provider 8) (Some sample_signer) (snd first))) =
    Num 7.
Proof.
  cbv zeta.
  assert (H1 : is_Ok (fst (signAndGetReceipt (sample_provider 7) (Some sample_signer)
                             bare_request)) = true) by reflexivity.
  destruct (nonce_is_looked_up_once (sample_provider 7) sample_signer bare_request)
    as (_ & H & Hagain).
  destruct (H H1) as [Hn _].
  split; [exact H1|]. split; [reflexivity|].
  rewrite (Hagain Hn (sample_provider 8) sample_signer). reflexivity.
Defined.

Lemma fillTransaction_complete provider address tx :
  complete tx = true ->
  fillTransaction provider address tx = (Ok tt, set_from address tx).
Proof.
  unfold complete. intros H.
  apply andb_true_iff in H as [H Hfee]. apply andb_true_iff in H as [H Hgas].
  apply andb_true_iff in H as [Hchain Hnonce].
  apply negb_true_iff in Hchain, Hnonce, Hgas, Hfee.
  run_steps. rewrite Hchain. simpl. rewrite Hnonce. simpl. rewrite Hgas. simpl.
  now rewrite Hfee.
Qed.

(** X24. When the caller supplies a chain id and a gas limit that are not
    0, a nonce (0 and [null] count) and one non-zero fee field,
    [signAndGetReceipt] looks nothing up: the transaction signed is the
    caller's with the sender replaced by the signer's address, whatever
    sender the caller had put, and the outcome depends on the provider
    only through the broadcast. *)
Theorem supplied_fields_are_not_looked_up provider sg tx address :
  complete tx = true -> getAddress sg = Ok address ->
  signAndGetReceipt provider (Some sg) tx =
    (signedTx ← signTransaction sg (set_from address tx);
     txResponse ← broadcastTransaction provider signedTx;
     txResponse,
     set_from address tx) /\
  (forall provider',
     broadcastTransaction provider' = broadcastTransaction provider ->
     signAndGetReceipt provider' (Some sg) tx = signAndGetReceipt provider (Some sg) tx).
Proof.
  intros Hc Ha.
  assert (H : forall p, signAndGetReceipt p (Some sg) tx =
            (signedTx ← signTransaction sg (set_from address tx);
             txResponse ← broadcastTransaction p signedTx;
             txResponse,
             set_from address tx)).
  { intros p. unfold signAndGetReceipt.
    unfold mbind at 1 2. unfold Step_mbind, Step_bind, await at 1. rewrite Ha.
    rewrite (fillTransaction_complete p address tx Hc).
    unfold mbind, Step_mbind, Step_bind, read, await, Result_bind, Js.bind.
    destruct (signTransaction sg (set_from address tx)) as [signed|e]; auto.
    destruct (broadcastTransaction p signed) as [resp|e]; auto. }
  split; [apply H|]. intros p' Hb. now rewrite !H, Hb.
Qed.

Lemma supplied_fields_are_not_looked_up_witness :
  let tx := set_gasPrice (Num 1) (set_gasLimit (Num 21000) (set_nonce (Num 0)
              (set_chainId (Num 8453) bare_request))) in
  complete tx = true /\
  snd (signAndGetReceipt (sample_provider 7) (Some sample_signer) tx) =
    set_from "0x1111111111111111111111111111111111111111" tx.
Proof.
  cbv zeta.
  set (tx := set_gasPrice (Num 1) (set_gasLimit (Num 21000) (set_nonce (Num 0)
               (set_chainId (Num 8453) bare_request)))).
  assert (Hc : complete tx = true) by reflexivity.
  split; [exact Hc|].
  rewrite (proj1 (supplied_fields_are_not_looked_up (sample_provider 7) sample_signer tx
                    "0x1111111111111111111111111111111111111111" Hc eq_refl)).
  reflexivity.
Defined.

(** X25. When the caller gives neither a maximum fee nor a gas price and
    the filling completes, the fee fields follow one scheme only.  If the
    provider reports a non-zero maximum fee, the maximum fee and the
    priority fee are set, the latter to the reported priority fee or, when
    there is none, to the maximum fee, and the gas price is left alone.
    Otherwise only the gas price is set, to the reported one; when the
    provider reports none either, it stays undefined and the transaction
    goes to the signer without any fee field. *)
Theorem fees_follow_one_scheme provider address tx tx' :
  falsy (tr_maxFeePerGas tx) = true -> falsy (tr_gasPrice tx) = true ->
  fillTransaction provider address tx = (Ok tt, tx') ->
  exists feeData,
    getFeeData provider = Ok feeData /\
    match fd_maxFeePerGas feeData, fd_maxPriorityFeePerGas feeData, fd_gasPrice feeData with
    | Some maxFee, priority, gasPrice =>
        if (maxFee =? 0)%Z then
          tr_maxFeePerGas tx' = tr_maxFeePerGas tx /\
          tr_maxPriorityFeePerGas tx' = tr_maxPriorityFeePerGas tx /\
          tr_gasPrice tx' = (if truthy_bigint gasPrice then Num (default 0%Z gasPrice)
                             else Undefined)
        else
          tr_maxFeePerGas tx' = Num maxFee /\
          tr_maxPriorityFeePerGas tx' =
            Num (if truthy_bigint priority then default 0%Z priority else maxFee) /\
          tr_gasPrice tx' = tr_gasPrice tx
    | None, _, gasPrice =>
        tr_maxFeePerGas tx' = tr_maxFeePerGas tx /\
        tr_maxPriorityFeePerGas tx' = tr_maxPriorityFeePerGas tx /\
        tr_gasPrice tx' = (if truthy_bigint gasPrice then Num (default 0%Z gasPrice)
                           else Undefined)
    end /\
    (falsy (tr_maxFeePerGas tx') || falsy (tr_gasPrice tx') = true).
Proof.
  intros Hm Hg. run_steps.
  destruct (falsy (tr_chainId tx)); [destruct (getNetwork provider) as [c|e]|]; simpl;
    try discriminate;
    (destruct (is_undefined (tr_nonce tx));
     [destruct (getTransactionCount provider address) as [n'|e]|]; simpl; try discriminate);
    (destruct (falsy (tr_gasLimit tx)); [destruct (estimateGas provider _) as [g|e]|]; simpl;
     try discriminate);
    rewrite Hm, Hg; simpl;
    (destruct (getFeeData provider) as [[gp [mf|] pr]|e]; simpl; try discriminate);
    try (destruct (mf =? 0)%Z eqn:Hz; simpl);
    intros [= <-]; simpl; eexists; (split; [reflexivity|]); simpl;
    rewrite ?Hz, ?Hm, ?Hg; simpl; repeat split; auto;
    try (rewrite orb_true_r; reflexivity).
Qed.

Lemma fees_follow_one_scheme_witness :
  falsy (tr_maxFeePerGas bare_request) = true /\
  falsy (tr_gasPrice bare_request) = true /\
  exists tx',
    fillTransaction (sample_provider 7) "0x1111111111111111111111111111111111111111"
      bare_request = (Ok tt, tx') /\
    tr_maxFeePerGas tx' = Num 2000000 /\
    tr_maxPriorityFeePerGas tx' = Num 2000000 /\
    tr_gasPrice tx' = Undefined.
Proof.
  split; [reflexivity|]. split; [reflexivity|].
  eexists. split; [reflexivity|].
  destruct (fees_follow_one_scheme (sample_provider 7)
              "0x1111111111111111111111111111111111111111" bare_request _
              eq_refl eq_refl eq_refl) as (fd & Hfd & H & _).
  injection Hfd as <-. exact H.
Defined.

End SigningFacts.
